(** * release-notes-server: commit classification, aggregation and rendering

    A shallow embedding of [github.ts] (commit message parser, pull-request
    enrichment) and [releaseNotes.ts] (statistics, grouping, rendering),
    with the properties of the specification stated over it.

    Modelling conventions.
    - A JavaScript string is the list of its UTF-16 code units ([jsstring]).
    - A thrown exception is the [Throw] case of [result].
    - A plain object used as a dictionary is an association list of its
      own properties in insertion order ([obj]).  A read of [o[k]] also
      sees the members that every object literal inherits from
      [Object.prototype] ([constructor], [toString], [__proto__], ...):
      the reads and writes of the statistics and of the grouping
      functions are modelled with them.
    - A request number is a double that holds a natural number, or
      [Infinity] ([jsnumber]).
    - The clock, the date-fns formatter and [JSON.stringify] are platform
      functions and are parameters of the rendering section. *)

From Stdlib Require Import String Ascii DecimalString DecimalN.
From Stdlib Require Import NArith PeanoNat Bool Lia List Permutation Sorted.
Import ListNotations.

Local Open Scope list_scope.

(* ================================================================= *)
(** ** Strings as code-unit sequences *)

Module Js.

Definition jsstring := list N.

(** An ASCII literal of the source as a code-unit sequence. *)
Definition lit (s : string) : jsstring :=
  map N_of_ascii (list_ascii_of_string s).

Definition str_eqb (a b : jsstring) : bool :=
  if list_eq_dec N.eq_dec a b then true else false.

(** [s.startsWith(p)] *)
Fixpoint startsWith (s p : jsstring) : bool :=
  match p, s with
  | [], _ => true
  | _ :: _, [] => false
  | a :: p', b :: s' => N.eqb a b && startsWith s' p'
  end.

(** [s.includes(needle)] *)
Fixpoint includes (s needle : jsstring) : bool :=
  startsWith s needle ||
  match s with
  | [] => false
  | _ :: s' => includes s' needle
  end.

(** WhiteSpace and LineTerminator code units of ECMAScript: the set
    stripped by [trim] and matched by the regular expression class [\s]. *)
Definition isLineTerminator (c : N) : bool :=
  existsb (N.eqb c) [10; 13; 8232; 8233]%N.

Definition isWhiteSpace (c : N) : bool :=
  isLineTerminator c ||
  existsb (N.eqb c)
    [9; 11; 12; 32; 160; 5760; 8192; 8193; 8194; 8195; 8196; 8197; 8198;
     8199; 8200; 8201; 8202; 8239; 8287; 12288; 65279]%N.

Fixpoint trimStart (s : jsstring) : jsstring :=
  match s with
  | c :: s' => if isWhiteSpace c then trimStart s' else s
  | [] => []
  end.

Definition trimEnd (s : jsstring) : jsstring := rev (trimStart (rev s)).

Definition trim (s : jsstring) : jsstring := trimEnd (trimStart s).

(** [toLowerCase], per code unit.  ASCII capitals are mapped exactly; the
    only code units above 127 whose lower-case form contains an ASCII
    letter are U+0130 and U+212A, mapped as Unicode does.  Every other
    code unit above 127 lower-cases to code units above 127 and is kept
    as it is: the searches below look for ASCII needles only. *)
Definition lowerUnit (c : N) : jsstring :=
  if (65 <=? c)%N && (c <=? 90)%N then [(c + 32)%N]
  else if (c =? 304)%N then [105; 775]%N
  else if (c =? 8490)%N then [107]%N
  else [c].

Definition toLowerCase (s : jsstring) : jsstring := flat_map lowerUnit s.

(** [toUpperCase] on the ASCII range (used on category names only). *)
Definition upperUnit (c : N) : N :=
  if (97 <=? c)%N && (c <=? 122)%N then (c - 32)%N else c.

(** [s.split('\n')]: never empty. *)
Fixpoint split_lines (s : jsstring) : jsstring * list jsstring :=
  match s with
  | [] => ([], [])
  | c :: s' =>
      let '(l, ls) := split_lines s' in
      if (c =? 10)%N then ([], l :: ls) else (c :: l, ls)
  end.

(** [lines.join(sep)] *)
Fixpoint join (sep : jsstring) (ls : list jsstring) : jsstring :=
  match ls with
  | [] => []
  | [l] => l
  | l :: ls' => l ++ sep ++ join sep ls'
  end.

(** Decimal rendering of a number in a template literal. *)
Definition ofNat (n : nat) : jsstring :=
  lit (NilZero.string_of_uint (Nat.to_uint n)).

Definition ofN (n : N) : jsstring :=
  lit (NilZero.string_of_uint (N.to_uint n)).

(** The value of [parseInt] on a run of decimal digits: a double that
    holds a natural number, or [Infinity]. *)
Inductive jsnumber : Type :=
| Finite (n : N)
| Infinity.

Definition jsnumber_eqb (a b : jsnumber) : bool :=
  match a, b with
  | Finite m, Finite n => N.eqb m n
  | Infinity, Infinity => true
  | _, _ => false
  end.

(** 2^53: up to it every natural number is a double. *)
Definition two53 : N := 9007199254740992.

(** The double nearest to a natural number, a tie going to the even
    significand; from 2^1024 - 2^970 on it is [Infinity]. *)
Definition toDouble (n : N) : jsnumber :=
  if (n <? two53)%N then Finite n
  else
    let e := (N.log2 n - 52)%N in
    let q := N.shiftr n e in
    let r := (n - N.shiftl q e)%N in
    let half := N.shiftl 1 (e - 1) in
    let q' := if (half <? r)%N || ((r =? half)%N && N.odd q)
              then (q + 1)%N else q in
    let v := N.shiftl q' e in
    if (N.shiftl 1 1024 <=? v)%N then Infinity else Finite v.

(** [w] reads back as the double [v]. *)
Definition roundTrips (v w : N) : bool :=
  jsnumber_eqb (toDouble w) (Finite v).

(** The multiple of [scale] that reads back as [v], if there is one: of
    the two multiples next to [v] the nearer, and the even one on a tie. *)
Definition shortestWith (v scale : N) : option N :=
  let lo := (v / scale * scale)%N in
  let hi := (lo + scale)%N in
  match roundTrips v lo, roundTrips v hi with
  | true, true =>
      if (v - lo <? hi - v)%N then Some lo
      else if (hi - v <? v - lo)%N then Some hi
      else if N.even (lo / scale) then Some lo else Some hi
  | true, false => Some lo
  | false, true => Some hi
  | false, false => None
  end.

Fixpoint shortest (v : N) (scales : list N) : N :=
  match scales with
  | [] => v
  | s :: rest =>
      match shortestWith v s with
      | Some w => w
      | None => shortest v rest
      end
  end.

(** The powers of ten below [v], the largest first. *)
Definition scalesOf (v : N) : list N :=
  map (fun i => (10 ^ N.of_nat i)%N) (rev (seq 0 (length (ofN v)))).

Fixpoint dropZeros (s : jsstring) : jsstring :=
  match s with
  | c :: s' => if (c =? 48)%N then dropZeros s' else s
  | [] => []
  end.

(** [d.ddde+n], the form of a number from 10^21 on. *)
Definition exponentForm (w : N) : jsstring :=
  let ds := ofN w in
  let e := ofNat (length ds - 1) in
  match rev (dropZeros (rev ds)) with
  | [] => ds
  | [d] => [d] ++ lit "e+" ++ e
  | d :: more => [d] ++ lit "." ++ more ++ lit "e+" ++ e
  end.

(** A request number in a template literal ([Number::toString]): the
    fewest digits that read back as the same double, followed by zeros.
    Up to 2^53 that is the decimal numeral of the number. *)
Definition numberText (x : jsnumber) : jsstring :=
  match x with
  | Infinity => lit "Infinity"
  | Finite v =>
      if (v <=? two53)%N then ofN v
      else
        let w := shortest v (scalesOf v) in
        if (w <? 10 ^ 21)%N then ofN w else exponentForm w
  end.

(** Truthiness of an optional string: [undefined] and [''] are falsy. *)
Definition truthy (o : option jsstring) : bool :=
  match o with
  | Some (_ :: _) => true
  | _ => false
  end.

End Js.
Import Js.

(** Outcome of a call that may throw; the payload of [Throw] is the
    message of the error, after the name of its class when the error is
    no plain [Error] (as in [TypeError: ...]). *)
Inductive result (A : Type) : Type :=
| Ok (a : A)
| Throw (msg : jsstring).
Arguments Ok {A} a.
Arguments Throw {A} msg.

Definition bind {A B} (r : result A) (k : A -> result B) : result B :=
  match r with
  | Ok a => k a
  | Throw m => Throw m
  end.

Notation "x <- c ;; k" := (bind c (fun x => k))
  (at level 61, c at next level, right associativity).

(* ================================================================= *)
(** ** A backtracking matcher for the regular expression of the parser *)

Module Regex.

(** The fragment of ECMAScript patterns used by [parseConventionalCommit].
    Repetition is applied to character classes only. *)
Inductive regex : Type :=
| Chr (p : N -> bool)          (* one code unit of a class *)
| Str (s : jsstring)           (* a literal, compared under the [i] flag *)
| Many (p : N -> bool)         (* [p*], greedy *)
| Many1 (p : N -> bool)        (* [p+], greedy *)
| Seq (a b : regex)
| Alt (a b : regex)
| Opt (a : regex)              (* [a?], greedy *)
| Grp (n : nat) (a : regex)    (* capturing group number [n] *)
| Eos.                         (* [$] without the [m] flag *)

(** Matcher state: the input not yet consumed and the captures so far,
    most recent first. *)
Record mstate : Type := MState {
  rest : jsstring;
  caps : list (nat * jsstring)
}.

Fixpoint cap_lookup (n : nat) (cs : list (nat * jsstring)) : option jsstring :=
  match cs with
  | [] => None
  | (k, v) :: cs' => if Nat.eqb k n then Some v else cap_lookup n cs'
  end.

Definition cap (n : nat) (st : mstate) : option jsstring :=
  cap_lookup n (caps st).

(** Canonicalize of the [i] flag (non-unicode mode).  A code unit above
    127 never canonicalizes to an ASCII one, so against the ASCII
    characters of this pattern it behaves as the identity. *)
Definition canon (c : N) : N := upperUnit c.

Fixpoint strip_ci (l s : jsstring) : option jsstring :=
  match l, s with
  | [], _ => Some s
  | _ :: _, [] => None
  | a :: l', b :: s' =>
      if N.eqb (canon a) (canon b) then strip_ci l' s' else None
  end.

(** The inputs left after [p*], longest repetition first. *)
Fixpoint many (p : N -> bool) (s : jsstring) : list jsstring :=
  match s with
  | [] => [[]]
  | c :: s' => if p c then many p s' ++ [s] else [s]
  end.

Definition consumed (before after : jsstring) : jsstring :=
  firstn (length before - length after) before.

(** All ways of matching [r] at the head of the input, in the order in
    which a backtracking matcher tries them. *)
Fixpoint run (r : regex) (st : mstate) : list mstate :=
  match r with
  | Chr p =>
      match rest st with
      | c :: s => if p c then [MState s (caps st)] else []
      | [] => []
      end
  | Str l =>
      match strip_ci l (rest st) with
      | Some s => [MState s (caps st)]
      | None => []
      end
  | Many p => map (fun s => MState s (caps st)) (many p (rest st))
  | Many1 p =>
      match rest st with
      | c :: s =>
          if p c then map (fun s' => MState s' (caps st)) (many p s) else []
      | [] => []
      end
  | Seq a b => flat_map (run b) (run a st)
  | Alt a b => run a st ++ run b st
  | Opt a => run a st ++ [st]
  | Grp n a =>
      map (fun st' =>
             MState (rest st')
                    ((n, consumed (rest st) (rest st')) :: caps st'))
          (run a st)
  | Eos =>
      match rest st with
      | [] => [st]
      | _ :: _ => []
      end
  end.

(** [s.match(r)] for a pattern that starts with [^] and has no [g] or [m]
    flag: the only candidate start is index 0, and the result is the
    first successful path. *)
Definition exec (r : regex) (s : jsstring) : option mstate :=
  hd_error (run r (MState s [])).

End Regex.
Import Regex.

(* ================================================================= *)
(** ** types.ts *)

Inductive CommitType : Type :=
| Breaking | Feature | Fix | Docs | Perf | Refactor | Test | Build | Other.

Definition CommitType_eqb (a b : CommitType) : bool :=
  match a, b with
  | Breaking, Breaking | Feature, Feature | Fix, Fix | Docs, Docs
  | Perf, Perf | Refactor, Refactor | Test, Test | Build, Build
  | Other, Other => true
  | _, _ => false
  end.

(** The members of the union type, in the order of its declaration. *)
Definition all_types : list CommitType :=
  [Breaking; Feature; Fix; Docs; Perf; Refactor; Test; Build; Other].

(** The string that is the run-time value of a category. *)
Definition type_name (t : CommitType) : jsstring :=
  match t with
  | Breaking => lit "breaking"
  | Feature => lit "feature"
  | Fix => lit "fix"
  | Docs => lit "docs"
  | Perf => lit "perf"
  | Refactor => lit "refactor"
  | Test => lit "test"
  | Build => lit "build"
  | Other => lit "other"
  end.

Record ParsedCommit : Type := mkCommit {
  sha : jsstring;
  type : CommitType;
  scope : option jsstring;
  message : jsstring;
  description : option jsstring;
  breaking : bool;
  author : jsstring;
  date : jsstring;
  prNumber : option jsnumber;
  commitUrl : jsstring
}.

(* ================================================================= *)
(** ** github.ts: the commit message parser *)

Module Parser.

(** Result record of [parseConventionalCommit]. *)
Record Parsed : Type := mkParsed {
  p_type : CommitType;
  p_scope : option jsstring;
  p_breaking : bool;
  p_message : jsstring;
  p_description : option jsstring
}.

Definition typeMap : list (jsstring * CommitType) :=
  [ (lit "feat", Feature); (lit "fix", Fix); (lit "docs", Docs);
    (lit "perf", Perf); (lit "refactor", Refactor); (lit "test", Test);
    (lit "build", Build); (lit "chore", Other) ].

Fixpoint assoc {V} (k : jsstring) (l : list (jsstring * V)) : option V :=
  match l with
  | [] => None
  | (k', v) :: l' => if str_eqb k' k then Some v else assoc k l'
  end.

(** [typeMap[type.toLowerCase()] || 'other'], on a key that names no
    member of [Object.prototype]: the parser passes group 1 of the match,
    which spells one of the eight tokens. *)
Definition mapCommitType (ty : jsstring) : CommitType :=
  match assoc (toLowerCase ty) typeMap with
  | Some t => t
  | None => Other
  end.

Definition not_rparen (c : N) : bool := negb (N.eqb c 41).
Definition dot (c : N) : bool := negb (isLineTerminator c).
Definition any (c : N) : bool := true.

Definition tokens : list jsstring :=
  [ lit "feat"; lit "fix"; lit "docs"; lit "perf"; lit "refactor";
    lit "test"; lit "build"; lit "chore" ].

Definition token_alt : regex :=
  Alt (Str (lit "feat")) (Alt (Str (lit "fix")) (Alt (Str (lit "docs"))
  (Alt (Str (lit "perf")) (Alt (Str (lit "refactor")) (Alt (Str (lit "test"))
  (Alt (Str (lit "build")) (Str (lit "chore")))))))).

(** The tail of the pattern after the colon: [\s*], group 4 [(.+)], the
    optional [(?:\n\n(G5))?] where group 5 is G5 = [[\s\S]*], and [$]. *)
Definition tail_regex : regex :=
  Seq (Many isWhiteSpace)
  (Seq (Grp 4 (Many1 dot))
  (Seq (Opt (Seq (Str [10; 10]%N) (Grp 5 (Many any))))
       Eos)).

(** The pattern of [parseConventionalCommit], flag [i]:
    [^(feat|fix|docs|perf|refactor|test|build|chore)] (group 1), the
    optional [(?:\(([^)]+)\))?] (group 2), the optional [(!)?] (group 3),
    [:], and the tail above. *)
Definition commit_regex : regex :=
  Seq (Grp 1 token_alt)
  (Seq (Opt (Seq (Str (lit "(")) (Seq (Grp 2 (Many1 not_rparen)) (Str (lit ")")))))
  (Seq (Opt (Grp 3 (Str (lit "!"))))
  (Seq (Str (lit ":"))
       tail_regex))).

Definition BREAKING_MARKER : jsstring := lit "BREAKING CHANGE:".

(** Reading a capture that the code dereferences: [undefined.trim()] and
    [undefined.toLowerCase()] throw a TypeError. *)
Definition deref (o : option jsstring) : result jsstring :=
  match o with
  | Some s => Ok s
  | None => Throw (lit "TypeError: Cannot read properties of undefined")
  end.

(** The chain of [if ... else if ...] that infers a category. *)
Definition inferType (hasBreakingChange : bool) (lowerMessage : jsstring)
  : CommitType :=
  if hasBreakingChange then Breaking
  else if includes lowerMessage (lit "fix") || includes lowerMessage (lit "bug")
    then Fix
  else if includes lowerMessage (lit "feat") then Feature
  else if includes lowerMessage (lit "doc") then Docs
  else if includes lowerMessage (lit "perf") then Perf
  else if includes lowerMessage (lit "test") then Test
  else if includes lowerMessage (lit "build") || includes lowerMessage (lit "deps")
    then Build
  else if includes lowerMessage (lit "refactor") then Refactor
  else Other.

(** [description || undefined] *)
Definition or_undefined (s : jsstring) : option jsstring :=
  match s with
  | [] => None
  | _ :: _ => Some s
  end.

Definition parseConventionalCommit (msg : jsstring) : result Parsed :=
  match exec commit_regex msg with
  | Some m =>
      ty <- deref (cap 1 m) ;;
      title <- deref (cap 4 m) ;;
      Ok {| p_type := mapCommitType ty;
            p_scope := cap 2 m;
            p_breaking :=
              (match cap 3 m with Some _ => true | None => false end)
              || includes msg BREAKING_MARKER;
            p_message := trim title;
            p_description := option_map trim (cap 5 m) |}
  | None =>
      let hasBreakingChange := includes msg BREAKING_MARKER in
      let lowerMessage := toLowerCase msg in
      let inferredType := inferType hasBreakingChange lowerMessage in
      let '(title, descLines) := split_lines msg in
      let description := trim (join (lit (String "010" EmptyString)) descLines) in
      Ok {| p_type := inferredType;
            p_scope := None;
            p_breaking := hasBreakingChange;
            p_message := trim title;
            p_description := or_undefined description |}
  end.

End Parser.
Import Parser.

(* ================================================================= *)
(** ** github.ts: enrichment with pull-request data *)

Module Enrich.

Record PullRequest : Type := mkPR {
  number : N;
  title : jsstring;
  body : option jsstring;
  labels : list jsstring            (* the [name] of each label *)
}.

(** [!commit.prNumber]: [undefined] and [0] are falsy. *)
Definition prNumber_truthy (c : ParsedCommit) : option jsnumber :=
  match prNumber c with
  | Some (Finite 0) => None
  | Some n => Some n
  | None => None
  end.

Definition set_type (t : CommitType) (c : ParsedCommit) : ParsedCommit :=
  mkCommit (sha c) t (scope c) (message c) (description c) (breaking c)
           (author c) (date c) (prNumber c) (commitUrl c).

Definition set_breaking (b : bool) (c : ParsedCommit) : ParsedCommit :=
  mkCommit (sha c) (type c) (scope c) (message c) (description c) b
           (author c) (date c) (prNumber c) (commitUrl c).

Definition set_message (m : jsstring) (c : ParsedCommit) : ParsedCommit :=
  mkCommit (sha c) (type c) (scope c) m (description c) (breaking c)
           (author c) (date c) (prNumber c) (commitUrl c).

Definition set_description (d : option jsstring) (c : ParsedCommit)
  : ParsedCommit :=
  mkCommit (sha c) (type c) (scope c) (message c) d (breaking c)
           (author c) (date c) (prNumber c) (commitUrl c).

(** [labels.some(l => l.includes(w))] *)
Definition some_label (ls : list jsstring) (w : string) : bool :=
  existsb (fun l => includes l (lit w)) ls.

(** The block guarded by [commit.type === 'other']. *)
Definition applyLabels (pr : PullRequest) (c : ParsedCommit) : ParsedCommit :=
  match type c with
  | Other =>
      let labels := map toLowerCase (labels pr) in
      let c := if some_label labels "breaking" then set_breaking true c else c in
      if some_label labels "feature" then set_type Feature c
      else if existsb (fun l => includes l (lit "bug") || includes l (lit "fix"))
                      labels
        then set_type Fix c
      else if some_label labels "doc" then set_type Docs c
      else if some_label labels "perf" then set_type Perf c
      else if some_label labels "refactor" then set_type Refactor c
      else if some_label labels "test" then set_type Test c
      else if some_label labels "build" then set_type Build c
      else c
  | _ => c
  end.

(** [if (commit.message.length < pr.title.length) commit.message = pr.title] *)
Definition applyTitle (pr : PullRequest) (c : ParsedCommit) : ParsedCommit :=
  if length (message c) <? length (title pr) then set_message (title pr) c
  else c.

(** [if (!commit.description && pr.body) commit.description = pr.body] *)
Definition applyBody (pr : PullRequest) (c : ParsedCommit) : ParsedCommit :=
  if negb (truthy (description c)) && truthy (body pr)
  then set_description (body pr) c
  else c.

(** The body of the loop once the pull request has been fetched. *)
Definition mergePR (pr : PullRequest) (c : ParsedCommit) : ParsedCommit :=
  applyBody pr (applyTitle pr (applyLabels pr c)).

Section WithFetch.

(** [fetchPullRequest(owner, repo, n)]: the pull request, [null] on a 404
    answer, or a rethrown transport error. *)
Variable fetchPullRequest : jsnumber -> result (option PullRequest).

(** One iteration of the loop of [enrichCommitsWithPRData]. *)
Definition enrichCommit (c : ParsedCommit) : result ParsedCommit :=
  match prNumber_truthy c with
  | None => Ok c
  | Some n =>
      pr <- fetchPullRequest n ;;
      match pr with
      | None => Ok c
      | Some pr => Ok (mergePR pr c)
      end
  end.

(** The loop visits the commits in order and stops at the first error.
    The commit objects of the input are taken to be distinct objects, as
    [fetchCommits] builds them. *)
Fixpoint enrichCommitsWithPRData (commits : list ParsedCommit)
  : result (list ParsedCommit) :=
  match commits with
  | [] => Ok []
  | c :: cs =>
      c' <- enrichCommit c ;;
      cs' <- enrichCommitsWithPRData cs ;;
      Ok (c' :: cs')
  end.

End WithFetch.

End Enrich.
Import Enrich.

(* ================================================================= *)
(** ** Plain objects used as dictionaries *)

Module Obj.

(** Own string-keyed properties in creation order. *)
Definition obj (V : Type) : Type := list (jsstring * V).

(** The own property [k] of [o]; [None] when [o] has none of that name. *)
Fixpoint get {V} (k : jsstring) (o : obj V) : option V :=
  match o with
  | [] => None
  | (k', v) :: o' => if str_eqb k' k then Some v else get k o'
  end.

(** [o[k] = v] for a key other than [__proto__]: an existing property
    keeps its place, a new one is created last. *)
Fixpoint set {V} (k : jsstring) (v : V) (o : obj V) : obj V :=
  match o with
  | [] => [(k, v)]
  | (k', v') :: o' =>
      if str_eqb k' k then (k', v) :: o' else (k', v') :: set k v o'
  end.

Definition isDigit (c : N) : bool := (48 <=? c)%N && (c <=? 57)%N.

Definition digitsValue (k : jsstring) : N :=
  fold_left (fun acc c => (10 * acc + (c - 48))%N) k 0%N.

(** The array index named by a key, if the key is the canonical decimal
    form of an integer below 2^32 - 1. *)
Definition arrayIndex (k : jsstring) : option N :=
  match k with
  | [] => None
  | _ :: _ =>
      if forallb isDigit k
         && str_eqb (ofN (digitsValue k)) k
         && (digitsValue k <? 4294967295)%N
      then Some (digitsValue k) else None
  end.

Definition isIndexKey {V} (e : jsstring * V) : bool :=
  match arrayIndex (fst e) with
  | Some _ => true
  | None => false
  end.

Definition indexValue {V} (e : jsstring * V) : N :=
  match arrayIndex (fst e) with
  | Some n => n
  | None => 0%N
  end.

Fixpoint insertAsc {V} (e : jsstring * V) (l : obj V) : obj V :=
  match l with
  | [] => [e]
  | x :: l' =>
      if (indexValue e <=? indexValue x)%N then e :: l
      else x :: insertAsc e l'
  end.

Definition sortAsc {V} (l : obj V) : obj V := fold_right insertAsc [] l.

(** [Object.entries(o)]: array-index keys in ascending numeric order,
    then the other keys in creation order. *)
Definition entries {V} (o : obj V) : list (jsstring * V) :=
  sortAsc (filter isIndexKey o) ++ filter (fun e => negb (isIndexKey e)) o.

(** The names of the properties of [Object.prototype], which an object
    literal inherits: those of the standard and of its Annex B, as Node
    has them.  A read of [o[k]] for such a name on an object that has no
    own property [k] gives the inherited member, a function (for
    [__proto__] the prototype object itself), which is truthy. *)
Definition prototypeMembers : list jsstring :=
  [ lit "constructor"; lit "__defineGetter__"; lit "__defineSetter__";
    lit "hasOwnProperty"; lit "__lookupGetter__"; lit "__lookupSetter__";
    lit "isPrototypeOf"; lit "propertyIsEnumerable"; lit "toString";
    lit "valueOf"; lit "__proto__"; lit "toLocaleString" ].

Definition inherited (k : jsstring) : bool :=
  existsb (str_eqb k) prototypeMembers.

(** What string concatenation makes of the inherited member [k]: the
    source text of a native function as V8 prints it, and
    [[object Object]] for the prototype object. *)
Definition memberText (k : jsstring) : jsstring :=
  if str_eqb k (lit "__proto__") then lit "[object Object]"
  else lit "function "
       ++ (if str_eqb k (lit "constructor") then lit "Object" else k)
       ++ lit "() { [native code] }".

End Obj.
Import Obj.

(* ================================================================= *)
(** ** releaseNotes.ts: statistics and grouping *)

(** A value of the dictionaries that count by author and by scope.  The
    code means to keep numbers; under a key that names a member of
    [Object.prototype] it keeps a string instead: the text of that
    member followed by one [1] for each commit counted. *)
Inductive counter : Type :=
| Num (n : nat)
| NativeText (member : jsstring) (ones : nat).

Definition counter_eqb (a b : counter) : bool :=
  match a, b with
  | Num m, Num n => Nat.eqb m n
  | NativeText k i, NativeText l j => str_eqb k l && Nat.eqb i j
  | _, _ => false
  end.

(** A counter in a template literal. *)
Definition counterText (v : counter) : jsstring :=
  match v with
  | Num n => ofNat n
  | NativeText k j => memberText k ++ repeat 49%N j
  end.

(** The comparator [([, a], [, b]) => b - a] tells [a] to come after [b]
    when the difference is positive.  On a string of [counter] the
    difference is [NaN], which a sort reads as 0. *)
Definition lessCount (a b : counter) : bool :=
  match a, b with
  | Num m, Num n => m <? n
  | _, _ => false
  end.

(** [arr.sort(([, a], [, b]) => b - a)]: stable, by descending count.
    Where a count is a string the comparator is not consistent and the
    standard leaves the order to the implementation; the model then gives
    the order of an insertion sort, and the statements on the order of
    the rows are made where every count is a number. *)
Fixpoint insertDesc (e : jsstring * counter) (l : list (jsstring * counter))
  : list (jsstring * counter) :=
  match l with
  | [] => [e]
  | x :: l' =>
      if lessCount (snd e) (snd x) then x :: insertDesc e l' else e :: l
  end.

Definition sortDesc (l : list (jsstring * counter))
  : list (jsstring * counter) :=
  fold_right insertDesc [] l.

Record CommitStats : Type := mkStats {
  totalCommits : nat;
  commitsByType : obj nat;
  commitsByAuthor : obj counter;
  commitsByScope : obj counter;
  breakingChanges : nat
}.

Record ReleaseNotes : Type := mkNotes {
  version : option jsstring;
  rn_date : jsstring;                         (* field [date] *)
  rn_breakingChanges : list ParsedCommit;     (* field [breakingChanges] *)
  commits : list ParsedCommit;
  stats : option CommitStats
}.

Module Aggregate.

(** [o[k]++] on a key that the object owns, as the nine category keys
    of the literal in [calculateStats] always are. *)
Definition increment (k : jsstring) (o : obj nat) : obj nat :=
  set k (S (match get k o with Some n => n | None => 0 end)) o.

(** The value of [(o[k] || 0) + 1].  An own number is incremented and an
    own string gets a [1] appended.  Without an own property the read
    gives [undefined], hence 1, unless [k] names a member of
    [Object.prototype]: that member is truthy, and [+ 1] turns it into
    its text followed by [1]. *)
Definition bumped (k : jsstring) (v : option counter) : counter :=
  match v with
  | Some (Num n) => Num (S n)
  | Some (NativeText m j) => NativeText m (S j)
  | None => if inherited k then NativeText k 1 else Num 1
  end.

(** [o[k] = (o[k] || 0) + 1].  Under the key [__proto__] the read gives
    the prototype object and the write calls the setter of
    [Object.prototype], which ignores a string: no property is created. *)
Definition bump (k : jsstring) (o : obj counter) : obj counter :=
  if str_eqb k (lit "__proto__") then o
  else set k (bumped k (get k o)) o.

(** [grouped[k].push(c)] on a key that the object owns, as the nine
    category keys of the literal in [groupCommitsByType] always are. *)
Definition push (k : jsstring) (c : ParsedCommit) (o : obj (list ParsedCommit))
  : obj (list ParsedCommit) :=
  set k ((match get k o with Some l => l | None => [] end) ++ [c]) o.

(** [if (!grouped[k]) grouped[k] = []; grouped[k].push(c)], where [expr]
    is the source text of [grouped[k]].  When [k] names a member of
    [Object.prototype] and the object has no own property [k], the read
    gives that member: it is truthy, so no array is created, and it has
    no [push], so the call throws a TypeError (the message is V8's). *)
Definition pushOrCreate (expr : jsstring) (k : jsstring) (c : ParsedCommit)
  (o : obj (list ParsedCommit)) : result (obj (list ParsedCommit)) :=
  match get k o with
  | Some l => Ok (set k (l ++ [c]) o)
  | None =>
      if inherited k
      then Throw (lit "TypeError: " ++ expr ++ lit ".push is not a function")
      else Ok (set k [c] o)
  end.

Definition statsInit (n : nat) : CommitStats :=
  {| totalCommits := n;
     commitsByType := map (fun t => (type_name t, 0)) all_types;
     commitsByAuthor := [];
     commitsByScope := [];
     breakingChanges := 0 |}.

(** The body of the loop of [calculateStats]. *)
Definition statsStep (st : CommitStats) (c : ParsedCommit) : CommitStats :=
  {| totalCommits := totalCommits st;
     commitsByType := increment (type_name (type c)) (commitsByType st);
     commitsByAuthor := bump (author c) (commitsByAuthor st);
     commitsByScope :=
       match scope c with
       | Some (x :: s) => bump (x :: s) (commitsByScope st)
       | _ => commitsByScope st
       end;
     breakingChanges :=
       if breaking c then S (breakingChanges st) else breakingChanges st |}.

Definition calculateStats (cs : list ParsedCommit) : CommitStats :=
  fold_left statsStep cs (statsInit (length cs)).

Definition groupCommitsByType (cs : list ParsedCommit)
  : obj (list ParsedCommit) :=
  fold_left
    (fun grouped c =>
       if breaking c then push (type_name Breaking) c grouped
       else push (type_name (type c)) c grouped)
    cs (map (fun t => (type_name t, [])) all_types).

(** [commit.scope || 'other'] *)
Definition scopeKey (c : ParsedCommit) : jsstring :=
  match scope c with
  | Some (x :: s) => x :: s
  | _ => lit "other"
  end.

(** The loop of the two functions below: it stops at the first commit
    whose filing throws. *)
Definition fileAll (expr : jsstring) (key : ParsedCommit -> jsstring)
  (cs : list ParsedCommit) : result (obj (list ParsedCommit)) :=
  fold_left
    (fun acc c => grouped <- acc ;; pushOrCreate expr (key c) c grouped)
    cs (Ok []).

Definition groupCommitsByScope (cs : list ParsedCommit)
  : result (obj (list ParsedCommit)) :=
  fileAll (lit "grouped[scope]") scopeKey cs.

Definition groupCommitsByAuthor (cs : list ParsedCommit)
  : result (obj (list ParsedCommit)) :=
  fileAll (lit "grouped[commit.author]") author cs.

End Aggregate.
Import Aggregate.

(* ================================================================= *)
(** ** releaseNotes.ts: rendering *)

Module Render.

Inductive GroupBy : Type := ByType | ByScope | ByAuthor.

Definition EMOJI_MAP (t : CommitType) : jsstring :=
  match t with
  | Breaking => [9888; 65039]
  | Feature => [55357; 56960]
  | Fix => [55357; 56347]
  | Docs => [55357; 56538]
  | Perf => [9889]
  | Refactor => [9851; 65039]
  | Test => [55358; 56810]
  | Build => [55356; 57303; 65039]
  | Other => [55357; 56615]
  end%N.

Definition EMOJI_SCOPE : jsstring := [55357; 56550]%N.
Definition EMOJI_AUTHOR : jsstring := [55357; 56420]%N.
Definition EMOJI_STATS : jsstring := [55357; 56522]%N.

Definition nl : jsstring := [10]%N.

(** [EMOJI_MAP[group as CommitType]] for a key given as a string: the
    code applies it to the names of categories; any other key that
    names no member of [Object.prototype] interpolates as [undefined]. *)
Definition emojiOfName (g : jsstring) : jsstring :=
  match find (fun t => str_eqb (type_name t) g) all_types with
  | Some t => EMOJI_MAP t
  | None => lit "undefined"
  end.

(** [group.charAt(0).toUpperCase() + group.slice(1)] *)
Definition capitalize (g : jsstring) : jsstring :=
  match g with
  | [] => []
  | c :: g' => upperUnit c :: g'
  end.

Definition formatCommit (c : ParsedCommit) (includeScope : bool) : jsstring :=
  let emoji := EMOJI_MAP (type c) in
  let scope :=
    match scope c with
    | Some (x :: s) =>
        if includeScope then lit "(" ++ (x :: s) ++ lit ") " else []
    | _ => []
    end in
  let prLink :=
    match prNumber_truthy c with
    | Some n => lit " (#" ++ numberText n ++ lit ")"
    | None => []
    end in
  let breaking := if breaking c then lit " [BREAKING]" else [] in
  emoji ++ lit " " ++ scope ++ message c ++ breaking ++ prLink.

(** [d.replace(/\n/g, '\n  - ')] *)
Definition reindent (d : jsstring) : jsstring :=
  flat_map (fun c => if (c =? 10)%N then nl ++ lit "  - " else [c]) d.

(** The lines pushed for one commit of a section. *)
Definition commitLines (includeScope : bool) (c : ParsedCommit)
  : list jsstring :=
  (lit "- " ++ formatCommit c includeScope) ::
  match description c with
  | Some (x :: d) => [lit "  - " ++ reindent (x :: d)]
  | _ => []
  end.

(** The [switch] over [groupBy] in [generateMarkdown]. *)
Definition groupCommits (groupBy : GroupBy) (cs : list ParsedCommit)
  : result (obj (list ParsedCommit)) :=
  match groupBy with
  | ByType => Ok (groupCommitsByType cs)
  | ByScope => groupCommitsByScope cs
  | ByAuthor => groupCommitsByAuthor cs
  end.

(** The two [continue] guards at the head of the loop over the groups. *)
Definition groupIsRendered (e : jsstring * list ParsedCommit) : bool :=
  negb (length (snd e) =? 0) && negb (str_eqb (fst e) (lit "breaking")).

(** The groups whose section is emitted, in emission order: those that
    pass the guards, and none when the grouping throws. *)
Definition renderedGroups (groupBy : GroupBy) (rn : ReleaseNotes)
  : list (jsstring * list ParsedCommit) :=
  match groupCommits groupBy (commits rn) with
  | Ok groupedCommits => filter groupIsRendered (entries groupedCommits)
  | Throw _ => []
  end.

Definition sectionTitle (groupBy : GroupBy) (group : jsstring) : jsstring :=
  match groupBy with
  | ByType => lit "## " ++ emojiOfName group ++ lit " " ++ capitalize group
  | ByScope => lit "## " ++ EMOJI_SCOPE ++ lit " " ++ group
  | ByAuthor => lit "## " ++ EMOJI_AUTHOR ++ lit " " ++ group
  end.

Definition sectionLines (groupBy : GroupBy)
  (e : jsstring * list ParsedCommit) : list jsstring :=
  [sectionTitle groupBy (fst e) ++ nl]
  ++ flat_map
       (commitLines (match groupBy with ByScope => false | _ => true end))
       (snd e)
  ++ [[]].

(** The section of breaking changes, emitted when there is at least one. *)
Definition breakingLines (rn : ReleaseNotes) : list jsstring :=
  match rn_breakingChanges rn with
  | [] => []
  | _ :: _ =>
      [lit "## " ++ EMOJI_MAP Breaking ++ lit " Breaking Changes" ++ nl]
      ++ flat_map (commitLines true) (rn_breakingChanges rn)
      ++ [[]]
  end.

Definition statsLines (st : CommitStats) : list jsstring :=
  [lit "## " ++ EMOJI_STATS ++ lit " Detailed Statistics" ++ nl;
   lit "### Commits by Type"]
  ++ map (fun e => lit "- " ++ emojiOfName (fst e) ++ lit " " ++ fst e
                   ++ lit ": " ++ ofNat (snd e))
         (filter (fun e => 0 <? snd e) (entries (commitsByType st)))
  ++ match commitsByScope st with
     | [] => []
     | _ :: _ =>
         [nl ++ lit "### Commits by Scope"]
         ++ map (fun e => lit "- " ++ EMOJI_SCOPE ++ lit " " ++ fst e
                          ++ lit ": " ++ counterText (snd e))
                (sortDesc (entries (commitsByScope st)))
     end
  ++ [nl ++ lit "### Commits by Author"]
  ++ map (fun e => lit "- " ++ EMOJI_AUTHOR ++ lit " " ++ fst e
                   ++ lit ": " ++ counterText (snd e))
         (sortDesc (entries (commitsByAuthor st))).

(** Deleting every match of a pattern anchored by [^] under the flags
    [g] and [m].  [len s] is the length of the match at the head of [s]
    (0 when there is none); the scan walks the original string, [skip]
    counts the code units of the current match still to be deleted and
    [prev] is the code unit before the current position. *)
Fixpoint deleteAtLineStart (len : jsstring -> nat) (skip : nat)
  (prev : option N) (s : jsstring) : jsstring :=
  match s with
  | [] => []
  | c :: s' =>
      match skip with
      | S k => deleteAtLineStart len k (Some c) s'
      | O =>
          let atLineStart :=
            match prev with
            | None => true
            | Some p => isLineTerminator p
            end in
          match (if atLineStart then len s else 0) with
          | S k => deleteAtLineStart len k (Some c) s'
          | O => c :: deleteAtLineStart len 0 (Some c) s'
          end
      end
  end.

Fixpoint countWhile (p : N -> bool) (s : jsstring) : nat :=
  match s with
  | c :: s' => if p c then S (countWhile p s') else 0
  | [] => 0
  end.

(** Length of the match of [#+\s*] at the head of [s]. *)
Definition lenHeading (s : jsstring) : nat :=
  match countWhile (N.eqb 35) s with
  | 0 => 0
  | h => h + countWhile isWhiteSpace (skipn h s)
  end.

(** Length of the match of [[-*]\s*] at the head of [s]. *)
Definition lenBullet (s : jsstring) : nat :=
  match s with
  | c :: s' =>
      if (c =? 45)%N || (c =? 42)%N then S (countWhile isWhiteSpace s')
      else 0
  | [] => 0
  end.

Section WithPlatform.

(** [format(new Date(d), 'yyyy-MM-dd')] of date-fns, the clock reading
    [new Date().toISOString()] and [JSON.stringify(notes, null, 2)]. *)
Variable formatDate : jsstring -> jsstring.
Variable now : jsstring.
Variable JSON_stringify : ReleaseNotes -> jsstring.

Definition headerLines (rn : ReleaseNotes) : list jsstring :=
  [ lit "# Release Notes"
      ++ (if truthy (version rn)
          then lit " (" ++ match version rn with Some v => v | None => [] end
               ++ lit ")"
          else []);
    lit "> Generated on " ++ formatDate (rn_date rn);
    match stats rn with
    | Some st =>
        lit "> Total Commits: " ++ ofNat (totalCommits st)
        ++ lit " | Breaking Changes: " ++ ofNat (breakingChanges st) ++ nl
    | None => []
    end ].

(** The array [lines] of [generateMarkdown] at its end.  The header and
    the section of breaking changes are pushed first; the grouping comes
    next, and when it throws nothing is returned. *)
Definition markdownLines (rn : ReleaseNotes) (groupBy : GroupBy)
  : result (list jsstring) :=
  groupedCommits <- groupCommits groupBy (commits rn) ;;
  Ok (headerLines rn
      ++ breakingLines rn
      ++ flat_map (sectionLines groupBy)
           (filter groupIsRendered (entries groupedCommits))
      ++ match stats rn with
         | Some st => statsLines st
         | None => []
         end).

Definition generateMarkdown (rn : ReleaseNotes) (groupBy : GroupBy)
  : result jsstring :=
  lines <- markdownLines rn groupBy ;;
  Ok (join nl lines).

Definition generatePlainText (rn : ReleaseNotes) (groupBy : GroupBy)
  : result jsstring :=
  markdown <- generateMarkdown rn groupBy ;;
  Ok (trim (deleteAtLineStart lenBullet 0 None
              (deleteAtLineStart lenHeading 0 None markdown))).

Record Options : Type := mkOptions {
  o_version : option jsstring;
  o_groupBy : option GroupBy;
  o_format : option jsstring;
  o_includeStats : option bool;
  o_template : option jsstring
}.

Definition orDefault {A} (o : option A) (d : A) : A :=
  match o with
  | Some a => a
  | None => d
  end.

(** The object literal built by [generateReleaseNotes]. *)
Definition buildNotes (cs : list ParsedCommit) (options : Options)
  : ReleaseNotes :=
  {| version := o_version options;
     rn_date := now;
     rn_breakingChanges := filter (fun c => breaking c) cs;
     commits := filter (fun c => negb (breaking c)) cs;
     stats := if orDefault (o_includeStats options) false
              then Some (calculateStats cs) else None |}.

Definition generateReleaseNotes (cs : list ParsedCommit) (options : Options)
  : result jsstring :=
  let groupBy := orDefault (o_groupBy options) ByType in
  let format := orDefault (o_format options) (lit "markdown") in
  let releaseNotes := buildNotes cs options in
  if str_eqb format (lit "markdown")
  then generateMarkdown releaseNotes groupBy
  else if str_eqb format (lit "json")
  then Ok (JSON_stringify releaseNotes)
  else if str_eqb format (lit "text")
  then generatePlainText releaseNotes groupBy
  else Throw (lit "Unsupported format: " ++ format).

End WithPlatform.

End Render.
Import Render.

(* ================================================================= *)
(** * Vocabulary of the statements *)

(** ** Structured messages *)


(** The text of the optional parenthesised scope and of the optional
    exclamation mark. *)
Definition scope_text (sc : option jsstring) : jsstring :=
  match sc with
  | Some s => lit "(" ++ s ++ lit ")"
  | None => []
  end.

Definition bang_text (b : bool) : jsstring :=
  if b then lit "!" else [].

(** The text of the optional description: a blank line, then the body. *)
Definition desc_text (d : option jsstring) : jsstring :=
  match d with
  | Some s => [10; 10]%N ++ s
  | None => []
  end.

(** ASCII letters. *)
Definition isLowerLetter (c : N) : bool := (97 <=? c)%N && (c <=? 122)%N.

Definition isLetter (c : N) : bool :=
  isLowerLetter c || ((65 <=? c)%N && (c <=? 90)%N).

(** The longest prefix of [s] whose code units satisfy [p]. *)
Fixpoint takeWhile (p : N -> bool) (s : jsstring) : jsstring :=
  match s with
  | c :: s' => if p c then c :: takeWhile p s' else []
  | [] => []
  end.

(** [w] spells one of the category tokens, in any letter case. *)
Definition spells_token (w : jsstring) : Prop :=
  exists tok, In tok tokens /\ length w = length tok
              /\ map canon w = map canon tok.

(** A scope, when present, is non-empty and holds no closing parenthesis. *)
Definition valid_scope (sc : option jsstring) : Prop :=
  match sc with
  | Some s => s <> [] /\ forallb not_rparen s = true
  | None => True
  end.

(** The pieces of a structured message: token, scope, exclamation mark,
    white space after the colon, title and description. *)
Record Shape : Type := mkShape {
  s_token : jsstring;
  s_scope : option jsstring;
  s_bang : bool;
  s_space : jsstring;
  s_title : jsstring;
  s_desc : option jsstring
}.

(** The token with its optional scope. *)
Definition header (sh : Shape) : jsstring :=
  s_token sh ++ scope_text (s_scope sh).

(** What follows the token starts with [(], [!] or [:]. *)
Definition after_token (sh : Shape) : jsstring :=
  scope_text (s_scope sh) ++ bang_text (s_bang sh) ++ lit ":"
  ++ s_space sh ++ s_title sh ++ desc_text (s_desc sh).

(** The message that a shape spells. *)
Definition shape_text (sh : Shape) : jsstring :=
  header sh ++ bang_text (s_bang sh) ++ lit ":" ++ s_space sh
  ++ s_title sh ++ desc_text (s_desc sh).

(** The side conditions of the grammar: a token, a valid scope, white
    space after the colon, a non-empty title without line terminators. *)
Definition well_shaped (sh : Shape) : Prop :=
  spells_token (s_token sh) /\ valid_scope (s_scope sh)
  /\ forallb isWhiteSpace (s_space sh) = true
  /\ forallb dot (s_title sh) = true /\ s_title sh <> [].

(** The five captures of a match that follows [sh]. *)
Definition captures (sh : Shape) (m : mstate) : Prop :=
  cap 1 m = Some (s_token sh) /\ cap 2 m = s_scope sh
  /\ cap 3 m = (if s_bang sh then Some (lit "!") else None)
  /\ cap 4 m = Some (s_title sh) /\ cap 5 m = s_desc sh.

(** ** The parser, branch by branch, and the tables of the specification *)

(** The record returned on a structured match read as [sh]. *)
Definition parsed_of_shape (msg : jsstring) (sh : Shape) : Parsed :=
  {| p_type := mapCommitType (s_token sh);
     p_scope := s_scope sh;
     p_breaking := s_bang sh || includes msg BREAKING_MARKER;
     p_message := trim (s_title sh);
     p_description := option_map trim (s_desc sh) |}.

(** The record returned when the pattern does not match. *)
Definition parsed_unstructured (msg : jsstring) : Parsed :=
  {| p_type := inferType (includes msg BREAKING_MARKER) (toLowerCase msg);
     p_scope := None;
     p_breaking := includes msg BREAKING_MARKER;
     p_message := trim (fst (split_lines msg));
     p_description :=
       or_undefined (trim (join nl (snd (split_lines msg)))) |}.

(** The text whose trimmed form is the title: group 4 on a structured
    match, the first line otherwise. *)
Definition title_source (msg : jsstring) : jsstring :=
  match exec commit_regex msg with
  | Some m => match cap 4 m with Some t => t | None => [] end
  | None => fst (split_lines msg)
  end.

(** The token-to-category table in the words of the specification:
    [feat] gives [feature], [chore] gives [other], every other token
    gives the category of the same name. *)
Definition token_category (tok : jsstring) : jsstring :=
  if str_eqb tok (lit "feat") then lit "feature"
  else if str_eqb tok (lit "chore") then lit "other"
  else tok.

(** The priority list of the specification for unstructured messages,
    after the breaking marker: needles and the category they select. *)
Definition inference_table : list (list jsstring * CommitType) :=
  [ ([lit "fix"; lit "bug"], Fix);
    ([lit "feat"], Feature);
    ([lit "doc"], Docs);
    ([lit "perf"], Perf);
    ([lit "test"], Test);
    ([lit "build"; lit "deps"], Build);
    ([lit "refactor"], Refactor) ].

(** A rule matches when one of its needles occurs in the lower-cased
    message. *)
Definition rule_matches (msg : jsstring) (rule : list jsstring * CommitType)
  : bool :=
  existsb (includes (toLowerCase msg)) (fst rule).

(** First match wins, the breaking marker before every needle. *)
Definition infer_by_priority (msg : jsstring) : CommitType :=
  if includes msg BREAKING_MARKER then Breaking
  else match find (rule_matches msg) inference_table with
       | Some rule => snd rule
       | None => Other
       end.

(** ** Dictionaries, counting and filing *)

(** [Object.keys(o)], up to order. *)
Definition keys {V} (o : obj V) : list jsstring := map fst o.

(** The sum of the counts of a dictionary. *)
Definition sumValues (o : obj nat) : nat := list_sum (map snd o).

(** A count read from a dictionary, 0 when the key is absent. *)
Definition count_or_zero (v : option nat) : nat :=
  match v with
  | Some n => n
  | None => 0
  end.

(** Number of commits of [cs] filed under key [k] by [key]. *)
Definition countBy (key : ParsedCommit -> jsstring) (k : jsstring)
  (cs : list ParsedCommit) : nat :=
  length (filter (fun c => str_eqb (key c) k) cs).

(** Counting the commits of [cs] under [key], as [calculateStats] does
    for the categories and for the authors and scopes. *)
Definition incrementAll (key : ParsedCommit -> jsstring)
  (cs : list ParsedCommit) (o : obj nat) : obj nat :=
  fold_left (fun o c => increment (key c) o) cs o.

Definition bumpAll (key : ParsedCommit -> jsstring) (cs : list ParsedCommit)
  (o : obj counter) : obj counter :=
  fold_left (fun o c => bump (key c) o) cs o.

(** The number that a counter holds, 0 for a string. *)
Definition countOf (v : counter) : nat :=
  match v with
  | Num n => n
  | NativeText _ _ => 0
  end.

(** The sum of the counts that are numbers. *)
Definition numericSum (o : obj counter) : nat :=
  list_sum (map (fun e => countOf (snd e)) o).

(** A key that names no member of [Object.prototype]. *)
Definition ordinary (k : jsstring) : bool := negb (inherited k).

(** Filing the commits of [cs] under [key], as the three grouping
    functions do when no filing throws. *)
Definition pushAll (key : ParsedCommit -> jsstring) (cs : list ParsedCommit)
  (g : obj (list ParsedCommit)) : obj (list ParsedCommit) :=
  fold_left (fun g c => push (key c) c g) cs g.

(** The key under which [groupCommitsByType] files a commit. *)
Definition typeKey (c : ParsedCommit) : jsstring :=
  if breaking c then type_name Breaking else type_name (type c).

(** The key under which each grouping mode files a commit. *)
Definition groupKey (groupBy : GroupBy) : ParsedCommit -> jsstring :=
  match groupBy with
  | ByType => typeKey
  | ByScope => scopeKey
  | ByAuthor => author
  end.

(** The object each grouping function starts from. *)
Definition emptyGroups (groupBy : GroupBy) : obj (list ParsedCommit) :=
  match groupBy with
  | ByType => map (fun t => (type_name t, [])) all_types
  | _ => []
  end.

(** No commit of [cs] has a key that names a member of
    [Object.prototype]: the condition under which a grouping returns. *)
Definition fileable (groupBy : GroupBy) (cs : list ParsedCommit) : bool :=
  forallb (fun c => ordinary (groupKey groupBy c)) cs.

(** The error of a grouping that does not return. *)
Definition groupingError (groupBy : GroupBy) : jsstring :=
  match groupBy with
  | ByType => []
  | ByScope => lit "TypeError: grouped[scope].push is not a function"
  | ByAuthor =>
      lit "TypeError: grouped[commit.author].push is not a function"
  end.

(** ** Sections of the rendered document *)

(** A commit is [listed_in_groups] when it stands in a section emitted by
    the loop over the groups, and [listed_in_breaking] when it stands in
    the section of breaking changes. *)
Definition listed_in_groups (groupBy : GroupBy) (rn : ReleaseNotes)
  (c : ParsedCommit) : Prop :=
  exists e, In e (renderedGroups groupBy rn) /\ In c (snd e).

(** [c] stands in the emitted section of group [k]. *)
Definition listed_under (groupBy : GroupBy) (rn : ReleaseNotes)
  (k : jsstring) (c : ParsedCommit) : Prop :=
  exists l, In (k, l) (renderedGroups groupBy rn) /\ In c l.

Definition listed_in_breaking (rn : ReleaseNotes) (c : ParsedCommit) : Prop :=
  In c (rn_breakingChanges rn).

(** ** Sample data of the examples *)

Definition sample_shape : Shape :=
  mkShape (lit "FeAt") (Some (lit "core")) true (lit " ")
          (lit "drop v1 api") None.

Definition sample_fix : ParsedCommit :=
  mkCommit (lit "4f2a9c1") Fix None (lit "fix login") None false
           (lit "ann") (lit "2024-05-01T10:00:00Z") (Some (Finite 12))
           (lit "https://example.org/c/4f2a9c1").

Definition sample_other : ParsedCommit :=
  mkCommit (lit "9be01d7") Other None (lit "tidy") None false
           (lit "bob") (lit "2024-05-02T09:30:00Z") (Some (Finite 12))
           (lit "https://example.org/c/9be01d7").

Definition sample_pr : PullRequest :=
  mkPR 12 (lit "Fix the login redirect loop")
       (Some (lit "Redirects looped when the session expired."))
       [lit "Bug"].

Definition sample_fetch (n : jsnumber) : result (option PullRequest) :=
  if jsnumber_eqb n (Finite 12) then Ok (Some sample_pr) else Ok None.

Definition sample_now : jsstring := lit "2024-05-03T12:00:00.000Z".

Definition sample_breaking : ParsedCommit :=
  mkCommit (lit "c0ffee1") Fix (Some (lit "api")) (lit "drop v1 tokens")
           None true (lit "ann") (lit "2024-05-02T08:00:00Z") None
           (lit "https://example.org/c/c0ffee1").

Definition sample_feature : ParsedCommit :=
  mkCommit (lit "c0ffee2") Feature (Some (lit "api")) (lit "add search")
           None false (lit "bob") (lit "2024-05-01T08:00:00Z") None
           (lit "https://example.org/c/c0ffee2").

Definition sample_scoped_breaking : ParsedCommit :=
  mkCommit (lit "c0ffee3") Docs (Some (lit "breaking"))
           (lit "list breaking changes") None false (lit "breaking")
           (lit "2024-05-01T09:00:00Z") None
           (lit "https://example.org/c/c0ffee3").

(** A commit whose author and scope name a member of [Object.prototype],
    as the message [fix(constructor): keep the prototype] of an author
    called [constructor] is parsed. *)
Definition sample_by_constructor : ParsedCommit :=
  mkCommit (lit "c0ffee5") Fix (Some (lit "constructor"))
           (lit "keep the prototype") None false (lit "constructor")
           (lit "2024-05-02T11:00:00Z") None
           (lit "https://example.org/c/c0ffee5").

(** A breaking commit of an author called [breaking]. *)
Definition sample_flagged_by_breaking : ParsedCommit :=
  mkCommit (lit "c0ffee6") Docs None (lit "list breaking changes") None
           true (lit "breaking") (lit "2024-05-01T09:00:00Z") None
           (lit "https://example.org/c/c0ffee6").

Definition no_options : Options := mkOptions None None None None None.

Definition yaml_options : Options :=
  mkOptions None None (Some (lit "yaml")) None None.

(** A stand-in for the date formatter in examples: the date part of an
    ISO-8601 timestamp. *)
Definition sample_formatDate (d : jsstring) : jsstring := firstn 10 d.

(** A stand-in for the serializer in examples that do not serialize. *)
Definition sample_stringify (rn : ReleaseNotes) : jsstring := lit "{}".

(* ================================================================= *)
(** * Commits as fetched *)

(** ** github.ts: the record built for each fetched commit *)

Module Fetch.

(** The fields of a commit of the GitHub API that [fetchCommits] reads. *)
Record GitHubCommit : Type := mkGitHubCommit {
  g_sha : jsstring;                (* [sha] *)
  g_message : jsstring;            (* [commit.message] *)
  g_author_name : jsstring;        (* [commit.author.name] *)
  g_author_date : jsstring;        (* [commit.author.date] *)
  html_url : jsstring
}.

(** The pattern [/\(#(\d+)\)|\n\n#(\d+)/], which has no flag. *)
Definition pr_regex : regex :=
  Alt (Seq (Chr (N.eqb 40)) (Seq (Chr (N.eqb 35))
        (Seq (Grp 1 (Many1 isDigit)) (Chr (N.eqb 41)))))
      (Seq (Chr (N.eqb 10)) (Seq (Chr (N.eqb 10)) (Seq (Chr (N.eqb 35))
        (Grp 2 (Many1 isDigit))))).

(** [s.match(r)] for a pattern without anchor and without the [g] flag:
    the start indices are tried from left to right, and at each the
    first successful path is taken. *)
Fixpoint search (r : regex) (s : jsstring) : option mstate :=
  match hd_error (run r (MState s [])) with
  | Some m => Some m
  | None =>
      match s with
      | [] => None
      | _ :: s' => search r s'
      end
  end.

(** [parseInt] on a run of decimal digits: the double nearest to the
    number that the digits spell, as V8 computes it (from the 21st
    significant digit on the standard allows an approximation). *)
Definition parseInt (ds : jsstring) : jsnumber := toDouble (digitsValue ds).

(** [prMatch ? parseInt(prMatch[1] || prMatch[2]) : undefined] *)
Definition extractPrNumber (message : jsstring) : option jsnumber :=
  match search pr_regex message with
  | Some m =>
      if truthy (cap 1 m)
      then option_map parseInt (cap 1 m)
      else option_map parseInt (cap 2 m)
  | None => None
  end.

(** The record pushed by the loop of [fetchCommits] for a commit that
    passes the date and range filters. *)
Definition toParsedCommit (commit : GitHubCommit) : result ParsedCommit :=
  parsed <- parseConventionalCommit (g_message commit) ;;
  Ok (mkCommit (g_sha commit) (p_type parsed) (p_scope parsed)
               (p_message parsed) (p_description parsed)
               (p_breaking parsed) (g_author_name commit)
               (g_author_date commit)
               (extractPrNumber (g_message commit)) (html_url commit)).

(** The records pushed for the commits that pass the filters of
    [fetchCommits], in the order of the answer. *)
Fixpoint toParsedCommits (raw : list GitHubCommit)
  : result (list ParsedCommit) :=
  match raw with
  | [] => Ok []
  | g :: raw' =>
      c <- toParsedCommit g ;;
      cs <- toParsedCommits raw' ;;
      Ok (c :: cs)
  end.

End Fetch.
Import Fetch.

(* ================================================================= *)
(** * Vocabulary of the further properties *)

(** The priority list that the enrichment applies to the lower-cased
    names of the labels of a pull request. *)
Definition label_table : list (list jsstring * CommitType) :=
  [ ([lit "feature"], Feature);
    ([lit "bug"; lit "fix"], Fix);
    ([lit "doc"], Docs);
    ([lit "perf"], Perf);
    ([lit "refactor"], Refactor);
    ([lit "test"], Test);
    ([lit "build"], Build) ].

(** A rule matches when one of its needles occurs in the lower-cased
    name of one of the labels. *)
Definition label_rule_matches (ls : list jsstring)
  (rule : list jsstring * CommitType) : bool :=
  existsb (fun l => existsb (includes (toLowerCase l)) (fst rule)) ls.

Definition type_by_labels (ls : list jsstring) : CommitType :=
  match find (label_rule_matches ls) label_table with
  | Some rule => snd rule
  | None => Other
  end.

Definition has_breaking_label (ls : list jsstring) : bool :=
  existsb (fun l => includes (toLowerCase l) (lit "breaking")) ls.

(** The scope under which [calculateStats] counts a commit; commits
    without a scope, or with the empty scope, are not counted. *)
Definition countedScope (c : ParsedCommit) : jsstring :=
  match scope c with
  | Some s => s
  | None => []
  end.

Definition hasScope (c : ParsedCommit) : bool := truthy (scope c).

(** The commits of [cs] that a grouping mode files under [k], in input
    order. *)
Definition filedUnder (groupBy : GroupBy) (k : jsstring)
  (cs : list ParsedCommit) : list ParsedCommit :=
  filter (fun c => str_eqb (groupKey groupBy c) k) cs.

(** The number of commits held by the buckets of a grouping. *)
Definition totalSize (g : obj (list ParsedCommit)) : nat :=
  list_sum (map (fun e => length (snd e)) g).

(** The categories that have a section of their own, in the order of
    the union type. *)
Definition section_types : list CommitType :=
  [Feature; Fix; Docs; Perf; Refactor; Test; Build; Other].

(** The digits of the request number that stands at the head of [s]:
    in [(#digits)], or after a blank line in [#digits], where the digits
    are the whole run of digits. *)
Definition digitsAt (s : jsstring) : option jsstring :=
  if startsWith s (lit "(#") then
    let ds := takeWhile isDigit (skipn 2 s) in
    if negb (length ds =? 0)
       && startsWith (skipn (2 + length ds) s) (lit ")")
    then Some ds else None
  else if startsWith s [10; 10; 35]%N then
    let ds := takeWhile isDigit (skipn 3 s) in
    if negb (length ds =? 0) then Some ds else None
  else None.

(** The digits at the leftmost place of [s] where a request number
    stands. *)
Fixpoint firstDigits (s : jsstring) : option jsstring :=
  match digitsAt s with
  | Some ds => Some ds
  | None =>
      match s with
      | [] => None
      | _ :: s' => firstDigits s'
      end
  end.

(** The category [breaking] comes with the breaking flag. *)
Definition flagged_if_breaking (c : ParsedCommit) : Prop :=
  type c = Breaking -> breaking c = true.

(** The scope, when present, is a non-empty text without a closing
    parenthesis. *)
Definition scope_well_formed (c : ParsedCommit) : Prop :=
  forall s, scope c = Some s -> s <> [] /\ forallb not_rparen s = true.

(** The rows of the statistics by author, in the order in which
    [generateMarkdown] prints them. *)
Definition authorRows (st : CommitStats) : list (jsstring * counter) :=
  sortDesc (entries (commitsByAuthor st)).

Definition authorLine (e : jsstring * counter) : jsstring :=
  lit "- " ++ EMOJI_AUTHOR ++ lit " " ++ fst e ++ lit ": "
  ++ counterText (snd e).

(** The rows with a given count. *)
Definition rowsWithCount (n : nat) (l : list (jsstring * counter))
  : list (jsstring * counter) :=
  filter (fun e => counter_eqb (snd e) (Num n)) l.

(** [a] is obtained from [b] by deleting code units. *)
Inductive subseq : jsstring -> jsstring -> Prop :=
| subseq_nil : subseq [] []
| subseq_keep (c : N) (a b : jsstring) : subseq a b -> subseq (c :: a) (c :: b)
| subseq_drop (c : N) (a b : jsstring) : subseq a b -> subseq a (c :: b).

(** The lines of a text: the pieces between its line feeds. *)
Definition allLines (s : jsstring) : list jsstring :=
  fst (split_lines s) :: snd (split_lines s).

(** The rows of the statistics by category, in the order in which
    [generateMarkdown] prints them. *)
Definition typeRows (st : CommitStats) : list (jsstring * nat) :=
  filter (fun e => 0 <? snd e) (entries (commitsByType st)).

Definition typeLine (e : jsstring * nat) : jsstring :=
  lit "- " ++ emojiOfName (fst e) ++ lit " " ++ fst e ++ lit ": "
  ++ ofNat (snd e).

(** A server that fails for pull request 12 and knows no other. *)
Definition failing_fetch (n : jsnumber) : result (option PullRequest) :=
  if jsnumber_eqb n (Finite 12)
  then Throw (lit "Request failed with status code 500")
  else Ok None.

(* ================================================================= *)
(** * Properties *)

(** ** Strings *)

Lemma str_eqb_eq (a b : jsstring) : str_eqb a b = true <-> a = b.
Proof.
  unfold str_eqb. destruct (list_eq_dec N.eq_dec a b); split; congruence.
Qed.

Lemma str_eqb_refl (a : jsstring) : str_eqb a a = true.
Proof. apply str_eqb_eq. reflexivity. Qed.

Lemma str_eqb_neq (a b : jsstring) : str_eqb a b = false <-> a <> b.
Proof.
  unfold str_eqb. destruct (list_eq_dec N.eq_dec a b); split; congruence.
Qed.

Lemma trimStart_no_ws (s : jsstring) (c : N) (r : jsstring) :
  trimStart s = c :: r -> isWhiteSpace c = false.
Proof.
  induction s as [|x s IH]; simpl; [discriminate|].
  destruct (isWhiteSpace x) eqn:E; [exact IH|].
  intros H. injection H as -> _. exact E.
Qed.

Lemma trimStart_nil_iff (s : jsstring) :
  trimStart s = [] <-> forallb isWhiteSpace s = true.
Proof.
  induction s as [|x s IH]; simpl; [tauto|].
  destruct (isWhiteSpace x); simpl; [exact IH|].
  split; discriminate.
Qed.

Lemma trimStart_suffix (s : jsstring) :
  exists w, s = w ++ trimStart s /\ forallb isWhiteSpace w = true.
Proof.
  induction s as [|x s [w [E F]]]; simpl.
  - exists []. auto.
  - destruct (isWhiteSpace x) eqn:Ex.
    + exists (x :: w). simpl. rewrite Ex, F. split; [congruence|reflexivity].
    + exists []. auto.
Qed.

(** [trim] yields the empty string exactly on all-whitespace input. *)
Lemma trim_nil_iff (s : jsstring) :
  trim s = [] <-> forallb isWhiteSpace s = true.
Proof.
  unfold trim, trimEnd.
  rewrite <- trimStart_nil_iff.
  split.
  - intros H.
    apply (f_equal (@rev N)) in H. rewrite rev_involutive in H. simpl in H.
    destruct (trimStart s) as [|c r] eqn:E; [reflexivity|].
    exfalso.
    assert (Hc : isWhiteSpace c = false) by (eapply trimStart_no_ws; eauto).
    apply trimStart_nil_iff in H.
    rewrite forallb_forall in H.
    specialize (H c). rewrite <- in_rev in H.
    rewrite H in Hc; [discriminate | left; reflexivity].
  - intros ->. reflexivity.
Qed.

(** The result of [trim] neither starts nor ends with whitespace. *)
Lemma trim_head (s : jsstring) (c : N) (r : jsstring) :
  trim s = c :: r -> isWhiteSpace c = false.
Proof.
  unfold trim, trimEnd. intros H.
  destruct (trimStart_suffix (rev (trimStart s))) as [w [E F]].
  apply (f_equal (@rev N)) in E.
  rewrite rev_involutive, rev_app_distr, H in E.
  destruct (trimStart s) as [|x t] eqn:Et.
  - discriminate.
  - simpl in E. injection E as <- _.
    eapply trimStart_no_ws; eauto.
Qed.

Lemma trim_last (s : jsstring) (c : N) (r : jsstring) :
  trim s = r ++ [c] -> isWhiteSpace c = false.
Proof.
  unfold trim, trimEnd. intros H.
  apply (f_equal (@rev N)) in H.
  rewrite rev_involutive, rev_app_distr in H. simpl in H.
  eapply trimStart_no_ws; eauto.
Qed.

(** ** The matcher *)

Section MatcherFacts.

Lemma strip_ci_inv (l s r : jsstring) :
  strip_ci l s = Some r ->
  exists w, s = w ++ r /\ length w = length l /\ map canon w = map canon l.
Proof.
  revert s. induction l as [|a l IH]; intros s H; simpl in H.
  - injection H as ->. exists []. auto.
  - destruct s as [|b s]; [discriminate|].
    destruct (N.eqb (canon a) (canon b)) eqn:E; [|discriminate].
    apply N.eqb_eq in E.
    destruct (IH _ H) as [w [-> [Hl Hm]]].
    exists (b :: w). simpl. rewrite Hl, Hm, E. auto.
Qed.

Lemma many_inv (p : N -> bool) (s r : jsstring) :
  In r (many p s) -> exists w, s = w ++ r /\ forallb p w = true.
Proof.
  revert r. induction s as [|c s IH]; intros r H; simpl in H.
  - destruct H as [<-|[]]. exists []. auto.
  - destruct (p c) eqn:E.
    + apply in_app_or in H. destruct H as [H|[<-|[]]].
      * destruct (IH _ H) as [w [-> F]].
        exists (c :: w). simpl. rewrite E, F. auto.
      * exists []. auto.
    + destruct H as [<-|[]]. exists []. auto.
Qed.

Lemma consumed_app (w r : jsstring) : consumed (w ++ r) r = w.
Proof.
  unfold consumed. rewrite length_app.
  replace (length w + length r - length r) with (length w) by lia.
  rewrite firstn_app, firstn_all, Nat.sub_diag. simpl. apply app_nil_r.
Qed.

Lemma in_run_Seq (a b : regex) (s m : mstate) :
  In m (run (Seq a b) s) <-> exists s1, In s1 (run a s) /\ In m (run b s1).
Proof. simpl. apply in_flat_map. Qed.

Lemma in_run_Opt (a : regex) (s m : mstate) :
  In m (run (Opt a) s) <-> In m (run a s) \/ m = s.
Proof.
  simpl. rewrite in_app_iff. simpl. intuition congruence.
Qed.

Lemma in_run_Alt (a b : regex) (s m : mstate) :
  In m (run (Alt a b) s) <-> In m (run a s) \/ In m (run b s).
Proof. simpl. apply in_app_iff. Qed.

Lemma in_run_Str (l : jsstring) (s m : mstate) :
  In m (run (Str l) s) ->
  exists w, rest s = w ++ rest m /\ caps m = caps s
            /\ length w = length l /\ map canon w = map canon l.
Proof.
  simpl. destruct (strip_ci l (rest s)) as [r|] eqn:E; [|intros []].
  intros [<-|[]]. simpl.
  destruct (strip_ci_inv _ _ _ E) as [w [? [? ?]]]. exists w. auto.
Qed.

Lemma in_run_Many (p : N -> bool) (s m : mstate) :
  In m (run (Many p) s) ->
  exists w, rest s = w ++ rest m /\ caps m = caps s /\ forallb p w = true.
Proof.
  simpl. rewrite in_map_iff. intros [r [<- H]]. simpl.
  destruct (many_inv _ _ _ H) as [w [? ?]]. exists w. auto.
Qed.

Lemma in_run_Many1 (p : N -> bool) (s m : mstate) :
  In m (run (Many1 p) s) ->
  exists w, rest s = w ++ rest m /\ caps m = caps s
            /\ forallb p w = true /\ w <> [].
Proof.
  simpl. destruct (rest s) as [|c r0] eqn:Er; [intros []|].
  destruct (p c) eqn:Ec; [|intros []].
  rewrite in_map_iff. intros [r [<- H]]. simpl.
  destruct (many_inv _ _ _ H) as [w [-> F]].
  exists (c :: w). simpl. rewrite Ec, F. repeat split; auto. discriminate.
Qed.

Lemma in_run_Grp (n : nat) (a : regex) (s m : mstate) :
  In m (run (Grp n a) s) ->
  exists s1, In s1 (run a s) /\ rest m = rest s1
             /\ caps m = (n, consumed (rest s) (rest s1)) :: caps s1.
Proof.
  simpl. rewrite in_map_iff. intros [s1 [<- H]]. exists s1. auto.
Qed.

Lemma in_run_Eos (s m : mstate) :
  In m (run Eos s) -> m = s /\ rest s = [].
Proof.
  simpl. destruct (rest s) eqn:E; [|intros []].
  intros [<-|[]]. auto.
Qed.

End MatcherFacts.

(** ** Shape of a structured commit message *)

Lemma token_alt_inv (s m : mstate) :
  In m (run token_alt s) ->
  exists w, rest s = w ++ rest m /\ caps m = caps s /\ spells_token w.
Proof.
  unfold token_alt. intros H.
  repeat (apply in_run_Alt in H; destruct H as [H|H]);
    apply in_run_Str in H; destruct H as [w [Hr [Hc [Hl Hm]]]];
    exists w; repeat split; auto;
    eexists; (split; [|split; eassumption]); simpl; tauto.
Qed.

Lemma canon_newline (a : N) : canon a = canon 10 -> a = 10%N.
Proof.
  unfold canon, upperUnit. simpl.
  destruct ((97 <=? a)%N && (a <=? 122)%N) eqn:E; [|auto].
  apply andb_true_iff in E. rewrite !N.leb_le in E. lia.
Qed.

(** What a match of the tail says about the input left after the colon. *)
Lemma tail_regex_inv (s m : mstate) :
  In m (run tail_regex s) ->
  exists ws t d,
    rest s = ws ++ t ++ desc_text d
    /\ forallb isWhiteSpace ws = true
    /\ forallb dot t = true /\ t <> []
    /\ caps m = match d with
                | Some x => (5, x) :: (4, t) :: caps s
                | None => (4, t) :: caps s
                end.
Proof.
  unfold tail_regex. intros H.
  apply in_run_Seq in H. destruct H as [s1 [H1 H]].
  apply in_run_Many in H1. destruct H1 as [ws [Hr1 [Hc1 Hws]]].
  apply in_run_Seq in H. destruct H as [s2 [H2 H]].
  apply in_run_Grp in H2. destruct H2 as [s2' [H2 [Hr2 Hc2]]].
  apply in_run_Many1 in H2. destruct H2 as [t [Hr2' [Hc2' [Ht Hne]]]].
  rewrite Hr2', consumed_app, Hc2', Hc1 in Hc2. rewrite <- Hr2 in Hr2'.
  apply in_run_Seq in H. destruct H as [s3 [H3 H]].
  apply in_run_Eos in H. destruct H as [-> He].
  apply in_run_Opt in H3. destruct H3 as [H3| ->].
  - apply in_run_Seq in H3. destruct H3 as [s4 [H4 H5]].
    apply in_run_Str in H4. destruct H4 as [w [Hr4 [Hc4 [Hl4 Hm4]]]].
    apply in_run_Grp in H5. destruct H5 as [s5 [H5 [Hr5 Hc5]]].
    apply in_run_Many in H5. destruct H5 as [d [Hr5' [Hc5' _]]].
    rewrite He in Hr5. rewrite <- Hr5, app_nil_r in Hr5'.
    rewrite Hr5' in Hc5.
    replace (consumed d (rest s5)) with d in Hc5
      by (rewrite <- Hr5; unfold consumed; simpl;
          rewrite Nat.sub_0_r, firstn_all; reflexivity).
    assert (w = [10; 10]%N) as ->.
    { destruct w as [|a [|b [|? ?]]]; try discriminate.
      simpl in Hm4. injection Hm4 as Ha Hb.
      apply canon_newline in Ha, Hb. subst. reflexivity. }
    exists ws, t, (Some d). simpl desc_text.
    rewrite Hr1, Hr2', Hr4, Hr5'.
    repeat split; auto.
    rewrite Hc5, Hc5', Hc4, Hc2. reflexivity.
  - exists ws, t, None. simpl.
    rewrite Hr1, Hr2', He.
    repeat split; auto.
Qed.

Lemma canon_punct (a c : N) :
  (c < 65)%N -> canon a = canon c -> a = c.
Proof.
  unfold canon, upperUnit. intros Hc.
  replace ((97 <=? c)%N && (c <=? 122)%N) with false
    by (symmetry; apply andb_false_iff; left; apply N.leb_gt; lia).
  destruct ((97 <=? a)%N && (a <=? 122)%N) eqn:E; [|auto].
  apply andb_true_iff in E. rewrite !N.leb_le in E. lia.
Qed.

Lemma str_punct_inv (c : N) (s m : mstate) :
  (c < 65)%N ->
  In m (run (Str [c]) s) -> rest s = c :: rest m /\ caps m = caps s.
Proof.
  intros Hc H. apply in_run_Str in H.
  destruct H as [w [Hr [Hcap [Hl Hm]]]].
  destruct w as [|a [|? ?]]; try discriminate.
  simpl in Hm. injection Hm as Ha. apply canon_punct in Ha; auto.
  subst a. auto.
Qed.

(** Every successful path through [commit_regex] reads the message as a
    well-shaped structured message and sets the captures accordingly. *)
Lemma commit_regex_inv (msg : jsstring) (m : mstate) :
  In m (run commit_regex (MState msg [])) ->
  exists sh, well_shaped sh /\ msg = shape_text sh /\ captures sh m.
Proof.
  unfold commit_regex. intros H.
  apply in_run_Seq in H. destruct H as [s1 [H1 H]].
  apply in_run_Grp in H1. destruct H1 as [s1' [H1 [Hr1 Hc1]]].
  apply token_alt_inv in H1. destruct H1 as [tok [Hr1' [Hc1' Htok]]].
  simpl in Hr1', Hc1'. simpl rest in Hc1.
  rewrite Hr1', consumed_app, Hc1' in Hc1. rewrite <- Hr1 in Hr1'.
  apply in_run_Seq in H. destruct H as [s2 [H2 H]].
  apply in_run_Seq in H. destruct H as [s3 [H3 H]].
  apply in_run_Seq in H. destruct H as [s4 [H4 H]].
  apply (@str_punct_inv 58%N) in H4; [|reflexivity]. destruct H4 as [Hr4 Hc4].
  apply tail_regex_inv in H.
  destruct H as [ws [t [d [Hr5 [Hws [Ht [Hne Hc5]]]]]]].
  (* the optional scope *)
  assert (Hscope : exists sc, valid_scope sc
            /\ rest s1 = scope_text sc ++ rest s2
            /\ caps s2 = match sc with
                         | Some x => (2, x) :: caps s1
                         | None => caps s1
                         end).
  { apply in_run_Opt in H2. destruct H2 as [H2| ->].
    - apply in_run_Seq in H2. destruct H2 as [a [Ha H2]].
      apply (@str_punct_inv 40%N) in Ha; [|reflexivity]. destruct Ha as [Hra Hca].
      apply in_run_Seq in H2. destruct H2 as [b [Hb H2]].
      apply (@str_punct_inv 41%N) in H2; [|reflexivity]. destruct H2 as [Hrb Hcb].
      apply in_run_Grp in Hb. destruct Hb as [b' [Hb [Hrb' Hcb']]].
      apply in_run_Many1 in Hb. destruct Hb as [x [Hx [Hcx [Hfx Hnx]]]].
      rewrite Hx, consumed_app, Hcx, Hca in Hcb'. rewrite <- Hrb' in Hx.
      exists (Some x). simpl. repeat split; auto.
      + rewrite Hra, Hx, Hrb. rewrite <- app_assoc. reflexivity.
      + congruence.
    - exists None. simpl. auto. }
  destruct Hscope as [sc [Hsc [Hr2 Hc2]]].
  (* the optional exclamation mark *)
  assert (Hbang : exists b, rest s2 = bang_text b ++ rest s3
            /\ caps s3 = if b then (3, lit "!") :: caps s2 else caps s2).
  { apply in_run_Opt in H3. destruct H3 as [H3| ->].
    - apply in_run_Grp in H3. destruct H3 as [a [Ha [Hra Hca]]].
      apply (@str_punct_inv 33%N) in Ha; [|reflexivity]. destruct Ha as [Hra' Hca'].
      exists true. rewrite <- Hra in Hra'. split; [exact Hra'|].
      rewrite Hca, Hca'. rewrite Hra'.
      replace (consumed (33%N :: rest s3) (rest a)) with (lit "!"); auto.
      rewrite Hra. symmetry. apply (consumed_app [33%N]).
    - exists false. auto. }
  destruct Hbang as [b [Hr3 Hc3]].
  exists (mkShape tok sc b ws t d).
  split; [|split].
  - unfold well_shaped. simpl. auto.
  - unfold shape_text, header. simpl.
    rewrite Hr1', Hr2, Hr3, Hr4, Hr5. rewrite <- !app_assoc. reflexivity.
  - unfold captures, cap. simpl.
    destruct d, b, sc; rewrite Hc5, Hc4, Hc3, Hc2, Hc1; simpl; auto.
Qed.

Lemma exec_inv (msg : jsstring) (m : mstate) :
  exec commit_regex msg = Some m ->
  exists sh, well_shaped sh /\ msg = shape_text sh /\ captures sh m.
Proof.
  unfold exec. intros H. apply commit_regex_inv.
  destruct (run commit_regex (MState msg [])); [discriminate|].
  injection H as ->. left. reflexivity.
Qed.

(** ** The commit message parser *)

Lemma lowerUnit_of_canon (c t : N) :
  isLowerLetter t = true -> canon c = canon t -> lowerUnit c = [t].
Proof.
  unfold isLowerLetter, canon, upperUnit, lowerUnit. intros Ht.
  rewrite Ht. apply andb_true_iff in Ht. rewrite !N.leb_le in Ht.
  destruct ((97 <=? c)%N && (c <=? 122)%N) eqn:Ec.
  - apply andb_true_iff in Ec. rewrite !N.leb_le in Ec. intros E.
    assert (c = t) by lia. subst c.
    replace ((65 <=? t)%N && (t <=? 90)%N) with false
      by (symmetry; apply andb_false_iff; right; apply N.leb_gt; lia).
    replace (t =? 304)%N with false by (symmetry; apply N.eqb_neq; lia).
    replace (t =? 8490)%N with false by (symmetry; apply N.eqb_neq; lia).
    reflexivity.
  - intros ->.
    replace ((65 <=? t - 32)%N && (t - 32 <=? 90)%N) with true
      by (symmetry; apply andb_true_iff; rewrite !N.leb_le; lia).
    f_equal. lia.
Qed.

Lemma toLowerCase_of_canon (w tok : jsstring) :
  forallb isLowerLetter tok = true ->
  length w = length tok -> map canon w = map canon tok ->
  toLowerCase w = tok.
Proof.
  revert w. induction tok as [|t tok IH]; intros [|c w] Hl Hlen Hm;
    try discriminate; [reflexivity|].
  simpl in *. apply andb_true_iff in Hl. destruct Hl as [Ht Hl].
  injection Hm as Hc Hm. injection Hlen as Hlen.
  rewrite (lowerUnit_of_canon _ _ Ht Hc). simpl. f_equal. auto.
Qed.

Lemma tokens_lower (tok : jsstring) :
  In tok tokens -> forallb isLowerLetter tok = true.
Proof.
  unfold tokens. simpl.
  intros H; repeat (destruct H as [<-|H]; [reflexivity|]); destruct H.
Qed.

(** A spelling of a token lower-cases to that token. *)
Lemma spells_token_lower (w : jsstring) :
  spells_token w -> In (toLowerCase w) tokens.
Proof.
  intros [tok [Hin [Hlen Hm]]].
  rewrite (toLowerCase_of_canon w tok (tokens_lower _ Hin) Hlen Hm). exact Hin.
Qed.

Lemma mapCommitType_token (tok : jsstring) :
  In tok tokens ->
  assoc tok typeMap <> None
  /\ type_name (match assoc tok typeMap with Some t => t | None => Other end)
     = token_category tok.
Proof.
  unfold tokens. simpl.
  intros H; repeat (destruct H as [<-|H]; [split; [discriminate|reflexivity]|]);
    destruct H.
Qed.

Lemma parse_matched (msg : jsstring) (m : mstate) (sh : Shape) :
  exec commit_regex msg = Some m -> captures sh m ->
  parseConventionalCommit msg = Ok (parsed_of_shape msg sh).
Proof.
  intros He [H1 [H2 [H3 [H4 H5]]]].
  unfold parseConventionalCommit, parsed_of_shape.
  rewrite He, H1, H2, H3, H4, H5. simpl.
  destruct (s_bang sh); reflexivity.
Qed.

Lemma parse_unmatched (msg : jsstring) :
  exec commit_regex msg = None ->
  parseConventionalCommit msg = Ok (parsed_unstructured msg).
Proof.
  intros He. unfold parseConventionalCommit, parsed_unstructured.
  rewrite He. destruct (split_lines msg). reflexivity.
Qed.

(** The parser returns a record on every message. *)
Lemma parse_total (msg : jsstring) :
  exists p, parseConventionalCommit msg = Ok p.
Proof.
  destruct (exec commit_regex msg) as [m|] eqn:E.
  - destruct (exec_inv _ _ E) as [sh [_ [_ Hc]]].
    eexists. eapply parse_matched; eauto.
  - eexists. apply parse_unmatched. exact E.
Qed.

Lemma inferType_by_priority (msg : jsstring) :
  inferType (includes msg BREAKING_MARKER) (toLowerCase msg)
  = infer_by_priority msg.
Proof.
  unfold inferType, infer_by_priority, inference_table, rule_matches.
  destruct (includes msg BREAKING_MARKER); [reflexivity|].
  simpl.
  repeat match goal with
         | |- context [includes (toLowerCase msg) ?n] =>
             destruct (includes (toLowerCase msg) n); simpl; try reflexivity
         end.
Qed.

Lemma find_first {A} (f : A -> bool) (pre : list A) (x : A) (post : list A) :
  forallb (fun y => negb (f y)) pre = true -> f x = true ->
  find f (pre ++ x :: post) = Some x.
Proof.
  induction pre as [|y pre IH]; simpl; intros Hp Hx.
  - rewrite Hx. reflexivity.
  - apply andb_true_iff in Hp. destruct Hp as [Hy Hp].
    destruct (f y); [discriminate|]. auto.
Qed.

(** C5.  When the structured pattern does not match, the category is the
    one selected by the priority list of the specification, searched
    over the lower-cased whole message, the breaking marker first; a
    rule that matches wins over every rule after it, wherever the
    needles stand in the message. *)
Theorem unstructured_priority_order (msg : jsstring) :
  exec commit_regex msg = None ->
  exists p,
    parseConventionalCommit msg = Ok p
    /\ p_type p = infer_by_priority msg
    /\ (includes msg BREAKING_MARKER = true -> p_type p = Breaking)
    /\ (forall pre rule post,
          inference_table = pre ++ rule :: post ->
          includes msg BREAKING_MARKER = false ->
          forallb (fun r => negb (rule_matches msg r)) pre = true ->
          rule_matches msg rule = true ->
          p_type p = snd rule)
    /\ (includes msg BREAKING_MARKER = false ->
        forallb (fun r => negb (rule_matches msg r)) inference_table = true ->
        p_type p = Other).
Proof.
  intros E. exists (parsed_unstructured msg).
  split; [apply parse_unmatched; exact E|].
  unfold parsed_unstructured; cbn [p_type].
  rewrite inferType_by_priority. unfold infer_by_priority.
  split; [reflexivity|]. split; [intros ->; reflexivity|]. split.
  - intros pre rule post Ht -> Hpre Hr.
    rewrite Ht, (find_first _ _ _ _ Hpre Hr). reflexivity.
  - intros -> Hnone.
    destruct (find (rule_matches msg) inference_table) as [r|] eqn:F;
      [|reflexivity].
    apply find_some in F. destruct F as [Hin Hr].
    rewrite forallb_forall in Hnone. apply Hnone in Hin.
    rewrite Hr in Hin. discriminate.
Qed.

(** C8, as amended.  The parser returns a record on every message, with
    a category among the nine values; its title is the trimmed title
    source (group 4, or the first line), carries no white space at either
    end, and is non-empty exactly when the source has a code unit that is
    not white space. *)
Theorem parser_total_title (msg : jsstring) :
  exists p,
    parseConventionalCommit msg = Ok p
    /\ In (p_type p) all_types
    /\ p_message p = trim (title_source msg)
    /\ (forall c r, p_message p = c :: r -> isWhiteSpace c = false)
    /\ (forall c r, p_message p = r ++ [c] -> isWhiteSpace c = false)
    /\ (p_message p <> [] <->
        existsb (fun c => negb (isWhiteSpace c)) (title_source msg) = true).
Proof.
  assert (Hall : forall t, In t all_types)
    by (intros []; simpl; tauto).
  assert (Hne : forall s, trim s <> [] <->
                existsb (fun c => negb (isWhiteSpace c)) s = true).
  { intros s. rewrite trim_nil_iff.
    induction s as [|c s IH]; simpl; [intuition congruence|].
    destruct (isWhiteSpace c); simpl; [exact IH|]. intuition congruence. }
  unfold title_source.
  destruct (exec commit_regex msg) as [m|] eqn:E.
  - destruct (exec_inv _ _ E) as [sh [Hw [Hs Hc]]].
    exists (parsed_of_shape msg sh).
    split; [eapply parse_matched; eauto|].
    destruct Hc as [_ [_ [_ [H4 _]]]]. rewrite H4.
    unfold parsed_of_shape; cbn [p_type p_message].
    split; [apply Hall|]. split; [reflexivity|].
    split; [apply trim_head|]. split; [apply trim_last|]. apply Hne.
  - exists (parsed_unstructured msg).
    split; [apply parse_unmatched; exact E|].
    unfold parsed_unstructured; cbn [p_type p_message].
    split; [apply Hall|]. split; [reflexivity|].
    split; [apply trim_head|]. split; [apply trim_last|]. apply Hne.
Qed.

(** The scenarios of the specification. *)
Example scenario_A :
  parseConventionalCommit (lit "feat(api): add search endpoint")
  = Ok (mkParsed Feature (Some (lit "api")) false
                 (lit "add search endpoint") None).
Proof. vm_compute. reflexivity. Qed.

Example scenario_B :
  parseConventionalCommit
    (lit "fix!: patch auth bypass" ++ [10; 10]%N
     ++ lit "BREAKING CHANGE: tokens invalidated")
  = Ok (mkParsed Fix None true (lit "patch auth bypass")
                 (Some (lit "BREAKING CHANGE: tokens invalidated"))).
Proof. vm_compute. reflexivity. Qed.

Example scenario_C :
  parseConventionalCommit (lit "updated the docs for clarity")
  = Ok (mkParsed Docs None false (lit "updated the docs for clarity") None).
Proof. vm_compute. reflexivity. Qed.

Lemma unstructured_priority_order_witness :
  exec commit_regex (lit "new feature, also a bugfix in the docs") = None
  /\ exists p,
       parseConventionalCommit (lit "new feature, also a bugfix in the docs")
       = Ok p
       /\ p_type p = Fix.
Proof.
  assert (E : exec commit_regex (lit "new feature, also a bugfix in the docs")
              = None) by (vm_compute; reflexivity).
  split; [exact E|].
  destruct (unstructured_priority_order _ E) as [p [Hp [Ht _]]].
  exists p. split; [exact Hp|]. rewrite Ht. vm_compute. reflexivity.
Defined.

(** C8 as stated fails: the empty message, a message that starts with a
    line break and a structured message with a blank title all give an
    empty title. *)
Lemma parser_empty_title :
  parseConventionalCommit [] = Ok (mkParsed Other None false [] None)
  /\ parseConventionalCommit (nl ++ lit "notes")
     = Ok (mkParsed Other None false [] (Some (lit "notes")))
  /\ parseConventionalCommit (lit "feat: ")
     = Ok (mkParsed Feature None false [] None)
  /\ ~ (forall msg, exists p,
          parseConventionalCommit msg = Ok p
          /\ In (p_type p) all_types /\ p_message p <> []).
Proof.
  split; [vm_compute; reflexivity|]. split; [vm_compute; reflexivity|].
  split; [vm_compute; reflexivity|].
  intros H. destruct (H []) as [p [Hp [_ Hne]]].
  vm_compute in Hp. injection Hp as <-. apply Hne. reflexivity.
Qed.

(** ** Reading a message as a structured message *)

Lemma strip_ci_complete (l w r : jsstring) :
  length w = length l -> map canon w = map canon l ->
  strip_ci l (w ++ r) = Some r.
Proof.
  revert w. induction l as [|a l IH]; intros [|b w] Hl Hm;
    try discriminate; [reflexivity|].
  simpl in *. injection Hl as Hl. injection Hm as Hb Hm.
  rewrite Hb, N.eqb_refl. auto.
Qed.

Lemma many_self (p : N -> bool) (s : jsstring) : In s (many p s).
Proof.
  destruct s as [|c s]; simpl; [auto|].
  destruct (p c); [apply in_or_app; right|]; left; reflexivity.
Qed.

Lemma many_complete (p : N -> bool) (w r : jsstring) :
  forallb p w = true -> In r (many p (w ++ r)).
Proof.
  induction w as [|c w IH]; simpl; intros H.
  - apply many_self.
  - apply andb_true_iff in H. destruct H as [-> H].
    apply in_or_app. left. auto.
Qed.

Lemma run_Str_intro (l w r : jsstring) (cs : list (nat * jsstring)) :
  length w = length l -> map canon w = map canon l ->
  In (MState r cs) (run (Str l) (MState (w ++ r) cs)).
Proof.
  intros Hl Hm. simpl. rewrite (strip_ci_complete l w r Hl Hm).
  left. reflexivity.
Qed.

Lemma run_Many_intro (p : N -> bool) (w r : jsstring)
  (cs : list (nat * jsstring)) :
  forallb p w = true ->
  In (MState r cs) (run (Many p) (MState (w ++ r) cs)).
Proof.
  intros H. simpl. apply in_map_iff. exists r.
  split; [reflexivity|apply many_complete; exact H].
Qed.

Lemma run_Many1_intro (p : N -> bool) (w r : jsstring)
  (cs : list (nat * jsstring)) :
  forallb p w = true -> w <> [] ->
  In (MState r cs) (run (Many1 p) (MState (w ++ r) cs)).
Proof.
  intros H Hne. destruct w as [|c w]; [congruence|].
  simpl in *. apply andb_true_iff in H. destruct H as [-> H].
  apply in_map_iff. exists r.
  split; [reflexivity|apply many_complete; exact H].
Qed.

Lemma run_Grp_intro (n : nat) (a : regex) (w r : jsstring)
  (cs cs' : list (nat * jsstring)) :
  In (MState r cs') (run a (MState (w ++ r) cs)) ->
  In (MState r ((n, w) :: cs')) (run (Grp n a) (MState (w ++ r) cs)).
Proof.
  intros H. simpl. apply in_map_iff. exists (MState r cs').
  split; [|exact H]. simpl. rewrite consumed_app. reflexivity.
Qed.

Lemma run_token_alt_intro (w r : jsstring) (cs : list (nat * jsstring)) :
  spells_token w -> In (MState r cs) (run token_alt (MState (w ++ r) cs)).
Proof.
  intros [tok [Hin [Hl Hm]]].
  pose proof (run_Str_intro tok w r cs Hl Hm) as H.
  unfold token_alt. unfold tokens in Hin. simpl in Hin.
  repeat (destruct Hin as [<-|Hin];
          [repeat first [ exact H
                        | apply in_run_Alt; left; exact H
                        | apply in_run_Alt; right ]|]).
  destruct Hin.
Qed.

(** Every well-shaped message is matched by the pattern. *)
Lemma commit_regex_complete (sh : Shape) :
  well_shaped sh -> exec commit_regex (shape_text sh) <> None.
Proof.
  intros [Htok [Hsc [Hws [Hdot Hne]]]].
  destruct sh as [tok sc b ws t d]. simpl in *.
  set (c1 := [(1, tok)]).
  set (c2 := match sc with Some x => (2, x) :: c1 | None => c1 end).
  set (c3 := if b then (3, lit "!") :: c2 else c2).
  set (c5 := match d with
             | Some x => (5, x) :: (4, t) :: c3
             | None => (4, t) :: c3
             end).
  assert (H : In (MState [] c5)
                 (run commit_regex
                      (MState (shape_text (mkShape tok sc b ws t d)) []))).
  { unfold commit_regex, shape_text, header. simpl s_token. simpl s_scope.
    simpl s_bang. simpl s_space. simpl s_title. simpl s_desc.
    rewrite <- app_assoc.
    apply in_run_Seq. eexists. split.
    { apply run_Grp_intro. apply run_token_alt_intro. exact Htok. }
    apply in_run_Seq. exists (MState (bang_text b ++ lit ":" ++ ws ++ t
                                      ++ desc_text d) c2). split.
    { apply in_run_Opt. destruct sc as [x|]; [left|right; reflexivity].
      destruct Hsc as [Hx Hp]. unfold scope_text. rewrite <- !app_assoc.
      apply in_run_Seq. eexists. split.
      { apply (run_Str_intro (lit "(") (lit "(")); reflexivity. }
      apply in_run_Seq. eexists. split.
      { apply run_Grp_intro. apply run_Many1_intro; eassumption. }
      apply (run_Str_intro (lit ")") (lit ")")); reflexivity. }
    apply in_run_Seq. exists (MState (lit ":" ++ ws ++ t ++ desc_text d) c3).
    split.
    { apply in_run_Opt. destruct b; [left|right; reflexivity].
      apply (run_Grp_intro 3 (Str (lit "!")) (lit "!")).
      apply (run_Str_intro (lit "!") (lit "!")); reflexivity. }
    apply in_run_Seq. eexists. split.
    { apply (run_Str_intro (lit ":") (lit ":")); reflexivity. }
    unfold tail_regex.
    apply in_run_Seq. eexists. split.
    { apply run_Many_intro. exact Hws. }
    apply in_run_Seq. eexists. split.
    { apply run_Grp_intro. apply run_Many1_intro; eassumption. }
    apply in_run_Seq. exists (MState [] c5). split; [|left; reflexivity].
    apply in_run_Opt. destruct d as [x|]; [left|right; reflexivity].
    apply in_run_Seq. eexists. split.
    { apply (run_Str_intro [10; 10]%N [10; 10]%N); reflexivity. }
    rewrite <- (app_nil_r x) at 1.
    apply run_Grp_intro. apply run_Many_intro.
    apply forallb_forall. reflexivity. }
  unfold exec.
  destruct (run commit_regex
              (MState (shape_text (mkShape tok sc b ws t d)) []));
    [destruct H|discriminate].
Qed.

Lemma takeWhile_app (p : N -> bool) (w r : jsstring) :
  forallb p w = true ->
  match r with x :: _ => p x = false | [] => True end ->
  takeWhile p (w ++ r) = w.
Proof.
  intros Hw Hr. induction w as [|c w IH]; simpl in *.
  - destruct r as [|x r]; simpl; [reflexivity|]. rewrite Hr. reflexivity.
  - apply andb_true_iff in Hw. destruct Hw as [-> Hw]. f_equal. auto.
Qed.

Lemma canon_letter (c t : N) :
  isLowerLetter t = true -> canon c = canon t -> isLetter c = true.
Proof.
  unfold isLetter, isLowerLetter, canon, upperUnit. intros Ht.
  rewrite Ht. apply andb_true_iff in Ht. rewrite !N.leb_le in Ht.
  destruct ((97 <=? c)%N && (c <=? 122)%N) eqn:Ec; [reflexivity|].
  intros ->. simpl. apply andb_true_iff. rewrite !N.leb_le. lia.
Qed.

Lemma spells_token_letters (w : jsstring) :
  spells_token w -> forallb isLetter w = true.
Proof.
  intros [tok [Hin [Hl Hm]]]. apply tokens_lower in Hin.
  revert w Hl Hm. induction tok as [|t tok IH]; intros [|c w] Hl Hm;
    try discriminate; [reflexivity|].
  simpl in *. apply andb_true_iff in Hin. destruct Hin as [Ht Hin].
  injection Hm as Hc Hm. injection Hl as Hl.
  rewrite (canon_letter c t Ht Hc). simpl. auto.
Qed.

Lemma after_token_head (sh : Shape) :
  match after_token sh with
  | x :: _ => isLetter x = false
  | [] => True
  end.
Proof.
  unfold after_token.
  destruct (s_scope sh), (s_bang sh); reflexivity.
Qed.

Lemma split_at_first (p : N -> bool) (x : N) (s s' r r' : jsstring) :
  forallb p s = true -> forallb p s' = true -> p x = false ->
  s ++ x :: r = s' ++ x :: r' -> s = s' /\ r = r'.
Proof.
  intros Hs Hs' Hx. revert s' Hs'.
  induction s as [|a s IH]; intros [|a' s'] Hs' E; simpl in *.
  - injection E as ->. auto.
  - injection E as <- _. apply andb_true_iff in Hs'. destruct Hs' as [H _].
    congruence.
  - injection E as -> _. apply andb_true_iff in Hs. destruct Hs as [H _].
    congruence.
  - injection E as <- E.
    apply andb_true_iff in Hs, Hs'. destruct Hs as [_ Hs], Hs' as [_ Hs'].
    destruct (IH Hs s' Hs' E) as [-> ->]. auto.
Qed.

(** The token, the scope and the exclamation mark of a structured
    message are determined by the message. *)
Lemma header_unique (sh sh' : Shape) :
  well_shaped sh -> well_shaped sh' -> shape_text sh = shape_text sh' ->
  s_token sh = s_token sh' /\ s_scope sh = s_scope sh'
  /\ s_bang sh = s_bang sh'.
Proof.
  intros [Htok [Hsc _]] [Htok' [Hsc' _]] E.
  assert (Et : forall s, shape_text s = s_token s ++ after_token s).
  { intros s. unfold shape_text, header, after_token.
    rewrite <- !app_assoc. reflexivity. }
  rewrite !Et in E.
  assert (Htk : s_token sh = s_token sh').
  { rewrite <- (takeWhile_app isLetter (s_token sh) (after_token sh)
                  (spells_token_letters _ Htok) (after_token_head sh)).
    rewrite E.
    apply takeWhile_app;
      [apply spells_token_letters; exact Htok'|apply after_token_head]. }
  rewrite Htk in E. apply app_inv_head in E.
  split; [exact Htk|].
  unfold after_token in E.
  destruct (s_scope sh) as [x|], (s_scope sh') as [x'|];
    destruct (s_bang sh), (s_bang sh'); simpl in E; try discriminate;
    try (split; reflexivity);
    injection E as E; rewrite <- !app_assoc in E;
    destruct Hsc as [_ Hx]; destruct Hsc' as [_ Hx'];
    destruct (split_at_first not_rparen 41 x x' _ _ Hx Hx' eq_refl E)
      as [-> E'];
    try discriminate; split; reflexivity.
Qed.

(** ** The structured branch of the parser *)

(** On a well-shaped message the parser takes the structured branch and
    reads the token, the scope and the exclamation mark of the shape. *)
Lemma parse_well_shaped (sh : Shape) :
  well_shaped sh ->
  exists sh',
    well_shaped sh'
    /\ s_token sh' = s_token sh /\ s_scope sh' = s_scope sh
    /\ s_bang sh' = s_bang sh
    /\ parseConventionalCommit (shape_text sh)
       = Ok (parsed_of_shape (shape_text sh) sh').
Proof.
  intros Hw.
  destruct (exec commit_regex (shape_text sh)) as [m|] eqn:E;
    [|exfalso; exact (commit_regex_complete sh Hw E)].
  destruct (exec_inv _ _ E) as [sh' [Hw' [Hs Hc]]].
  destruct (header_unique sh' sh Hw' Hw (eq_sym Hs)) as [H1 [H2 H3]].
  exists sh'. repeat (split; [assumption|]).
  eapply parse_matched; eauto.
Qed.

(** C3.  For every message the parser returns a record.  When the message
    contains the literal [BREAKING CHANGE:] the breaking flag is set,
    whether or not the structured pattern matched.  A match of the
    pattern reads the message as [token[(scope)][!]: ...], and for every
    such reading of the message the pattern matches and the flag is set
    exactly when the exclamation mark stands before the colon or the
    message contains the marker.  Without a match the flag is the
    presence of the marker. *)
Theorem breaking_marker_and_bang (msg : jsstring) :
  exists p,
    parseConventionalCommit msg = Ok p
    /\ (includes msg BREAKING_MARKER = true -> p_breaking p = true)
    /\ (forall m, exec commit_regex msg = Some m ->
        exists sh, well_shaped sh /\ msg = shape_text sh /\ captures sh m)
    /\ (forall sh, well_shaped sh -> msg = shape_text sh ->
        exec commit_regex msg <> None
        /\ (p_breaking p = true <->
            s_bang sh = true \/ includes msg BREAKING_MARKER = true))
    /\ (exec commit_regex msg = None ->
        p_breaking p = includes msg BREAKING_MARKER).
Proof.
  destruct (exec commit_regex msg) as [m|] eqn:E.
  - destruct (exec_inv _ _ E) as [sh [Hw [Hs Hc]]].
    exists (parsed_of_shape msg sh).
    split; [eapply parse_matched; eauto|].
    unfold parsed_of_shape; cbn [p_breaking].
    split; [intros ->; apply orb_true_r|].
    split; [intros m' Hm'; injection Hm' as <-; eauto|].
    split; [|discriminate].
    intros sh' Hw' Hs'. split; [discriminate|].
    assert (Hb : s_bang sh = s_bang sh')
      by (apply header_unique; congruence).
    rewrite Hb, orb_true_iff. tauto.
  - exists (parsed_unstructured msg).
    split; [apply parse_unmatched; exact E|].
    unfold parsed_unstructured; cbn [p_breaking].
    split; [auto|]. split; [discriminate|]. split; [|reflexivity].
    intros sh Hw ->. exfalso. exact (commit_regex_complete sh Hw E).
Qed.

Lemma sample_shape_well_shaped : well_shaped sample_shape.
Proof.
  split; [|split; [|split; [|split]]]; try reflexivity.
  - exists (lit "feat"). split; [left; reflexivity|]. split; reflexivity.
  - split; [discriminate|reflexivity].
  - discriminate.
Qed.

Lemma breaking_marker_and_bang_witness :
  well_shaped sample_shape
  /\ lit "FeAt(core)!: drop v1 api" = shape_text sample_shape
  /\ includes (lit "FeAt(core)!: drop v1 api") BREAKING_MARKER = false
  /\ exists p,
       parseConventionalCommit (lit "FeAt(core)!: drop v1 api") = Ok p
       /\ p_breaking p = true.
Proof.
  split; [exact sample_shape_well_shaped|].
  split; [reflexivity|]. split; [vm_compute; reflexivity|].
  destruct (breaking_marker_and_bang (lit "FeAt(core)!: drop v1 api"))
    as [p [Hp [_ [_ [H _]]]]].
  exists p. split; [exact Hp|].
  apply (H sample_shape sample_shape_well_shaped eq_refl).
  left. reflexivity.
Defined.

(** C4.  A message that reads [token[(scope)][!]: title ...], the token
    spelled in any letter case, is matched by the pattern, and the
    category of its record is the one the table of the specification
    assigns to the lower-cased token: [feature] for [feat], [other] for
    [chore], the category of the same name for the other six. *)
Theorem structured_token_category (sh : Shape) :
  well_shaped sh ->
  exists m p,
    exec commit_regex (shape_text sh) = Some m
    /\ cap 1 m = Some (s_token sh)
    /\ In (toLowerCase (s_token sh)) tokens
    /\ parseConventionalCommit (shape_text sh) = Ok p
    /\ type_name (p_type p) = token_category (toLowerCase (s_token sh))
    /\ p_scope p = s_scope sh.
Proof.
  intros Hw.
  destruct (exec commit_regex (shape_text sh)) as [m|] eqn:E;
    [|exfalso; exact (commit_regex_complete sh Hw E)].
  destruct (exec_inv _ _ E) as [sh' [Hw' [Hs Hc]]].
  destruct (header_unique sh' sh Hw' Hw (eq_sym Hs)) as [H1 [H2 H3]].
  exists m, (parsed_of_shape (shape_text sh) sh').
  destruct Hw as [Htok _].
  pose proof (spells_token_lower _ Htok) as Hin.
  split; [reflexivity|].
  split; [rewrite <- H1; apply Hc|].
  split; [exact Hin|].
  split; [eapply parse_matched; eauto|].
  unfold parsed_of_shape; cbn [p_type p_scope]. rewrite H1, H2.
  split; [|reflexivity].
  unfold mapCommitType. apply mapCommitType_token. exact Hin.
Qed.

Lemma structured_token_category_witness :
  well_shaped sample_shape
  /\ shape_text sample_shape = lit "FeAt(core)!: drop v1 api"
  /\ exists p,
       parseConventionalCommit (lit "FeAt(core)!: drop v1 api") = Ok p
       /\ p_type p = Feature.
Proof.
  split; [exact sample_shape_well_shaped|]. split; [reflexivity|].
  destruct (structured_token_category sample_shape sample_shape_well_shaped)
    as [m [p [_ [_ [_ [Hp [Ht _]]]]]]].
  exists p. split; [exact Hp|].
  destruct (p_type p); vm_compute in Ht; try discriminate. reflexivity.
Defined.


(** ** Enrichment with pull-request data *)

Lemma applyLabels_frame (pr : PullRequest) (c : ParsedCommit) :
  sha (applyLabels pr c) = sha c
  /\ scope (applyLabels pr c) = scope c
  /\ message (applyLabels pr c) = message c
  /\ description (applyLabels pr c) = description c
  /\ author (applyLabels pr c) = author c
  /\ date (applyLabels pr c) = date c
  /\ prNumber (applyLabels pr c) = prNumber c
  /\ commitUrl (applyLabels pr c) = commitUrl c.
Proof.
  unfold applyLabels.
  destruct (type c);
    repeat match goal with
           | |- context [if ?b then _ else _] => destruct b
           end; simpl; tauto.
Qed.

Lemma applyLabels_guard (pr : PullRequest) (c : ParsedCommit) :
  type c <> Other -> applyLabels pr c = c.
Proof.
  unfold applyLabels. destruct (type c); try reflexivity. congruence.
Qed.

Lemma applyLabels_idem (pr : PullRequest) (c : ParsedCommit) :
  applyLabels pr (applyLabels pr c) = applyLabels pr c.
Proof.
  destruct c as [sh ty sc ms ds br au dt prn url].
  unfold applyLabels. simpl.
  destruct ty; try reflexivity.
  repeat match goal with
         | |- context [if ?b then _ else _] =>
             destruct b eqn:?; simpl; try reflexivity
         end.
Qed.

Lemma applyTitle_idem (pr : PullRequest) (c : ParsedCommit) :
  applyTitle pr (applyTitle pr c) = applyTitle pr c.
Proof.
  unfold applyTitle.
  destruct (length (message c) <? length (title pr)) eqn:E.
  - simpl. rewrite Nat.ltb_irrefl. reflexivity.
  - rewrite E. reflexivity.
Qed.

Lemma applyBody_idem (pr : PullRequest) (c : ParsedCommit) :
  applyBody pr (applyBody pr c) = applyBody pr c.
Proof.
  unfold applyBody.
  destruct (negb (truthy (description c)) && truthy (body pr)) eqn:E.
  - simpl. apply andb_true_iff in E. destruct E as [_ ->]. reflexivity.
  - rewrite E. reflexivity.
Qed.

Ltac split_ifs :=
  repeat match goal with
         | |- context [if ?b then _ else _] => destruct b; try reflexivity
         end.

(** The three steps write disjoint fields, and none reads a field that
    another writes. *)
Lemma applyLabels_set_message (pr : PullRequest) (m : jsstring)
  (c : ParsedCommit) :
  applyLabels pr (set_message m c) = set_message m (applyLabels pr c).
Proof.
  unfold applyLabels. simpl. destruct (type c); try reflexivity. split_ifs.
Qed.

Lemma applyLabels_set_description (pr : PullRequest) (d : option jsstring)
  (c : ParsedCommit) :
  applyLabels pr (set_description d c) = set_description d (applyLabels pr c).
Proof.
  unfold applyLabels. simpl. destruct (type c); try reflexivity. split_ifs.
Qed.

Lemma applyTitle_applyLabels (pr : PullRequest) (c : ParsedCommit) :
  applyTitle pr (applyLabels pr c) = applyLabels pr (applyTitle pr c).
Proof.
  unfold applyTitle.
  destruct (applyLabels_frame pr c) as [_ [_ [-> _]]].
  destruct (length (message c) <? length (title pr));
    [rewrite applyLabels_set_message|]; reflexivity.
Qed.

Lemma applyBody_applyLabels (pr : PullRequest) (c : ParsedCommit) :
  applyBody pr (applyLabels pr c) = applyLabels pr (applyBody pr c).
Proof.
  unfold applyBody.
  destruct (applyLabels_frame pr c) as [_ [_ [_ [-> _]]]].
  destruct (negb (truthy (description c)) && truthy (body pr));
    [rewrite applyLabels_set_description|]; reflexivity.
Qed.

Lemma applyBody_applyTitle (pr : PullRequest) (c : ParsedCommit) :
  applyBody pr (applyTitle pr c) = applyTitle pr (applyBody pr c).
Proof.
  unfold applyBody, applyTitle.
  destruct (length (message c) <? length (title pr)) eqn:E1;
    destruct (negb (truthy (description c)) && truthy (body pr)) eqn:E2;
    simpl; rewrite ?E1, ?E2; reflexivity.
Qed.

Lemma mergePR_idem (pr : PullRequest) (c : ParsedCommit) :
  mergePR pr (mergePR pr c) = mergePR pr c.
Proof.
  unfold mergePR.
  rewrite <- (applyBody_applyLabels pr (applyTitle pr (applyLabels pr c))).
  rewrite <- (applyTitle_applyLabels pr (applyLabels pr c)).
  rewrite applyLabels_idem.
  rewrite <- (applyBody_applyTitle pr (applyTitle pr (applyLabels pr c))).
  rewrite applyTitle_idem, applyBody_idem. reflexivity.
Qed.

Lemma mergePR_prNumber (pr : PullRequest) (c : ParsedCommit) :
  prNumber (mergePR pr c) = prNumber c.
Proof.
  unfold mergePR, applyBody, applyTitle.
  repeat match goal with
         | |- context [if ?b then _ else _] => destruct b; simpl
         end; apply applyLabels_frame.
Qed.

Lemma prNumber_truthy_mergePR (pr : PullRequest) (c : ParsedCommit) :
  prNumber_truthy (mergePR pr c) = prNumber_truthy c.
Proof. unfold prNumber_truthy. rewrite mergePR_prNumber. reflexivity. Qed.

Lemma enrichCommit_idem (fetch : jsnumber -> result (option PullRequest))
  (c c' : ParsedCommit) :
  enrichCommit fetch c = Ok c' -> enrichCommit fetch c' = Ok c'.
Proof.
  unfold enrichCommit.
  destruct (prNumber_truthy c) as [n|] eqn:En.
  - destruct (fetch n) as [[pr|]|e] eqn:Ef; simpl; try discriminate;
      intros H; injection H as <-.
    + rewrite prNumber_truthy_mergePR, En, Ef. simpl.
      rewrite mergePR_idem. reflexivity.
    + rewrite En, Ef. reflexivity.
  - intros H. injection H as <-. rewrite En. reflexivity.
Qed.

Lemma enrichCommits_idem (fetch : jsnumber -> result (option PullRequest))
  (cs cs' : list ParsedCommit) :
  enrichCommitsWithPRData fetch cs = Ok cs' ->
  enrichCommitsWithPRData fetch cs' = Ok cs'.
Proof.
  revert cs'. induction cs as [|c cs IH]; intros cs'; simpl.
  - intros H. injection H as <-. reflexivity.
  - destruct (enrichCommit fetch c) as [c1|e] eqn:E1; simpl; [|discriminate].
    destruct (enrichCommitsWithPRData fetch cs) as [cs1|e] eqn:E2; simpl;
      [|discriminate].
    intros H. injection H as <-. simpl.
    rewrite (enrichCommit_idem _ _ _ E1). simpl.
    rewrite (IH _ eq_refl). reflexivity.
Qed.

(** C6, as amended.  On a commit whose category is not [other] the merge
    leaves the category and the breaking flag (and the identifier, scope,
    author, date, request number and permalink) as they are; the title is
    still replaced by a strictly longer pull-request title, and a missing
    body is still taken from the pull request. *)
Theorem merge_keeps_parsed_category (pr : PullRequest) (c : ParsedCommit) :
  type c <> Other ->
  type (mergePR pr c) = type c
  /\ breaking (mergePR pr c) = breaking c
  /\ sha (mergePR pr c) = sha c
  /\ scope (mergePR pr c) = scope c
  /\ author (mergePR pr c) = author c
  /\ date (mergePR pr c) = date c
  /\ prNumber (mergePR pr c) = prNumber c
  /\ commitUrl (mergePR pr c) = commitUrl c
  /\ message (mergePR pr c)
     = (if length (message c) <? length (title pr)
        then title pr else message c)
  /\ description (mergePR pr c)
     = (if negb (truthy (description c)) && truthy (body pr)
        then body pr else description c).
Proof.
  intros Hty. unfold mergePR. rewrite (applyLabels_guard pr c Hty).
  unfold applyBody, applyTitle.
  destruct (length (message c) <? length (title pr));
    destruct (negb (truthy (description c)) && truthy (body pr)) eqn:E;
    simpl; rewrite ?E; simpl; repeat split; reflexivity.
Qed.

Lemma merge_keeps_parsed_category_witness :
  type sample_fix <> Other
  /\ type (mergePR sample_pr sample_fix) = Fix
  /\ breaking (mergePR sample_pr sample_fix) = false
  /\ message (mergePR sample_pr sample_fix)
     = lit "Fix the login redirect loop".
Proof.
  assert (H : type sample_fix <> Other) by (simpl; discriminate).
  split; [exact H|].
  destruct (merge_keeps_parsed_category sample_pr sample_fix H)
    as [Ht [Hb [_ [_ [_ [_ [_ [_ [Hm _]]]]]]]]].
  rewrite Ht, Hb, Hm. repeat split; reflexivity.
Defined.

(** C6 as stated fails: a commit parsed as [fix] has its title and body
    replaced by the merge. *)
Lemma merge_changes_title_of_fix :
  type sample_fix <> Other
  /\ mergePR sample_pr sample_fix <> sample_fix
  /\ message (mergePR sample_pr sample_fix)
     = lit "Fix the login redirect loop"
  /\ description (mergePR sample_pr sample_fix)
     = Some (lit "Redirects looped when the session expired.").
Proof.
  split; [simpl; discriminate|].
  split; [|split; reflexivity].
  intros H. apply (f_equal message) in H. vm_compute in H. discriminate.
Qed.

(** C7.  Merging twice with the same pull request gives the same commit
    record as merging once; the same holds for one iteration of the
    enrichment loop and for the whole pass, given the same answers of
    [fetchPullRequest]. *)
Theorem merge_idempotent :
  (forall pr c, mergePR pr (mergePR pr c) = mergePR pr c)
  /\ (forall fetch c c',
        enrichCommit fetch c = Ok c' -> enrichCommit fetch c' = Ok c')
  /\ (forall fetch cs cs',
        enrichCommitsWithPRData fetch cs = Ok cs' ->
        enrichCommitsWithPRData fetch cs' = Ok cs').
Proof.
  split; [exact mergePR_idem|].
  split; [exact enrichCommit_idem|exact enrichCommits_idem].
Qed.

Lemma merge_idempotent_witness :
  enrichCommitsWithPRData sample_fetch [sample_other; sample_fix]
  = Ok [mergePR sample_pr sample_other; mergePR sample_pr sample_fix]
  /\ type (mergePR sample_pr sample_other) = Fix
  /\ enrichCommitsWithPRData sample_fetch
       [mergePR sample_pr sample_other; mergePR sample_pr sample_fix]
     = Ok [mergePR sample_pr sample_other; mergePR sample_pr sample_fix].
Proof.
  assert (H : enrichCommitsWithPRData sample_fetch [sample_other; sample_fix]
              = Ok [mergePR sample_pr sample_other;
                    mergePR sample_pr sample_fix])
    by reflexivity.
  split; [exact H|]. split; [reflexivity|].
  exact (proj2 (proj2 merge_idempotent) _ _ _ H).
Defined.

(** ** Dictionaries *)

Lemma get_set {V} (k k' : jsstring) (v : V) (o : obj V) :
  get k' (set k v o) = if str_eqb k k' then Some v else get k' o.
Proof.
  induction o as [|[k0 v0] o IH]; simpl.
  - destruct (str_eqb k k'); reflexivity.
  - destruct (str_eqb k0 k) eqn:E0; simpl.
    + apply str_eqb_eq in E0. subst k0.
      destruct (str_eqb k k'); reflexivity.
    + rewrite IH. destruct (str_eqb k0 k') eqn:E1; [|reflexivity].
      apply str_eqb_eq in E1. subst k0. rewrite str_eqb_neq in E0.
      destruct (str_eqb k k') eqn:E2; [|reflexivity].
      apply str_eqb_eq in E2. congruence.
Qed.

Lemma get_Some_key {V} (k : jsstring) (o : obj V) :
  In k (keys o) <-> get k o <> None.
Proof.
  unfold keys. induction o as [|[k0 v0] o IH]; simpl.
  - tauto.
  - destruct (str_eqb k0 k) eqn:E.
    + apply str_eqb_eq in E. split; [discriminate|auto].
    + apply str_eqb_neq in E. tauto.
Qed.

Lemma keys_set {V} (k : jsstring) (v : V) (o : obj V) :
  keys (set k v o)
  = match get k o with Some _ => keys o | None => keys o ++ [k] end.
Proof.
  unfold keys. induction o as [|[k0 v0] o IH]; simpl; [reflexivity|].
  destruct (str_eqb k0 k) eqn:E; simpl; [reflexivity|].
  rewrite IH. destruct (get k o); reflexivity.
Qed.

Lemma sumValues_set (k : jsstring) (v : nat) (o : obj nat) :
  sumValues (set k v o) + count_or_zero (get k o) = sumValues o + v.
Proof.
  unfold sumValues. induction o as [|[k0 v0] o IH]; simpl; [lia|].
  destruct (str_eqb k0 k); simpl; lia.
Qed.

Lemma sumValues_increment (k : jsstring) (o : obj nat) :
  sumValues (increment k o) = S (sumValues o).
Proof.
  unfold increment.
  pose proof (sumValues_set k (S (count_or_zero (get k o))) o) as H.
  unfold count_or_zero in *. lia.
Qed.

Lemma get_increment (k k' : jsstring) (o : obj nat) :
  get k' (increment k o)
  = if str_eqb k k' then Some (S (count_or_zero (get k o))) else get k' o.
Proof. unfold increment. apply get_set. Qed.

Lemma keys_increment_present (k : jsstring) (o : obj nat) :
  In k (keys o) -> keys (increment k o) = keys o.
Proof.
  intros H. unfold increment. rewrite keys_set.
  apply get_Some_key in H. destruct (get k o); congruence.
Qed.

Lemma keys_NoDup_set {V} (k : jsstring) (v : V) (o : obj V) :
  NoDup (keys o) -> NoDup (keys (set k v o)).
Proof.
  intros H. rewrite keys_set.
  destruct (get k o) eqn:G; [exact H|].
  apply NoDup_app; [exact H|repeat constructor; auto|].
  intros x Hx [<-|[]]. apply get_Some_key in Hx. congruence.
Qed.

(** ** Statistics *)

Lemma sumValues_incrementAll key cs o :
  sumValues (incrementAll key cs o) = sumValues o + length cs.
Proof.
  unfold incrementAll. revert o. induction cs as [|c cs IH]; intros o; simpl.
  - lia.
  - rewrite IH, sumValues_increment. lia.
Qed.

Lemma get_incrementAll key cs o k :
  get k (incrementAll key cs o)
  = match get k o, countBy key k cs with
    | None, 0 => None
    | v, n => Some (count_or_zero v + n)
    end.
Proof.
  unfold incrementAll, countBy. revert o.
  induction cs as [|c cs IH]; intros o; simpl.
  - destruct (get k o); simpl; [f_equal; lia|reflexivity].
  - rewrite IH, get_increment.
    destruct (str_eqb (key c) k) eqn:E; simpl.
    + apply str_eqb_eq in E. rewrite E.
      destruct (get k o); simpl; f_equal; lia.
    + reflexivity.
Qed.

Lemma keys_incrementAll_present key cs o :
  (forall c, In c cs -> In (key c) (keys o)) ->
  keys (incrementAll key cs o) = keys o.
Proof.
  unfold incrementAll. revert o. induction cs as [|c cs IH]; intros o H; simpl.
  - reflexivity.
  - assert (Hk : keys (increment (key c) o) = keys o)
      by (apply keys_increment_present, H; left; reflexivity).
    rewrite IH; [exact Hk|].
    intros c' Hc'. rewrite Hk. apply H. right. exact Hc'.
Qed.

Lemma keys_NoDup_incrementAll key cs o :
  NoDup (keys o) -> NoDup (keys (incrementAll key cs o)).
Proof.
  unfold incrementAll. revert o. induction cs as [|c cs IH]; intros o H; simpl.
  - exact H.
  - apply IH. unfold increment. apply keys_NoDup_set. exact H.
Qed.

(** The counters by author and by scope. *)
Lemma get_bump (k k' : jsstring) (o : obj counter) :
  get k' (bump k o)
  = if str_eqb k (lit "__proto__") then get k' o
    else if str_eqb k k' then Some (bumped k (get k o)) else get k' o.
Proof.
  unfold bump. destruct (str_eqb k (lit "__proto__")); [reflexivity|].
  apply get_set.
Qed.

Lemma keys_NoDup_bumpAll key cs o :
  NoDup (keys o) -> NoDup (keys (bumpAll key cs o)).
Proof.
  unfold bumpAll. revert o. induction cs as [|c cs IH]; intros o H; simpl.
  - exact H.
  - apply IH. unfold bump.
    destruct (str_eqb (key c) (lit "__proto__")); [exact H|].
    apply keys_NoDup_set. exact H.
Qed.

(** The value under [k] after the loop: one application of [bumped] for
    each commit with that key, and none at all under [__proto__]. *)
Lemma get_bumpAll key cs o k :
  get k (bumpAll key cs o)
  = if str_eqb k (lit "__proto__") then get k o
    else Nat.iter (countBy key k cs) (fun v => Some (bumped k v)) (get k o).
Proof.
  unfold bumpAll, countBy. revert o.
  induction cs as [|c cs IH]; intros o; simpl.
  - destruct (str_eqb k (lit "__proto__")); reflexivity.
  - rewrite IH, get_bump.
    destruct (str_eqb k (lit "__proto__")) eqn:Ep.
    + destruct (str_eqb (key c) (lit "__proto__")) eqn:Ec; [reflexivity|].
      destruct (str_eqb (key c) k) eqn:E; [|reflexivity].
      apply str_eqb_eq in E. congruence.
    + destruct (str_eqb (key c) k) eqn:E.
      * assert (Ek : key c = k) by (apply str_eqb_eq; exact E).
        rewrite Ek, Ep. cbn [length].
        rewrite Nat.iter_succ_r. reflexivity.
      * destruct (str_eqb (key c) (lit "__proto__")); reflexivity.
Qed.

Lemma bumped_from_nothing (k : jsstring) (n : nat) :
  Nat.iter n (fun v => Some (bumped k v)) None
  = match n with
    | 0 => None
    | S _ => Some (if inherited k then NativeText k n else Num n)
    end.
Proof.
  induction n as [|n IH]; [reflexivity|].
  simpl. rewrite IH. destruct n as [|n].
  - simpl. destruct (inherited k); reflexivity.
  - simpl. destruct (inherited k); reflexivity.
Qed.

(** The dictionary that the loop builds from the empty object. *)
Lemma get_bumpAll_empty key cs k :
  get k (bumpAll key cs [])
  = if str_eqb k (lit "__proto__") then None
    else match countBy key k cs with
         | 0 => None
         | S n => Some (if inherited k then NativeText k (S n) else Num (S n))
         end.
Proof.
  rewrite get_bumpAll. simpl. rewrite bumped_from_nothing.
  destruct (countBy key k cs); reflexivity.
Qed.

Lemma numericSum_set (k : jsstring) (v : counter) (o : obj counter) :
  numericSum (set k v o)
  + match get k o with Some w => countOf w | None => 0 end
  = numericSum o + countOf v.
Proof.
  unfold numericSum. induction o as [|[k0 v0] o IH]; simpl; [lia|].
  destruct (str_eqb k0 k); simpl; lia.
Qed.

(** Numbers stand under ordinary keys and strings under inherited ones;
    each bump of an ordinary key adds one to the sum of the numbers. *)
Lemma numericSum_bump (k : jsstring) (o : obj counter) :
  (forall k' v, get k' o = Some v ->
     inherited k' = match v with Num _ => false | NativeText _ _ => true end) ->
  (forall k' v, get k' (bump k o) = Some v ->
     inherited k' = match v with Num _ => false | NativeText _ _ => true end)
  /\ numericSum (bump k o)
     = numericSum o + (if ordinary k then 1 else 0).
Proof.
  intros Hinv. split.
  - intros k' v. rewrite get_bump.
    destruct (str_eqb k (lit "__proto__")); [apply Hinv|].
    destruct (str_eqb k k') eqn:E; [|apply Hinv].
    apply str_eqb_eq in E. subst k'. intros H. injection H as <-.
    unfold bumped. destruct (get k o) as [[n|m j]|] eqn:G.
    + apply (Hinv _ _ G).
    + apply (Hinv _ _ G).
    + destruct (inherited k); reflexivity.
  - unfold bump, ordinary.
    destruct (str_eqb k (lit "__proto__")) eqn:Ep.
    + apply str_eqb_eq in Ep. subst k. simpl. lia.
    + pose proof (numericSum_set k (bumped k (get k o)) o) as H.
      unfold bumped in *.
      destruct (get k o) as [[n|m j]|] eqn:G.
      * rewrite (Hinv _ _ G). simpl in *. lia.
      * rewrite (Hinv _ _ G). simpl in *. lia.
      * destruct (inherited k); simpl in *; lia.
Qed.

Lemma numericSum_bumpAll key cs o :
  (forall k' v, get k' o = Some v ->
     inherited k' = match v with Num _ => false | NativeText _ _ => true end) ->
  numericSum (bumpAll key cs o)
  = numericSum o + length (filter (fun c => ordinary (key c)) cs).
Proof.
  unfold bumpAll. revert o. induction cs as [|c cs IH]; intros o Hinv; simpl.
  - lia.
  - destruct (numericSum_bump (key c) o Hinv) as [Hinv' Hsum].
    rewrite (IH _ Hinv'), Hsum.
    destruct (ordinary (key c)); simpl; lia.
Qed.

(** The fields of the accumulator evolve independently of each other. *)
Lemma calculateStats_fields (cs : list ParsedCommit) (st : CommitStats) :
  let st' := fold_left statsStep cs st in
  totalCommits st' = totalCommits st
  /\ commitsByType st'
     = incrementAll (fun c => type_name (type c)) cs (commitsByType st)
  /\ commitsByAuthor st' = bumpAll author cs (commitsByAuthor st)
  /\ breakingChanges st'
     = breakingChanges st + length (filter breaking cs).
Proof.
  revert st. induction cs as [|c cs IH]; intros st; simpl.
  - repeat split. lia.
  - destruct (IH (statsStep st c)) as [H1 [H2 [H3 H4]]].
    rewrite H1, H2, H3, H4. simpl.
    repeat split. destruct (breaking c); simpl; lia.
Qed.

Lemma type_name_inj (a b : CommitType) :
  str_eqb (type_name a) (type_name b) = CommitType_eqb a b.
Proof. destruct a, b; reflexivity. Qed.

(** C1.  The code breaks the invariant on a collection with an author
    whose name is a member of [Object.prototype].  Of two commits, one by
    [ann] and one by [constructor], the first is counted as the number 1;
    for the second, the read of the counter gives the inherited
    constructor function, so that the counter becomes a string: the text
    of that function followed by [1].  The total is 2, and the counts by
    author that are numbers add up to 1. *)
Theorem stats_author_named_constructor :
  author sample_by_constructor = lit "constructor"
  /\ commitsByAuthor (calculateStats [sample_fix; sample_by_constructor])
     = [ (lit "ann", Num 1);
         (lit "constructor", NativeText (lit "constructor") 1) ]
  /\ counterText (NativeText (lit "constructor") 1)
     = lit "function Object() { [native code] }1"
  /\ totalCommits (calculateStats [sample_fix; sample_by_constructor]) = 2
  /\ sumValues (commitsByType
                  (calculateStats [sample_fix; sample_by_constructor])) = 2
  /\ numericSum (commitsByAuthor
                   (calculateStats [sample_fix; sample_by_constructor])) = 1
  /\ numericSum (commitsByAuthor
                   (calculateStats [sample_fix; sample_by_constructor]))
     <> totalCommits (calculateStats [sample_fix; sample_by_constructor]).
Proof.
  split; [reflexivity|]. split; [vm_compute; reflexivity|].
  split; [vm_compute; reflexivity|]. split; [reflexivity|].
  split; [vm_compute; reflexivity|]. split; [vm_compute; reflexivity|].
  vm_compute. discriminate.
Qed.

(** ** Grouping *)

Lemma in_insertAsc {V} (e x : jsstring * V) (l : obj V) :
  In x (insertAsc e l) <-> x = e \/ In x l.
Proof.
  induction l as [|y l IH]; simpl.
  - intuition congruence.
  - destruct (indexValue e <=? indexValue y)%N; simpl.
    + intuition congruence.
    + rewrite IH. tauto.
Qed.

Lemma in_sortAsc {V} (x : jsstring * V) (l : obj V) :
  In x (sortAsc l) <-> In x l.
Proof.
  unfold sortAsc. induction l as [|y l IH]; simpl; [tauto|].
  rewrite in_insertAsc, IH. intuition congruence.
Qed.

(** [Object.entries] lists exactly the properties of the object. *)
Lemma in_entries {V} (x : jsstring * V) (o : obj V) :
  In x (entries o) <-> In x o.
Proof.
  unfold entries. rewrite in_app_iff, in_sortAsc, !filter_In.
  destruct (isIndexKey x); simpl; intuition congruence.
Qed.

Lemma get_In {V} (k : jsstring) (v : V) (o : obj V) :
  get k o = Some v -> In (k, v) o.
Proof.
  induction o as [|[k0 v0] o IH]; simpl; [discriminate|].
  destruct (str_eqb k0 k) eqn:E.
  - apply str_eqb_eq in E. intros H. injection H as ->. left. congruence.
  - auto.
Qed.

Lemma in_set {V} (k : jsstring) (v : V) (o : obj V) (x : jsstring * V) :
  In x (set k v o) -> x = (k, v) \/ In x o.
Proof.
  induction o as [|[k0 v0] o IH]; simpl.
  - intuition congruence.
  - destruct (str_eqb k0 k) eqn:E; simpl.
    + apply str_eqb_eq in E. subst k0. intuition congruence.
    + intros [H|H]; [tauto|]. apply IH in H. tauto.
Qed.

Lemma fold_typeKey (cs : list ParsedCommit) (g : obj (list ParsedCommit)) :
  fold_left
    (fun grouped c =>
       if breaking c then push (type_name Breaking) c grouped
       else push (type_name (type c)) c grouped) cs g
  = pushAll typeKey cs g.
Proof.
  unfold pushAll. revert g.
  induction cs as [|c cs IH]; intros g; [reflexivity|].
  cbn [fold_left]. rewrite IH. unfold typeKey.
  destruct (breaking c); reflexivity.
Qed.

Lemma typeKey_ordinary (c : ParsedCommit) : ordinary (typeKey c) = true.
Proof. unfold typeKey. destruct (breaking c), (type c); reflexivity. Qed.

Lemma fileable_ByType (cs : list ParsedCommit) : fileable ByType cs = true.
Proof.
  unfold fileable. apply forallb_forall. intros c _. apply typeKey_ordinary.
Qed.

(** Once a filing has thrown, the loop is over. *)
Lemma fileAll_thrown expr key cs e :
  fold_left
    (fun acc c => grouped <- acc ;; pushOrCreate expr (key c) c grouped)
    cs (Throw e)
  = Throw e.
Proof. induction cs as [|c cs IH]; simpl; [reflexivity|exact IH]. Qed.

(** The loop files every commit when all keys are ordinary, and throws
    otherwise; the own keys of the object are ordinary throughout. *)
Lemma fileAll_from expr key cs g :
  (forall k, In k (keys g) -> ordinary k = true) ->
  fold_left
    (fun acc c => grouped <- acc ;; pushOrCreate expr (key c) c grouped)
    cs (Ok g)
  = if forallb (fun c => ordinary (key c)) cs
    then Ok (pushAll key cs g)
    else Throw (lit "TypeError: " ++ expr ++ lit ".push is not a function").
Proof.
  unfold pushAll. revert g. induction cs as [|c cs IH]; intros g Hg.
  - reflexivity.
  - cbn [fold_left forallb bind]. unfold pushOrCreate, ordinary.
    destruct (get (key c) g) as [l|] eqn:G.
    + assert (Ho : ordinary (key c) = true).
      { apply Hg, get_Some_key. congruence. }
      unfold ordinary in Ho. rewrite Ho. cbn [andb].
      rewrite IH.
      * unfold push. rewrite G. reflexivity.
      * intros k Hk. rewrite keys_set, G in Hk. apply Hg. exact Hk.
    + destruct (inherited (key c)) eqn:Ei; cbn [negb andb].
      * apply fileAll_thrown.
      * rewrite IH.
        -- unfold push. rewrite G. reflexivity.
        -- intros k Hk. rewrite keys_set, G in Hk. apply in_app_or in Hk.
           destruct Hk as [Hk|[<-|[]]]; [apply Hg; exact Hk|].
           unfold ordinary. rewrite Ei. reflexivity.
Qed.

Lemma groupCommits_pushAll (groupBy : GroupBy) (cs : list ParsedCommit) :
  groupCommits groupBy cs
  = if fileable groupBy cs
    then Ok (pushAll (groupKey groupBy) cs (emptyGroups groupBy))
    else Throw (groupingError groupBy).
Proof.
  destruct groupBy.
  - rewrite fileable_ByType. simpl. f_equal. apply fold_typeKey.
  - apply (fileAll_from (lit "grouped[scope]") scopeKey cs []).
    intros k [].
  - apply (fileAll_from (lit "grouped[commit.author]") author cs []).
    intros k [].
Qed.

Lemma renderedGroups_pushAll (groupBy : GroupBy) (rn : ReleaseNotes) :
  renderedGroups groupBy rn
  = if fileable groupBy (commits rn)
    then filter groupIsRendered
           (entries (pushAll (groupKey groupBy) (commits rn)
                             (emptyGroups groupBy)))
    else [].
Proof.
  unfold renderedGroups. rewrite groupCommits_pushAll.
  destruct (fileable groupBy (commits rn)); reflexivity.
Qed.

(** Every member of a bucket was filed there under its own key. *)
Lemma pushAll_sound key cs g k l c :
  In (k, l) (pushAll key cs g) -> In c l ->
  (In c cs /\ key c = k) \/ (exists l0, In (k, l0) g /\ In c l0).
Proof.
  unfold pushAll. revert g. induction cs as [|c0 cs IH]; intros g; simpl.
  - intros H1 H2. right. eauto.
  - intros H1 H2. destruct (IH _ H1 H2) as [[Hin Hk]|[l0 [Hl0 Hc]]].
    + left. tauto.
    + unfold push in Hl0. apply in_set in Hl0.
      destruct Hl0 as [Heq|Hold].
      * injection Heq as -> ->.
        apply in_app_or in Hc. destruct Hc as [Hc|[<-|[]]].
        -- right. destruct (get (key c0) g) as [l1|] eqn:G; [|destruct Hc].
           exists l1. split; [apply get_In; exact G|exact Hc].
        -- left. tauto.
      * right. eauto.
Qed.

Lemma get_push (k k' : jsstring) (c : ParsedCommit)
  (g : obj (list ParsedCommit)) :
  get k' (push k c g)
  = if str_eqb k k'
    then Some (match get k g with Some l => l | None => [] end ++ [c])
    else get k' g.
Proof. unfold push. apply get_set. Qed.

(** A commit once filed stays in its bucket. *)
Lemma pushAll_keeps key cs g k l c :
  get k g = Some l -> In c l ->
  exists l', get k (pushAll key cs g) = Some l' /\ In c l'.
Proof.
  unfold pushAll. revert g l. induction cs as [|c0 cs IH]; intros g l G Hc.
  - simpl. eauto.
  - simpl. apply (IH _ (if str_eqb (key c0) k then l ++ [c0] else l)).
    + rewrite get_push. destruct (str_eqb (key c0) k) eqn:E; [|exact G].
      apply str_eqb_eq in E. rewrite E, G. reflexivity.
    + destruct (str_eqb (key c0) k); [apply in_or_app; left|]; exact Hc.
Qed.

(** Every commit is filed under its key. *)
Lemma pushAll_complete key cs g c :
  In c cs -> exists l, get (key c) (pushAll key cs g) = Some l /\ In c l.
Proof.
  revert g. induction cs as [|c0 cs IH]; intros g; simpl; [tauto|].
  intros [->|H].
  - change (pushAll key (c :: cs) g)
      with (pushAll key cs (push (key c) c g)).
    eapply pushAll_keeps.
    + rewrite get_push, str_eqb_refl. reflexivity.
    + apply in_or_app. right. left. reflexivity.
  - apply (IH (push (key c0) c0 g) H).
Qed.

Lemma emptyGroups_empty groupBy k l c :
  In (k, l) (emptyGroups groupBy) -> In c l -> False.
Proof.
  destruct groupBy; simpl; try tauto.
  intros H; repeat (destruct H as [H|H]; [injection H as _ <-; tauto|]);
    destruct H.
Qed.

Lemma renderedGroups_inv groupBy rn k l :
  In (k, l) (renderedGroups groupBy rn) <->
  fileable groupBy (commits rn) = true
  /\ In (k, l) (pushAll (groupKey groupBy) (commits rn)
                        (emptyGroups groupBy))
  /\ l <> [] /\ k <> lit "breaking".
Proof.
  rewrite renderedGroups_pushAll.
  destruct (fileable groupBy (commits rn)).
  - unfold groupIsRendered.
    rewrite filter_In, in_entries, andb_true_iff, !negb_true_iff. simpl.
    rewrite str_eqb_neq, Nat.eqb_neq.
    destruct l; simpl; intuition (try congruence; try lia).
  - simpl. intuition discriminate.
Qed.

(** The grouped sections list a commit under [k] exactly when it is one
    of the commits of the document, [k] is its key, and [k] is not the
    string [breaking]. *)
Lemma listed_under_iff groupBy rn k c :
  listed_under groupBy rn k c <->
  fileable groupBy (commits rn) = true
  /\ In c (commits rn) /\ groupKey groupBy c = k /\ k <> lit "breaking".
Proof.
  unfold listed_under. split.
  - intros [l [Hl Hc]]. apply renderedGroups_inv in Hl.
    destruct Hl as [Hf [Hg [_ Hk]]].
    destruct (pushAll_sound _ _ _ _ _ _ Hg Hc) as [[H1 H2]|[l0 [H1 H2]]].
    + auto.
    + exfalso. eapply emptyGroups_empty; eauto.
  - intros [Hf [Hc [Hk Hne]]]. subst k.
    destruct (pushAll_complete (groupKey groupBy) _
                (emptyGroups groupBy) _ Hc) as [l [Hl Hin]].
    exists l. split; [|exact Hin].
    apply renderedGroups_inv.
    split; [exact Hf|]. split; [apply get_In; exact Hl|].
    split; [intros ->; destruct Hin|exact Hne].
Qed.

Lemma listed_in_groups_iff groupBy rn c :
  listed_in_groups groupBy rn c <->
  fileable groupBy (commits rn) = true
  /\ In c (commits rn) /\ groupKey groupBy c <> lit "breaking".
Proof.
  unfold listed_in_groups. split.
  - intros [[k l] [He Hc]].
    assert (H : listed_under groupBy rn k c) by (exists l; auto).
    apply listed_under_iff in H. destruct H as [H0 [H1 [<- H3]]]. auto.
  - intros [Hf [Hc Hk]].
    destruct (proj2 (listed_under_iff groupBy rn (groupKey groupBy c) c))
      as [l [Hl Hin]]; [auto|].
    exists (groupKey groupBy c, l). auto.
Qed.

(** ** Rendering *)

Lemma buildNotes_commits now cs options c :
  In c (commits (buildNotes now cs options)) <->
  In c cs /\ breaking c = false.
Proof.
  unfold buildNotes. simpl. rewrite filter_In, negb_true_iff. tauto.
Qed.

Lemma buildNotes_breaking now cs options c :
  listed_in_breaking (buildNotes now cs options) c <->
  In c cs /\ breaking c = true.
Proof.
  unfold listed_in_breaking, buildNotes. simpl. rewrite filter_In. tauto.
Qed.

Lemma in_commitLines includeScope c :
  In (lit "- " ++ formatCommit c includeScope) (commitLines includeScope c).
Proof. unfold commitLines. left. reflexivity. Qed.

(** The lines of the section of breaking changes hold the line of each
    of its commits. *)
Lemma breakingLines_listed rn c :
  listed_in_breaking rn c ->
  In (lit "- " ++ formatCommit c true) (breakingLines rn).
Proof.
  unfold listed_in_breaking, breakingLines. intros H.
  destruct (rn_breakingChanges rn) as [|c0 l] eqn:E; [destruct H|].
  rewrite <- E in *.
  apply in_or_app. right. apply in_or_app. left.
  apply in_flat_map. exists c. split; [exact H|apply in_commitLines].
Qed.

(** The lines of the grouped sections hold the line of each commit they
    list. *)
Lemma groupLines_listed groupBy rn c :
  listed_in_groups groupBy rn c ->
  In (lit "- "
      ++ formatCommit c (match groupBy with ByScope => false | _ => true end))
     (flat_map (sectionLines groupBy) (renderedGroups groupBy rn)).
Proof.
  intros [e [He Hc]]. apply in_flat_map. exists e. split; [exact He|].
  unfold sectionLines. apply in_or_app. right. apply in_or_app. left.
  apply in_flat_map. exists c. split; [exact Hc|apply in_commitLines].
Qed.

(** C2, as amended.  In every grouping mode (category, scope, author) a
    commit whose breaking flag is set stands in the section of breaking
    changes, whose lines hold its line, and in no grouped section: not
    under its nominal category, not under its scope, not under its
    author. *)
Theorem breaking_only_in_breaking_section
  (now : jsstring) (groupBy : GroupBy) (cs : list ParsedCommit)
  (options : Options) (c : ParsedCommit) :
  In c cs -> breaking c = true ->
  listed_in_breaking (buildNotes now cs options) c
  /\ In (lit "- " ++ formatCommit c true)
        (breakingLines (buildNotes now cs options))
  /\ ~ listed_in_groups groupBy (buildNotes now cs options) c
  /\ ~ listed_under ByType (buildNotes now cs options)
         (type_name (type c)) c
  /\ ~ listed_under ByScope (buildNotes now cs options) (scopeKey c) c
  /\ ~ listed_under ByAuthor (buildNotes now cs options) (author c) c.
Proof.
  intros Hin Hb.
  assert (Hl : listed_in_breaking (buildNotes now cs options) c)
    by (apply buildNotes_breaking; auto).
  assert (Hn : ~ In c (commits (buildNotes now cs options)))
    by (rewrite buildNotes_commits; intros [_ H]; congruence).
  split; [exact Hl|]. split; [apply breakingLines_listed; exact Hl|].
  split; [rewrite listed_in_groups_iff; tauto|].
  repeat split; rewrite listed_under_iff; tauto.
Qed.

Lemma breaking_only_in_breaking_section_witness :
  In sample_breaking [sample_breaking; sample_feature]
  /\ breaking sample_breaking = true
  /\ ~ listed_in_groups ByScope
         (buildNotes sample_now [sample_breaking; sample_feature] no_options)
         sample_breaking.
Proof.
  assert (H1 : In sample_breaking [sample_breaking; sample_feature])
    by (left; reflexivity).
  assert (H2 : breaking sample_breaking = true) by reflexivity.
  split; [exact H1|]. split; [exact H2|].
  exact (proj1 (proj2 (proj2
    (breaking_only_in_breaking_section sample_now ByScope _ no_options _
       H1 H2)))).
Defined.

(** C2 as stated fails: under scope grouping and under author grouping
    the breaking commit is in no grouped section; the only sections are
    those of the commit that is not breaking. *)
Lemma breaking_absent_from_scope_and_author_groups :
  breaking sample_breaking = true
  /\ renderedGroups ByScope
       (buildNotes sample_now [sample_breaking; sample_feature] no_options)
     = [(lit "api", [sample_feature])]
  /\ renderedGroups ByAuthor
       (buildNotes sample_now [sample_breaking; sample_feature] no_options)
     = [(lit "bob", [sample_feature])]
  /\ ~ listed_under ByScope
         (buildNotes sample_now [sample_breaking; sample_feature] no_options)
         (scopeKey sample_breaking) sample_breaking
  /\ ~ listed_under ByAuthor
         (buildNotes sample_now [sample_breaking; sample_feature] no_options)
         (author sample_breaking) sample_breaking.
Proof.
  split; [reflexivity|]. split; [vm_compute; reflexivity|].
  split; [vm_compute; reflexivity|].
  split; rewrite listed_under_iff, buildNotes_commits;
    intros [_ [[_ H] _]]; discriminate.
Qed.

(** C10, as amended.  In every grouping mode no emitted group is named
    [breaking].  Under scope grouping a commit that is not breaking and
    whose scope is [breaking] stands in no section at all, and so does,
    under author grouping, a commit that is not breaking and whose author
    is [breaking].  A breaking commit of that author stands in no grouped
    section either, but it is shown: the section of breaking changes
    holds its line.  When the grouping returns, a commit that is not
    breaking and whose key is another string is listed under its key. *)
Theorem group_named_breaking_skipped
  (now : jsstring) (cs : list ParsedCommit) (options : Options) :
  (forall groupBy k l,
     In (k, l) (renderedGroups groupBy (buildNotes now cs options)) ->
     k <> lit "breaking")
  /\ (forall c,
        In c cs -> breaking c = false -> scope c = Some (lit "breaking") ->
        ~ listed_in_groups ByScope (buildNotes now cs options) c
        /\ ~ listed_in_breaking (buildNotes now cs options) c)
  /\ (forall c,
        In c cs -> breaking c = false -> author c = lit "breaking" ->
        ~ listed_in_groups ByAuthor (buildNotes now cs options) c
        /\ ~ listed_in_breaking (buildNotes now cs options) c)
  /\ (forall c,
        In c cs -> breaking c = true -> author c = lit "breaking" ->
        ~ listed_in_groups ByAuthor (buildNotes now cs options) c
        /\ listed_in_breaking (buildNotes now cs options) c
        /\ In (lit "- " ++ formatCommit c true)
              (breakingLines (buildNotes now cs options)))
  /\ (forall groupBy grouped c,
        groupCommits groupBy (commits (buildNotes now cs options))
        = Ok grouped ->
        In c cs -> breaking c = false ->
        groupKey groupBy c <> lit "breaking" ->
        listed_under groupBy (buildNotes now cs options)
                     (groupKey groupBy c) c).
Proof.
  split; [|split; [|split; [|split]]].
  - intros groupBy k l H. apply renderedGroups_inv in H. tauto.
  - intros c Hin Hb Hs. split.
    + rewrite listed_in_groups_iff. simpl. unfold scopeKey. rewrite Hs.
      simpl. tauto.
    + rewrite buildNotes_breaking. intros [_ H]. congruence.
  - intros c Hin Hb Ha. split.
    + rewrite listed_in_groups_iff. simpl. tauto.
    + rewrite buildNotes_breaking. intros [_ H]. congruence.
  - intros c Hin Hb Ha.
    assert (Hl : listed_in_breaking (buildNotes now cs options) c)
      by (apply buildNotes_breaking; auto).
    split; [rewrite listed_in_groups_iff; simpl; tauto|].
    split; [exact Hl|apply breakingLines_listed; exact Hl].
  - intros groupBy grouped c Hg Hin Hb Hk. apply listed_under_iff.
    rewrite groupCommits_pushAll in Hg.
    destruct (fileable groupBy (commits (buildNotes now cs options)));
      [|discriminate].
    rewrite buildNotes_commits. auto.
Qed.

Lemma group_named_breaking_skipped_witness :
  In sample_scoped_breaking [sample_scoped_breaking; sample_feature]
  /\ breaking sample_scoped_breaking = false
  /\ scope sample_scoped_breaking = Some (lit "breaking")
  /\ renderedGroups ByScope
       (buildNotes sample_now [sample_scoped_breaking; sample_feature]
                   no_options)
     = [(lit "api", [sample_feature])]
  /\ ~ listed_in_groups ByScope
         (buildNotes sample_now [sample_scoped_breaking; sample_feature]
                     no_options)
         sample_scoped_breaking
  /\ ~ listed_in_groups ByAuthor
         (buildNotes sample_now [sample_scoped_breaking; sample_feature]
                     no_options)
         sample_scoped_breaking.
Proof.
  assert (H1 : In sample_scoped_breaking
                  [sample_scoped_breaking; sample_feature])
    by (left; reflexivity).
  assert (H2 : breaking sample_scoped_breaking = false) by reflexivity.
  assert (H3 : scope sample_scoped_breaking = Some (lit "breaking"))
    by reflexivity.
  assert (H4 : author sample_scoped_breaking = lit "breaking")
    by reflexivity.
  destruct (group_named_breaking_skipped sample_now
              [sample_scoped_breaking; sample_feature] no_options)
    as [_ [Hs [Ha _]]].
  split; [exact H1|]. split; [exact H2|]. split; [exact H3|].
  split; [vm_compute; reflexivity|].
  split; [exact (proj1 (Hs _ H1 H2 H3))|exact (proj1 (Ha _ H1 H2 H4))].
Defined.

(** C10 as stated fails for the author clause, which speaks of every
    commit: a breaking commit whose author is [breaking] is not omitted
    from the document under author grouping.  Its line stands in the
    section of breaking changes. *)
Lemma flagged_commit_of_author_breaking_is_shown :
  author sample_flagged_by_breaking = lit "breaking"
  /\ breaking sample_flagged_by_breaking = true
  /\ markdownLines sample_formatDate
       (buildNotes sample_now [sample_flagged_by_breaking] no_options)
       ByAuthor
     = Ok [ lit "# Release Notes";
            lit "> Generated on 2024-05-03";
            [];
            lit "## " ++ EMOJI_MAP Breaking ++ lit " Breaking Changes" ++ nl;
            lit "- " ++ EMOJI_MAP Docs
              ++ lit " list breaking changes [BREAKING]";
            [] ]
  /\ formatCommit sample_flagged_by_breaking true
     = EMOJI_MAP Docs ++ lit " list breaking changes [BREAKING]"
  /\ listed_in_breaking
       (buildNotes sample_now [sample_flagged_by_breaking] no_options)
       sample_flagged_by_breaking
  /\ ~ (forall c,
          In c [sample_flagged_by_breaking] -> author c = lit "breaking" ->
          ~ listed_in_groups ByAuthor
              (buildNotes sample_now [sample_flagged_by_breaking] no_options)
              c
          /\ ~ listed_in_breaking
                (buildNotes sample_now [sample_flagged_by_breaking]
                            no_options) c).
Proof.
  assert (Hl : listed_in_breaking
                 (buildNotes sample_now [sample_flagged_by_breaking]
                             no_options)
                 sample_flagged_by_breaking)
    by (apply buildNotes_breaking; split; [left|]; reflexivity).
  split; [reflexivity|]. split; [reflexivity|].
  split; [vm_compute; reflexivity|]. split; [vm_compute; reflexivity|].
  split; [exact Hl|].
  intros H.
  destruct (H sample_flagged_by_breaking (or_introl eq_refl) eq_refl)
    as [_ Hn].
  apply Hn. exact Hl.
Qed.

(** C9.  The code breaks the claim on a recognized format: under scope
    grouping a commit whose scope is [constructor] makes the markdown and
    the plain-text rendering throw a TypeError, because the read of
    [grouped[scope]] gives the inherited constructor function, which has
    no [push]; under author grouping an author of that name does the
    same.  The same collection is rendered under category grouping, and
    serialized as JSON. *)
Theorem recognized_format_throws_on_inherited_key :
  scope sample_by_constructor = Some (lit "constructor")
  /\ generateReleaseNotes sample_formatDate sample_now sample_stringify
       [sample_by_constructor]
       (mkOptions None (Some ByScope) (Some (lit "markdown")) None None)
     = Throw (lit "TypeError: grouped[scope].push is not a function")
  /\ generateReleaseNotes sample_formatDate sample_now sample_stringify
       [sample_by_constructor]
       (mkOptions None (Some ByScope) (Some (lit "text")) None None)
     = Throw (lit "TypeError: grouped[scope].push is not a function")
  /\ generateReleaseNotes sample_formatDate sample_now sample_stringify
       [sample_by_constructor]
       (mkOptions None (Some ByAuthor) None None None)
     = Throw (lit "TypeError: grouped[commit.author].push is not a function")
  /\ generateReleaseNotes sample_formatDate sample_now sample_stringify
       [sample_by_constructor]
       (mkOptions None (Some ByScope) (Some (lit "json")) None None)
     = Ok (lit "{}")
  /\ generateReleaseNotes sample_formatDate sample_now sample_stringify
       [sample_by_constructor] no_options
     = Ok (join nl
             [ lit "# Release Notes";
               lit "> Generated on 2024-05-03";
               [];
               lit "## " ++ EMOJI_MAP Fix ++ lit " Fix" ++ nl;
               lit "- " ++ EMOJI_MAP Fix
                 ++ lit " (constructor) keep the prototype";
               [] ]).
Proof.
  split; [reflexivity|].
  repeat split; vm_compute; reflexivity.
Qed.

(** Scenario D of the specification: a breaking [fix] and a feature under
    category grouping.  The breaking commit stands under the heading of
    breaking changes only; there is no [Fix] section. *)
Example scenario_D :
  markdownLines sample_formatDate
    (buildNotes sample_now [sample_breaking; sample_feature] no_options)
    ByType
  = Ok
    [ lit "# Release Notes";
      lit "> Generated on 2024-05-03";
      [];
      lit "## " ++ EMOJI_MAP Breaking ++ lit " Breaking Changes" ++ nl;
      lit "- " ++ EMOJI_MAP Fix ++ lit " (api) drop v1 tokens [BREAKING]";
      [];
      lit "## " ++ EMOJI_MAP Feature ++ lit " Feature" ++ nl;
      lit "- " ++ EMOJI_MAP Feature ++ lit " (api) add search";
      [] ].
Proof. vm_compute. reflexivity. Qed.

(** The same commits under scope grouping: the [api] section holds the
    feature only. *)
Example scenario_D_by_scope :
  markdownLines sample_formatDate
    (buildNotes sample_now [sample_breaking; sample_feature] no_options)
    ByScope
  = Ok
    [ lit "# Release Notes";
      lit "> Generated on 2024-05-03";
      [];
      lit "## " ++ EMOJI_MAP Breaking ++ lit " Breaking Changes" ++ nl;
      lit "- " ++ EMOJI_MAP Fix ++ lit " (api) drop v1 tokens [BREAKING]";
      [];
      lit "## " ++ EMOJI_SCOPE ++ lit " api" ++ nl;
      lit "- " ++ EMOJI_MAP Feature ++ lit " add search";
      [] ].
Proof. vm_compute. reflexivity. Qed.

(** A commit that is not breaking and whose scope is [breaking] leaves no
    trace under scope grouping: only the header is emitted. *)
Example scenario_scope_named_breaking :
  markdownLines sample_formatDate
    (buildNotes sample_now [sample_scoped_breaking] no_options) ByScope
  = Ok [ lit "# Release Notes"; lit "> Generated on 2024-05-03"; [] ].
Proof. vm_compute. reflexivity. Qed.

(* ================================================================= *)
(** * Further properties of the code *)

(** ** The parser on messages of the conventional form *)

Lemma trimStart_app_ws (u t : jsstring) :
  forallb isWhiteSpace u = true -> trimStart (u ++ t) = trimStart t.
Proof.
  induction u as [|c u IH]; simpl; intros H; [reflexivity|].
  apply andb_true_iff in H. destruct H as [-> H]. auto.
Qed.

Lemma trim_app_ws (u t : jsstring) :
  forallb isWhiteSpace u = true -> trim (u ++ t) = trim t.
Proof. intros H. unfold trim. rewrite trimStart_app_ws; auto. Qed.

Lemma desc_text_head (d : option jsstring) :
  match desc_text d with
  | x :: _ => dot x = false
  | [] => True
  end.
Proof. destruct d; simpl; auto. Qed.

Lemma desc_text_inj (d d' : option jsstring) :
  desc_text d = desc_text d' -> d = d'.
Proof.
  destruct d, d'; simpl; intros H; try discriminate; [|reflexivity].
  injection H as ->. reflexivity.
Qed.

Lemma forallb_app_inv {A} (p : A -> bool) (a b : list A) :
  forallb p (a ++ b) = true -> forallb p a = true /\ forallb p b = true.
Proof. rewrite forallb_app, andb_true_iff. auto. Qed.

(** A text that is empty or starts with a line terminator. *)
Lemma takeWhile_dot_stop (t D : jsstring) :
  forallb dot t = true ->
  match D with x :: _ => dot x = false | [] => True end ->
  takeWhile dot (t ++ D) = t.
Proof. intros H HD. apply takeWhile_app; assumption. Qed.

(** When the white space after the colon holds no line break and the
    title starts with a code unit that is not white space, every way of
    cutting the text after the colon into white space, a line and a rest
    that is empty or starts with a line terminator agrees on the trimmed
    line and on the rest. *)
Lemma tail_cut_unique (ws t D ws' t' D' : jsstring) :
  forallb isWhiteSpace ws = true -> forallb dot ws = true ->
  forallb dot t = true ->
  match t with c :: _ => isWhiteSpace c = false | [] => False end ->
  match D with x :: _ => dot x = false | [] => True end ->
  forallb isWhiteSpace ws' = true -> forallb dot t' = true ->
  match D' with x :: _ => dot x = false | [] => True end ->
  ws ++ t ++ D = ws' ++ t' ++ D' ->
  trim t' = trim t /\ D' = D.
Proof.
  intros Hsp Hws Ht Hhd HD Hws' Ht' HD' E.
  apply app_eq_app in E. destruct E as [u [[E1 E2]|[E1 E2]]].
  - subst ws.
    apply forallb_app_inv in Hws. destruct Hws as [_ Hu].
    apply forallb_app_inv in Hsp. destruct Hsp as [_ Hus].
    assert (Hrun : takeWhile dot (t' ++ D') = u ++ t).
    { rewrite E2, app_assoc. apply takeWhile_dot_stop; [|exact HD].
      rewrite forallb_app, Hu, Ht. reflexivity. }
    rewrite takeWhile_dot_stop in Hrun by assumption. subst t'.
    rewrite <- app_assoc in E2. apply app_inv_head in E2.
    apply app_inv_head in E2.
    split; [apply trim_app_ws; exact Hus|exact E2].
  - subst ws'.
    apply forallb_app_inv in Hws'. destruct Hws' as [_ Hu].
    destruct u as [|c u].
    + simpl in E2.
      assert (Hrun : takeWhile dot (t' ++ D') = t)
        by (rewrite <- E2; apply takeWhile_dot_stop; assumption).
      rewrite takeWhile_dot_stop in Hrun by assumption. subst t'.
      apply app_inv_head in E2. auto.
    + exfalso. destruct t as [|x t]; [exact Hhd|].
      simpl in E2. injection E2 as -> _.
      simpl in Hu. rewrite Hhd in Hu. discriminate.
Qed.

Lemma tail_reading_unique (ws t : jsstring) (d : option jsstring)
  (ws' t' : jsstring) (d' : option jsstring) :
  forallb isWhiteSpace ws = true -> forallb dot ws = true ->
  forallb dot t = true ->
  match t with c :: _ => isWhiteSpace c = false | [] => False end ->
  forallb isWhiteSpace ws' = true -> forallb dot t' = true ->
  ws ++ t ++ desc_text d = ws' ++ t' ++ desc_text d' ->
  trim t' = trim t /\ d' = d.
Proof.
  intros Hsp Hws Ht Hhd Hws' Ht' E.
  destruct (tail_cut_unique _ _ _ _ _ _ Hsp Hws Ht Hhd (desc_text_head d)
              Hws' Ht' (desc_text_head d') E) as [H1 H2].
  split; [exact H1|apply desc_text_inj; exact H2].
Qed.

(** X1.  A message written in the conventional form, whose white space
    after the colon holds no line break and whose title starts with a
    code unit that is not white space, is parsed back into its parts: the
    category of its token, its scope, its exclamation mark (or the
    marker) as the breaking flag, its title trimmed and its body
    trimmed. *)
Theorem parse_conventional_message (sh : Shape) :
  well_shaped sh ->
  forallb dot (s_space sh) = true ->
  match s_title sh with c :: _ => isWhiteSpace c = false | [] => False end ->
  parseConventionalCommit (shape_text sh)
  = Ok {| p_type := mapCommitType (s_token sh);
          p_scope := s_scope sh;
          p_breaking :=
            s_bang sh || includes (shape_text sh) BREAKING_MARKER;
          p_message := trim (s_title sh);
          p_description := option_map trim (s_desc sh) |}.
Proof.
  intros Hw Hsp Hhd.
  destruct (exec commit_regex (shape_text sh)) as [m|] eqn:E;
    [|exfalso; exact (commit_regex_complete sh Hw E)].
  destruct (exec_inv _ _ E) as [sh' [Hw' [Hs Hc]]].
  destruct (header_unique sh' sh Hw' Hw (eq_sym Hs)) as [H1 [H2 H3]].
  rewrite (parse_matched _ m sh' E Hc). unfold parsed_of_shape.
  assert (Htail : trim (s_title sh') = trim (s_title sh)
                  /\ s_desc sh' = s_desc sh).
  { destruct Hw as [_ [_ [Hws [Ht _]]]].
    destruct Hw' as [_ [_ [Hws' [Ht' _]]]].
    unfold shape_text, header in Hs. rewrite H1, H2, H3 in Hs.
    rewrite <- !app_assoc in Hs.
    repeat apply app_inv_head in Hs.
    exact (tail_reading_unique _ _ _ _ _ _ Hws Hsp Ht Hhd Hws' Ht' Hs). }
  destruct Htail as [Ht Hd]. rewrite H1, H2, H3, Ht, Hd. reflexivity.
Qed.

Lemma parse_conventional_message_witness :
  parseConventionalCommit (lit "FeAt(core)!: drop v1 api")
  = Ok (mkParsed Feature (Some (lit "core")) true (lit "drop v1 api") None).
Proof.
  exact (parse_conventional_message sample_shape sample_shape_well_shaped
           eq_refl eq_refl).
Defined.

(** ** Invariants of the parsed record *)

Lemma in_trimStart (c : N) (s : jsstring) : In c (trimStart s) -> In c s.
Proof.
  induction s as [|x s IH]; simpl; [auto|].
  destruct (isWhiteSpace x); simpl; auto.
Qed.

Lemma in_trim (c : N) (s : jsstring) : In c (trim s) -> In c s.
Proof.
  unfold trim, trimEnd. intros H. apply in_trimStart.
  apply in_rev in H. apply in_trimStart in H. apply in_rev. exact H.
Qed.

Lemma first_line_no_feed (s : jsstring) : ~ In 10%N (fst (split_lines s)).
Proof.
  induction s as [|c s IH]; simpl; [tauto|].
  destruct (split_lines s) as [l ls]. simpl in IH.
  destruct (c =? 10)%N eqn:E; simpl; [tauto|].
  apply N.eqb_neq in E. intros [H|H]; [congruence|tauto].
Qed.

Lemma dot_no_feed (t : jsstring) : forallb dot t = true -> ~ In 10%N t.
Proof.
  intros H Hin. rewrite forallb_forall in H. apply H in Hin. discriminate.
Qed.

(** Every message is parsed along one of the two branches. *)
Lemma parse_cases (msg : jsstring) :
  (exists m sh,
     exec commit_regex msg = Some m /\ well_shaped sh
     /\ msg = shape_text sh
     /\ parseConventionalCommit msg = Ok (parsed_of_shape msg sh))
  \/ (exec commit_regex msg = None
      /\ parseConventionalCommit msg = Ok (parsed_unstructured msg)).
Proof.
  destruct (exec commit_regex msg) as [m|] eqn:E.
  - left. destruct (exec_inv _ _ E) as [sh [Hw [Hs Hc]]].
    exists m, sh. split; [reflexivity|]. split; [exact Hw|].
    split; [exact Hs|]. eapply parse_matched; eauto.
  - right. split; [reflexivity|apply parse_unmatched; exact E].
Qed.

Lemma mapCommitType_not_breaking (w : jsstring) :
  mapCommitType w <> Breaking.
Proof.
  unfold mapCommitType, typeMap. simpl.
  repeat match goal with
         | |- context [str_eqb ?a ?b] => destruct (str_eqb a b)
         end; discriminate.
Qed.

(** X2.  The scope of a parsed record, when present, is never empty and
    holds no closing parenthesis, and the message then starts with a
    token followed by the scope in parentheses; a message that the
    pattern does not match has no scope. *)
Theorem parsed_scope_invariant (msg : jsstring) (p : Parsed) :
  parseConventionalCommit msg = Ok p ->
  (exec commit_regex msg = None -> p_scope p = None)
  /\ (forall s, p_scope p = Some s ->
       s <> [] /\ forallb not_rparen s = true
       /\ exists tok rest,
            spells_token tok /\ msg = tok ++ lit "(" ++ s ++ lit ")" ++ rest).
Proof.
  intros Hp.
  destruct (parse_cases msg) as [[m [sh [E [Hw [Hs Hq]]]]]|[E Hq]];
    rewrite Hq in Hp; injection Hp as <-; simpl.
  - split; [congruence|]. intros s Hsc.
    destruct Hw as [Htok [Hv _]]. rewrite Hsc in Hv. destruct Hv as [H1 H2].
    split; [exact H1|]. split; [exact H2|].
    exists (s_token sh),
      (bang_text (s_bang sh) ++ lit ":" ++ s_space sh ++ s_title sh
       ++ desc_text (s_desc sh)).
    split; [exact Htok|].
    rewrite Hs at 1. unfold shape_text, header. rewrite Hsc.
    unfold scope_text. rewrite <- !app_assoc. reflexivity.
  - split; [reflexivity|discriminate].
Qed.

Lemma parsed_scope_invariant_witness :
  parseConventionalCommit (lit "fix(parser): handle (nested) input")
  = Ok (mkParsed Fix (Some (lit "parser")) false
                 (lit "handle (nested) input") None)
  /\ lit "parser" <> []
  /\ forallb not_rparen (lit "parser") = true.
Proof.
  assert (H : parseConventionalCommit
                (lit "fix(parser): handle (nested) input")
              = Ok (mkParsed Fix (Some (lit "parser")) false
                             (lit "handle (nested) input") None))
    by (vm_compute; reflexivity).
  split; [exact H|].
  destruct (proj2 (parsed_scope_invariant _ _ H) (lit "parser") eq_refl)
    as [H1 [H2 _]].
  split; [exact H1|exact H2].
Defined.

(** X3.  The title of a parsed record never holds a line feed; on a
    structured match it holds no line terminator at all.  Its
    description, when present, has no white space at either end, and on
    a message that the pattern does not match it is never the empty
    string. *)
Theorem parsed_title_single_line (msg : jsstring) (p : Parsed) :
  parseConventionalCommit msg = Ok p ->
  ~ In 10%N (p_message p)
  /\ (exec commit_regex msg <> None -> forallb dot (p_message p) = true)
  /\ (forall d, p_description p = Some d ->
       (forall c r, d = c :: r -> isWhiteSpace c = false)
       /\ (forall c r, d = r ++ [c] -> isWhiteSpace c = false)
       /\ (exec commit_regex msg = None -> d <> [])).
Proof.
  intros Hp.
  destruct (parse_cases msg) as [[m [sh [E [Hw [Hs Hq]]]]]|[E Hq]];
    rewrite Hq in Hp; injection Hp as <-; simpl.
  - destruct Hw as [_ [_ [_ [Ht _]]]].
    assert (Hdot : forallb dot (trim (s_title sh)) = true).
    { apply forallb_forall. intros c Hc. apply in_trim in Hc.
      rewrite forallb_forall in Ht. auto. }
    split; [apply dot_no_feed; exact Hdot|]. split; [auto|].
    intros d Hd. destruct (s_desc sh) as [x|]; [|discriminate].
    simpl in Hd. injection Hd as <-.
    split; [apply trim_head|]. split; [apply trim_last|congruence].
  - split; [intros H; apply in_trim in H; exact (first_line_no_feed _ H)|].
    split; [congruence|].
    intros d Hd.
    destruct (trim (join nl (snd (split_lines msg)))) as [|c r] eqn:Et;
      [discriminate|].
    simpl in Hd. injection Hd as <-. rewrite <- Et.
    split; [apply trim_head|]. split; [apply trim_last|].
    intros _. rewrite Et. discriminate.
Qed.

Lemma parsed_title_single_line_witness :
  exists p,
    parseConventionalCommit
      (lit "update readme" ++ nl ++ nl ++ lit "  more words  " ++ nl) = Ok p
    /\ p_message p = lit "update readme"
    /\ p_description p = Some (lit "more words")
    /\ ~ In 10%N (p_message p).
Proof.
  eexists. split; [vm_compute; reflexivity|].
  split; [reflexivity|]. split; [reflexivity|].
  refine (proj1 (parsed_title_single_line
                   (lit "update readme" ++ nl ++ nl ++ lit "  more words  "
                    ++ nl) _ _)).
  vm_compute. reflexivity.
Defined.

Lemma parse_breaking_inv (msg : jsstring) (p : Parsed) :
  parseConventionalCommit msg = Ok p ->
  p_type p = Breaking ->
  exec commit_regex msg = None
  /\ includes msg BREAKING_MARKER = true
  /\ p_breaking p = true.
Proof.
  intros Hp Hty.
  destruct (parse_cases msg) as [[m [sh [E [Hw [Hs Hq]]]]]|[E Hq]];
    rewrite Hq in Hp; injection Hp as <-; simpl in *.
  - exfalso. exact (mapCommitType_not_breaking _ Hty).
  - split; [exact E|].
    unfold inferType in Hty.
    destruct (includes msg BREAKING_MARKER); [auto|].
    repeat match type of Hty with
           | context [if ?b then _ else _] =>
               destruct b; try discriminate
           end.
Qed.

(** X4.  The parser gives the category [breaking] only to a message
    that the pattern does not match and that holds the marker; whenever
    the category is [breaking] the breaking flag is set.  No token of
    the structured form leads to this category. *)
Theorem parsed_breaking_category (msg : jsstring) (p : Parsed) :
  parseConventionalCommit msg = Ok p ->
  p_type p = Breaking ->
  exec commit_regex msg = None
  /\ includes msg BREAKING_MARKER = true
  /\ p_breaking p = true
  /\ forall w, mapCommitType w <> Breaking.
Proof.
  intros Hp Hty.
  destruct (parse_breaking_inv msg p Hp Hty) as [H1 [H2 H3]].
  repeat split; auto. apply mapCommitType_not_breaking.
Qed.

Lemma parsed_breaking_category_witness :
  exists p,
    parseConventionalCommit
      (lit "drop the old api" ++ nl ++ nl
       ++ lit "BREAKING CHANGE: v1 routes are gone") = Ok p
    /\ p_type p = Breaking /\ p_breaking p = true.
Proof.
  eexists. split; [vm_compute; reflexivity|]. split; [reflexivity|].
  refine (proj1 (proj2 (proj2 (parsed_breaking_category
    (lit "drop the old api" ++ nl ++ nl
     ++ lit "BREAKING CHANGE: v1 routes are gone") _ _ _)))).
  - vm_compute. reflexivity.
  - reflexivity.
Defined.

(** ** Messages that fall through to the inference *)

Lemma scope_bang_head (sc : option jsstring) (b : bool) (r : jsstring) :
  match scope_text sc ++ bang_text b ++ lit ":" ++ r with
  | x :: _ => isLetter x = false
  | [] => True
  end.
Proof. destruct sc, b; reflexivity. Qed.

(** The token, the scope, the exclamation mark and the text after the
    colon are determined by the message. *)
Lemma header_cut_unique (tok tok' : jsstring) (sc sc' : option jsstring)
  (b b' : bool) (r r' : jsstring) :
  spells_token tok -> valid_scope sc ->
  spells_token tok' -> valid_scope sc' ->
  tok ++ scope_text sc ++ bang_text b ++ lit ":" ++ r
  = tok' ++ scope_text sc' ++ bang_text b' ++ lit ":" ++ r' ->
  tok = tok' /\ sc = sc' /\ b = b' /\ r = r'.
Proof.
  intros Htok Hsc Htok' Hsc' E.
  assert (Htk : tok = tok').
  { rewrite <- (takeWhile_app isLetter tok _ (spells_token_letters _ Htok)
                  (scope_bang_head sc b r)).
    rewrite E.
    apply takeWhile_app;
      [apply spells_token_letters; exact Htok'|apply scope_bang_head]. }
  subst tok'. apply app_inv_head in E. split; [reflexivity|].
  destruct sc as [x|], sc' as [x'|]; destruct b, b'; simpl in E;
    try discriminate;
    try (injection E as ->; repeat split; reflexivity);
    injection E as E; rewrite <- !app_assoc in E;
    destruct Hsc as [_ Hx]; destruct Hsc' as [_ Hx'];
    destruct (split_at_first not_rparen 41 x x' _ _ Hx Hx' eq_refl E)
      as [-> E'];
    try discriminate;
    injection E' as ->; repeat split; reflexivity.
Qed.

(** A matched message starts with the spelling of a token, and the
    letters stop there. *)
Lemma matched_leading_letters (msg : jsstring) (m : mstate) :
  exec commit_regex msg = Some m -> spells_token (takeWhile isLetter msg).
Proof.
  intros E. destruct (exec_inv _ _ E) as [sh [[Htok _] [Hs _]]].
  subst msg. unfold shape_text, header. rewrite <- app_assoc.
  rewrite takeWhile_app;
    [exact Htok|apply spells_token_letters; exact Htok
    |apply scope_bang_head].
Qed.

(** X5.  A message whose leading run of letters does not spell one of
    the eight tokens ([feature: ...], [style: ...], [Merge ...]) is not
    matched by the pattern: it has no scope, its breaking flag is the
    presence of the marker, its category is inferred by the priority
    list over the whole message and its title is its trimmed first
    line. *)
Theorem unknown_token_is_unstructured (msg : jsstring) :
  ~ spells_token (takeWhile isLetter msg) ->
  exec commit_regex msg = None
  /\ parseConventionalCommit msg
     = Ok {| p_type := infer_by_priority msg;
             p_scope := None;
             p_breaking := includes msg BREAKING_MARKER;
             p_message := trim (fst (split_lines msg));
             p_description :=
               or_undefined (trim (join nl (snd (split_lines msg)))) |}.
Proof.
  intros Hn.
  assert (E : exec commit_regex msg = None).
  { destruct (exec commit_regex msg) as [m|] eqn:E; [|reflexivity].
    exfalso. apply Hn. eapply matched_leading_letters. exact E. }
  split; [exact E|].
  rewrite (parse_unmatched _ E). unfold parsed_unstructured.
  rewrite inferType_by_priority. reflexivity.
Qed.

Lemma unknown_token_is_unstructured_witness :
  ~ spells_token (takeWhile isLetter (lit "feature(api): add search"))
  /\ parseConventionalCommit (lit "feature(api): add search")
     = Ok (mkParsed Feature None false (lit "feature(api): add search")
                    None).
Proof.
  assert (H : ~ spells_token
                  (takeWhile isLetter (lit "feature(api): add search"))).
  { intros [tok [Hin [Hl _]]]. simpl in Hin.
    repeat (destruct Hin as [<-|Hin]; [discriminate|]). exact Hin. }
  split; [exact H|].
  rewrite (proj2 (unknown_token_is_unstructured _ H)).
  vm_compute. reflexivity.
Defined.

(** X6.  A conventional first line followed by a single line feed (and
    then nothing, or text that does not start with a second line feed)
    is not matched by the pattern: without the blank line between title
    and body, and also with a trailing line feed, the message is read by
    the inference. *)
Theorem body_needs_blank_line (sh : Shape) (b : jsstring) :
  well_shaped sh -> s_desc sh = None ->
  forallb dot (s_space sh) = true ->
  match s_title sh with c :: _ => isWhiteSpace c = false | [] => False end ->
  match b with c :: _ => c <> 10%N | [] => True end ->
  exec commit_regex (shape_text sh ++ nl ++ b) = None
  /\ parseConventionalCommit (shape_text sh ++ nl ++ b)
     = Ok (parsed_unstructured (shape_text sh ++ nl ++ b)).
Proof.
  intros Hw Hd Hsp Hhd Hb.
  assert (E : exec commit_regex (shape_text sh ++ nl ++ b) = None).
  { destruct (exec commit_regex (shape_text sh ++ nl ++ b)) as [m|] eqn:E;
      [|reflexivity].
    exfalso. destruct (exec_inv _ _ E) as [sh' [Hw' [Hs _]]].
    destruct Hw as [Htok [Hsc [Hws [Ht _]]]].
    destruct Hw' as [Htok' [Hsc' [Hws' [Ht' _]]]].
    unfold shape_text, header in Hs. rewrite Hd in Hs. simpl desc_text in Hs.
    rewrite app_nil_r in Hs. rewrite <- !app_assoc in Hs.
    apply header_cut_unique in Hs; auto.
    destruct Hs as [_ [_ [_ Hs]]].
    destruct (tail_cut_unique _ _ (nl ++ b) _ _ (desc_text (s_desc sh'))
                Hws Hsp Ht Hhd eq_refl Hws' Ht'
                (desc_text_head (s_desc sh')) Hs) as [_ HD].
    destruct (s_desc sh') as [x|]; simpl in HD; [|discriminate].
    injection HD as HD. subst b. apply Hb. reflexivity. }
  split; [exact E|apply parse_unmatched; exact E].
Qed.

Lemma body_needs_blank_line_witness :
  parseConventionalCommit (lit "fix: close the socket" ++ nl ++ lit "see #12")
  = Ok (mkParsed Fix None false (lit "fix: close the socket")
                 (Some (lit "see #12")))
  /\ parseConventionalCommit (lit "docs: fix typo" ++ nl)
     = Ok (mkParsed Fix None false (lit "docs: fix typo") None).
Proof.
  assert (Hw : well_shaped
                 (mkShape (lit "fix") None false (lit " ")
                          (lit "close the socket") None)).
  { split; [|split; [|split; [|split]]]; try reflexivity.
    - exists (lit "fix"). split; [right; left; reflexivity|].
      split; reflexivity.
    - discriminate. }
  assert (Hw2 : well_shaped
                  (mkShape (lit "docs") None false (lit " ")
                           (lit "fix typo") None)).
  { split; [|split; [|split; [|split]]]; try reflexivity.
    - exists (lit "docs"). split; [right; right; left; reflexivity|].
      split; reflexivity.
    - discriminate. }
  split.
  - exact (proj2 (body_needs_blank_line _ (lit "see #12") Hw eq_refl
                    eq_refl eq_refl ltac:(discriminate))).
  - exact (proj2 (body_needs_blank_line _ [] Hw2 eq_refl eq_refl eq_refl I)).
Defined.

(** ** The merge of pull-request data *)

Lemma existsb_map_comp {A B} (f : B -> bool) (g : A -> B) (l : list A) :
  existsb f (map g l) = existsb (fun a => f (g a)) l.
Proof. induction l as [|a l IH]; simpl; [reflexivity|]. rewrite IH. auto. Qed.

Lemma some_label_rule (ls : list jsstring) (w : string) (t : CommitType) :
  some_label (map toLowerCase ls) w = label_rule_matches ls ([lit w], t).
Proof.
  unfold some_label, label_rule_matches. rewrite existsb_map_comp.
  induction ls as [|l ls IH]; simpl; [reflexivity|].
  rewrite IH, orb_false_r. reflexivity.
Qed.

Lemma bug_fix_label_rule (ls : list jsstring) :
  existsb (fun l => includes l (lit "bug") || includes l (lit "fix"))
          (map toLowerCase ls)
  = label_rule_matches ls ([lit "bug"; lit "fix"], Fix).
Proof.
  unfold label_rule_matches. rewrite existsb_map_comp.
  induction ls as [|l ls IH]; simpl; [reflexivity|].
  rewrite IH, orb_false_r. reflexivity.
Qed.

Lemma breaking_label_rule (ls : list jsstring) :
  some_label (map toLowerCase ls) "breaking" = has_breaking_label ls.
Proof.
  unfold some_label, has_breaking_label. apply existsb_map_comp.
Qed.

Lemma applyLabels_other (pr : PullRequest) (c : ParsedCommit) :
  type c = Other ->
  type (applyLabels pr c) = type_by_labels (labels pr)
  /\ breaking (applyLabels pr c)
     = breaking c || has_breaking_label (labels pr).
Proof.
  intros Hty. unfold applyLabels. rewrite Hty.
  rewrite (some_label_rule _ "feature" Feature), bug_fix_label_rule,
    (some_label_rule _ "doc" Docs), (some_label_rule _ "perf" Perf),
    (some_label_rule _ "refactor" Refactor), (some_label_rule _ "test" Test),
    (some_label_rule _ "build" Build), breaking_label_rule.
  unfold type_by_labels, label_table. simpl find.
  destruct (has_breaking_label (labels pr));
    repeat match goal with
           | |- context [if ?b then _ else _] => destruct b
           end; simpl; rewrite ?Hty, ?orb_true_r, ?orb_false_r; auto.
Qed.

Lemma applyTitle_frame (pr : PullRequest) (c : ParsedCommit) :
  type (applyTitle pr c) = type c
  /\ breaking (applyTitle pr c) = breaking c
  /\ description (applyTitle pr c) = description c.
Proof.
  unfold applyTitle.
  destruct (length (message c) <? length (title pr)); simpl; auto.
Qed.

Lemma applyBody_frame (pr : PullRequest) (c : ParsedCommit) :
  type (applyBody pr c) = type c
  /\ breaking (applyBody pr c) = breaking c
  /\ message (applyBody pr c) = message c.
Proof.
  unfold applyBody.
  destruct (negb (truthy (description c)) && truthy (body pr)); simpl; auto.
Qed.

Lemma mergePR_type_breaking (pr : PullRequest) (c : ParsedCommit) :
  type (mergePR pr c) = type (applyLabels pr c)
  /\ breaking (mergePR pr c) = breaking (applyLabels pr c).
Proof.
  unfold mergePR.
  destruct (applyBody_frame pr (applyTitle pr (applyLabels pr c)))
    as [-> [-> _]].
  destruct (applyTitle_frame pr (applyLabels pr c)) as [-> [-> _]].
  auto.
Qed.

(** X7.  On a commit whose category is [other] the merge sets the
    category by the labels of the pull request: the names are
    lower-cased and searched for [feature], then [bug] or [fix], then
    [doc], [perf], [refactor], [test], [build]; the first rule with a
    matching label wins, whatever the order of the labels, and the
    category stays [other] when none matches.  A label that holds
    [breaking] sets the breaking flag, whatever the category becomes. *)
Theorem merge_label_priority (pr : PullRequest) (c : ParsedCommit) :
  type c = Other ->
  type (mergePR pr c) = type_by_labels (labels pr)
  /\ breaking (mergePR pr c) = breaking c || has_breaking_label (labels pr)
  /\ (forall pre rule post,
        label_table = pre ++ rule :: post ->
        forallb (fun r => negb (label_rule_matches (labels pr) r)) pre = true ->
        label_rule_matches (labels pr) rule = true ->
        type (mergePR pr c) = snd rule)
  /\ (forallb (fun r => negb (label_rule_matches (labels pr) r)) label_table
      = true ->
      type (mergePR pr c) = Other).
Proof.
  intros Hty.
  destruct (mergePR_type_breaking pr c) as [Ht Hb].
  destruct (applyLabels_other pr c Hty) as [Ht' Hb'].
  rewrite Ht, Hb, Ht', Hb'.
  split; [reflexivity|]. split; [reflexivity|]. split.
  - intros pre rule post Etab Hpre Hr. unfold type_by_labels.
    rewrite Etab, (find_first _ _ _ _ Hpre Hr). reflexivity.
  - intros Hnone. unfold type_by_labels.
    destruct (find (label_rule_matches (labels pr)) label_table) as [r|] eqn:F;
      [|reflexivity].
    apply find_some in F. destruct F as [Hin Hr].
    rewrite forallb_forall in Hnone. apply Hnone in Hin.
    rewrite Hr in Hin. discriminate.
Qed.

Lemma merge_label_priority_witness :
  type sample_other = Other
  /\ type (mergePR (mkPR 7 (lit "Tidy") None
                         [lit "documentation"; lit "BugFix"; lit "Breaking"])
                   sample_other) = Fix
  /\ breaking (mergePR (mkPR 7 (lit "Tidy") None
                             [lit "documentation"; lit "BugFix";
                              lit "Breaking"])
                       sample_other) = true.
Proof.
  split; [reflexivity|].
  destruct (merge_label_priority
              (mkPR 7 (lit "Tidy") None
                    [lit "documentation"; lit "BugFix"; lit "Breaking"])
              sample_other eq_refl) as [Ht [Hb _]].
  rewrite Ht, Hb. split; vm_compute; reflexivity.
Defined.

Lemma mergePR_flag_kept (pr : PullRequest) (c : ParsedCommit) :
  breaking c = true -> breaking (mergePR pr c) = true.
Proof.
  intros Hc. destruct (mergePR_type_breaking pr c) as [_ ->].
  unfold applyLabels.
  destruct (type c); try exact Hc.
  repeat match goal with
         | |- context [if ?b then _ else _] => destruct b
         end; simpl; auto.
Qed.

Lemma mergePR_no_new_breaking (pr : PullRequest) (c : ParsedCommit) :
  type (mergePR pr c) = Breaking -> type c = Breaking.
Proof.
  destruct (mergePR_type_breaking pr c) as [-> _].
  unfold applyLabels.
  destruct (type c) eqn:Ety; try (rewrite Ety; discriminate);
    [reflexivity|].
  repeat match goal with
         | |- context [if ?b then _ else _] => destruct b
         end; simpl; rewrite ?Ety; discriminate.
Qed.

(** X8.  On any commit the merge never clears the breaking flag and never
    makes the category [breaking].  The new title is the title of the
    pull request when that is strictly longer than the title of the
    commit, and the title of the commit otherwise, so that its length is
    the larger of the two.  The new description is the body of the pull
    request when the commit has no description (or an empty one) and the
    body is not empty, and the description of the commit otherwise.  The
    identifier, scope, author, date, request number and permalink stay
    as they are. *)
Theorem merge_only_adds (pr : PullRequest) (c : ParsedCommit) :
  (breaking c = true -> breaking (mergePR pr c) = true)
  /\ (type (mergePR pr c) = Breaking -> type c = Breaking)
  /\ (length (message c) < length (title pr) ->
      message (mergePR pr c) = title pr)
  /\ (length (title pr) <= length (message c) ->
      message (mergePR pr c) = message c)
  /\ length (message (mergePR pr c))
     = Nat.max (length (message c)) (length (title pr))
  /\ (truthy (description c) = true ->
      description (mergePR pr c) = description c)
  /\ (truthy (description c) = false -> truthy (body pr) = true ->
      description (mergePR pr c) = body pr)
  /\ (truthy (description c) = false -> truthy (body pr) = false ->
      description (mergePR pr c) = description c)
  /\ sha (mergePR pr c) = sha c /\ scope (mergePR pr c) = scope c
  /\ author (mergePR pr c) = author c /\ date (mergePR pr c) = date c
  /\ prNumber (mergePR pr c) = prNumber c
  /\ commitUrl (mergePR pr c) = commitUrl c.
Proof.
  destruct (applyLabels_frame pr c)
    as [F1 [F2 [F3 [F4 [F5 [F6 [F7 F8]]]]]]].
  assert (Hmsg : message (mergePR pr c)
                 = if length (message c) <? length (title pr)
                   then title pr else message c).
  { unfold mergePR. destruct (applyBody_frame pr (applyTitle pr
                                (applyLabels pr c))) as [_ [_ ->]].
    unfold applyTitle. rewrite F3.
    destruct (length (message c) <? length (title pr)); simpl; auto. }
  assert (Hdesc : description (mergePR pr c)
                  = if negb (truthy (description c)) && truthy (body pr)
                    then body pr else description c).
  { unfold mergePR, applyBody.
    destruct (applyTitle_frame pr (applyLabels pr c)) as [_ [_ ->]].
    rewrite F4.
    destruct (negb (truthy (description c)) && truthy (body pr)); simpl;
      [reflexivity|].
    destruct (applyTitle_frame pr (applyLabels pr c)) as [_ [_ ->]].
    exact F4. }
  split; [apply mergePR_flag_kept|].
  split; [apply mergePR_no_new_breaking|].
  split.
  { intros Hlt. rewrite Hmsg.
    replace (length (message c) <? length (title pr)) with true
      by (symmetry; apply Nat.ltb_lt; exact Hlt).
    reflexivity. }
  split.
  { intros Hle. rewrite Hmsg.
    replace (length (message c) <? length (title pr)) with false
      by (symmetry; apply Nat.ltb_ge; exact Hle).
    reflexivity. }
  split.
  { rewrite Hmsg.
    destruct (length (message c) <? length (title pr)) eqn:E.
    - apply Nat.ltb_lt in E. lia.
    - apply Nat.ltb_ge in E. lia. }
  split; [intros Hd; rewrite Hdesc, Hd; reflexivity|].
  split; [intros Hd Hb; rewrite Hdesc, Hd, Hb; reflexivity|].
  split; [intros Hd Hb; rewrite Hdesc, Hd, Hb; reflexivity|].
  unfold mergePR, applyBody, applyTitle.
  repeat match goal with
         | |- context [if ?b then _ else _] => destruct b
         end; simpl; repeat split; assumption.
Qed.

(** ** The enrichment pass *)

Lemma enrichCommit_cases (fetch : jsnumber -> result (option PullRequest))
  (c : ParsedCommit) :
  (prNumber_truthy c = None /\ enrichCommit fetch c = Ok c)
  \/ (exists n, prNumber_truthy c = Some n /\ fetch n = Ok None
                /\ enrichCommit fetch c = Ok c)
  \/ (exists n pr, prNumber_truthy c = Some n /\ fetch n = Ok (Some pr)
                   /\ enrichCommit fetch c = Ok (mergePR pr c))
  \/ (exists n e, prNumber_truthy c = Some n /\ fetch n = Throw e
                  /\ enrichCommit fetch c = Throw e).
Proof.
  unfold enrichCommit.
  destruct (prNumber_truthy c) as [n|]; [|left; auto]. right.
  destruct (fetch n) as [[pr|]|e] eqn:E; simpl.
  - right. left. eauto.
  - left. eauto.
  - right. right. eauto.
Qed.

Lemma enrich_relates (fetch : jsnumber -> result (option PullRequest))
  (cs cs' : list ParsedCommit) :
  enrichCommitsWithPRData fetch cs = Ok cs' ->
  Forall2 (fun c c' =>
             (prNumber_truthy c = None -> c' = c)
             /\ (forall n, prNumber_truthy c = Some n ->
                 fetch n = Ok None -> c' = c)
             /\ (forall n pr, prNumber_truthy c = Some n ->
                 fetch n = Ok (Some pr) -> c' = mergePR pr c)
             /\ (forall n, prNumber_truthy c = Some n ->
                 exists answer, fetch n = Ok answer))
          cs cs'.
Proof.
  revert cs'. induction cs as [|c cs IH]; intros cs'; simpl.
  - intros H. injection H as <-. constructor.
  - destruct (enrichCommit fetch c) as [c1|e] eqn:E1; simpl; [|discriminate].
    destruct (enrichCommitsWithPRData fetch cs) as [cs1|e] eqn:E2; simpl;
      [|discriminate].
    intros H. injection H as <-.
    constructor; [|apply IH; reflexivity].
    destruct (enrichCommit_cases fetch c)
      as [[Hn He]|[[n [Hn [Hf He]]]|[[n [pr [Hn [Hf He]]]]
         |[n [e [Hn [Hf He]]]]]]];
      rewrite He in E1; try discriminate; injection E1 as <-.
    + split; [reflexivity|]. split; [congruence|].
      split; intros; congruence.
    + split; [reflexivity|]. split; [reflexivity|].
      split; [intros; congruence|].
      intros n' Hn'. exists None. congruence.
    + split; [congruence|]. split; [intros; congruence|].
      split; [intros; congruence|].
      intros n' Hn'. exists (Some pr). congruence.
Qed.

(** X9.  A pass that succeeds returns as many commits as it was given,
    in the same order.  The commit at each place is the input commit at
    that place, unchanged when it has no request number (or number 0) or
    when its pull request was not found, and merged with its own pull
    request when that was found; and every request of the pass was
    answered.  Identifiers, authors and request numbers are the input's,
    place by place. *)
Theorem enrich_keeps_order (fetch : jsnumber -> result (option PullRequest))
  (cs cs' : list ParsedCommit) :
  enrichCommitsWithPRData fetch cs = Ok cs' ->
  Forall2 (fun c c' =>
             (prNumber_truthy c = None -> c' = c)
             /\ (forall n, prNumber_truthy c = Some n ->
                 fetch n = Ok None -> c' = c)
             /\ (forall n pr, prNumber_truthy c = Some n ->
                 fetch n = Ok (Some pr) -> c' = mergePR pr c)
             /\ (forall n, prNumber_truthy c = Some n ->
                 exists answer, fetch n = Ok answer))
          cs cs'
  /\ length cs' = length cs
  /\ map sha cs' = map sha cs
  /\ map author cs' = map author cs
  /\ map prNumber cs' = map prNumber cs.
Proof.
  intros H. pose proof (enrich_relates fetch cs cs' H) as H1.
  split; [exact H1|].
  clear H. induction H1 as [|c c' cs cs' Hc _ IH]; simpl.
  - auto.
  - destruct IH as [I1 [I2 [I3 I4]]].
    assert (Hf : sha c' = sha c /\ author c' = author c
                 /\ prNumber c' = prNumber c).
    { destruct Hc as [Hnone [Hmiss [Hfound Hans]]].
      destruct (prNumber_truthy c) as [n|] eqn:En;
        [|rewrite (Hnone eq_refl); auto].
      destruct (Hans n eq_refl) as [[pr|] Ha];
        [|rewrite (Hmiss n eq_refl Ha); auto].
      rewrite (Hfound n pr eq_refl Ha).
      pose proof (applyLabels_frame pr c) as F.
      unfold mergePR, applyBody, applyTitle.
      repeat match goal with
             | |- context [if ?b then _ else _] => destruct b
             end; simpl; tauto. }
    destruct Hf as [Hf1 [Hf2 Hf3]].
    rewrite I1, I2, I3, I4, Hf1, Hf2, Hf3. auto.
Qed.

Lemma enrich_keeps_order_witness :
  enrichCommitsWithPRData sample_fetch [sample_other; sample_feature]
  = Ok [mergePR sample_pr sample_other; sample_feature]
  /\ map sha [mergePR sample_pr sample_other; sample_feature]
     = map sha [sample_other; sample_feature].
Proof.
  assert (H : enrichCommitsWithPRData sample_fetch
                [sample_other; sample_feature]
              = Ok [mergePR sample_pr sample_other; sample_feature])
    by reflexivity.
  split; [exact H|].
  exact (proj1 (proj2 (proj2 (enrich_keeps_order _ _ _ H)))).
Defined.

Lemma enrich_throws_at (fetch : jsnumber -> result (option PullRequest))
  (pre post : list ParsedCommit) (c : ParsedCommit) (n : jsnumber)
  (e : jsstring) :
  prNumber_truthy c = Some n -> fetch n = Throw e ->
  (forall c0 n0, In c0 pre -> prNumber_truthy c0 = Some n0 ->
     exists answer, fetch n0 = Ok answer) ->
  enrichCommitsWithPRData fetch (pre ++ c :: post) = Throw e.
Proof.
  intros Hn Hf. induction pre as [|c0 pre IH]; intros Hpre; simpl.
  - unfold enrichCommit. rewrite Hn, Hf. reflexivity.
  - rewrite IH by (intros c1 n1 H1; apply Hpre; right; exact H1).
    destruct (enrichCommit_cases fetch c0)
      as [[Hn0 He]|[[n0 [Hn0 [Hf0 He]]]|[[n0 [pr [Hn0 [Hf0 He]]]]
         |[n0 [e0 [Hn0 [Hf0 He]]]]]]]; rewrite He; try reflexivity.
    destruct (Hpre c0 n0 (or_introl eq_refl) Hn0) as [answer Ha].
    congruence.
Qed.

(** X10.  The pass fails exactly by a transport error.  It succeeds if
    and only if every commit with a request number gets an answer (a
    pull request, or not found).  When the request of a commit throws and
    every request before it was answered, the pass fails with that
    error; and whenever the pass fails, its error is the one thrown for
    the first commit, in order, whose request could not be fetched.  With
    no request number in the collection the pass returns the collection
    as it is. *)
Theorem enrich_fails_on_first_error
  (fetch : jsnumber -> result (option PullRequest))
  (cs : list ParsedCommit) :
  ((exists cs', enrichCommitsWithPRData fetch cs = Ok cs') <->
   (forall c n, In c cs -> prNumber_truthy c = Some n ->
      exists answer, fetch n = Ok answer))
  /\ (forall pre c post n e,
        cs = pre ++ c :: post ->
        prNumber_truthy c = Some n -> fetch n = Throw e ->
        (forall c0 n0, In c0 pre -> prNumber_truthy c0 = Some n0 ->
           exists answer, fetch n0 = Ok answer) ->
        enrichCommitsWithPRData fetch cs = Throw e)
  /\ (forall e, enrichCommitsWithPRData fetch cs = Throw e ->
      exists pre c post n,
        cs = pre ++ c :: post
        /\ prNumber_truthy c = Some n /\ fetch n = Throw e
        /\ forall c0 n0, In c0 pre -> prNumber_truthy c0 = Some n0 ->
             exists answer, fetch n0 = Ok answer)
  /\ ((forall c, In c cs -> prNumber_truthy c = None) ->
      enrichCommitsWithPRData fetch cs = Ok cs).
Proof.
  assert (Hthrown : forall e, enrichCommitsWithPRData fetch cs = Throw e ->
      exists pre c post n,
        cs = pre ++ c :: post
        /\ prNumber_truthy c = Some n /\ fetch n = Throw e
        /\ forall c0 n0, In c0 pre -> prNumber_truthy c0 = Some n0 ->
             exists answer, fetch n0 = Ok answer).
  { induction cs as [|c cs IH]; intros e; simpl; [discriminate|].
    destruct (enrichCommit_cases fetch c)
      as [[Hn He]|[[n [Hn [Hf He]]]|[[n [pr [Hn [Hf He]]]]
         |[n [e' [Hn [Hf He]]]]]]]; rewrite He; simpl.
    1-3: destruct (enrichCommitsWithPRData fetch cs) as [cs1|e1] eqn:E;
         simpl; [discriminate|];
         intros H; injection H as <-;
         destruct (IH _ eq_refl) as [pre [c1 [post [n1 [-> [H1 [H2 H3]]]]]]];
         exists (c :: pre), c1, post, n1;
         (split; [reflexivity|]); (split; [exact H1|]);
         (split; [exact H2|]);
         intros c0 n0 [<-|Hin] Hc0; [|eauto]; try congruence.
    + exists None. congruence.
    + exists (Some pr). congruence.
    + intros H. injection H as <-.
      exists [], c, cs, n. repeat split; auto. intros c0 n0 []. }
  split; [|split; [|split]].
  - split.
    + intros [cs' H]. intros c n Hin Hn.
      apply in_split in Hin. destruct Hin as [pre [post ->]].
      revert cs' H. clear Hthrown.
      induction pre as [|c0 pre IH]; intros cs'; simpl.
      * unfold enrichCommit at 1. rewrite Hn.
        destruct (fetch n) as [answer|e]; [eauto|discriminate].
      * destruct (enrichCommit fetch c0); simpl; [|discriminate].
        destruct (enrichCommitsWithPRData fetch (pre ++ c :: post))
          as [cs1|e] eqn:E; simpl; [|discriminate].
        intros _. apply (IH cs1). reflexivity.
    + intros H.
      destruct (enrichCommitsWithPRData fetch cs) as [cs'|e] eqn:E;
        [eauto|].
      destruct (Hthrown e eq_refl) as [pre [c [post [n [-> [H1 [H2 _]]]]]]].
      destruct (H c n) as [answer Ha];
        [apply in_or_app; right; left; reflexivity|exact H1|congruence].
  - intros pre c post n e -> Hn Hf Hpre.
    apply (enrich_throws_at fetch pre post c n e Hn Hf Hpre).
  - exact Hthrown.
  - clear Hthrown. induction cs as [|c cs IH]; intros H; simpl; [reflexivity|].
    unfold enrichCommit. rewrite (H c (or_introl eq_refl)). simpl.
    rewrite IH; [reflexivity|]. intros c0 Hin. apply H. right. exact Hin.
Qed.

Lemma enrich_fails_on_first_error_witness :
  enrichCommitsWithPRData failing_fetch [sample_feature; sample_fix]
  = Throw (lit "Request failed with status code 500")
  /\ exists pre c post n,
       [sample_feature; sample_fix] = pre ++ c :: post
       /\ prNumber_truthy c = Some n
       /\ failing_fetch n = Throw (lit "Request failed with status code 500")
       /\ forall c0 n0, In c0 pre -> prNumber_truthy c0 = Some n0 ->
            exists answer, failing_fetch n0 = Ok answer.
Proof.
  assert (H : enrichCommitsWithPRData failing_fetch
                [sample_feature; sample_fix]
              = Throw (lit "Request failed with status code 500"))
    by reflexivity.
  split; [exact H|].
  exact (proj1 (proj2 (proj2 (enrich_fails_on_first_error failing_fetch
                                [sample_feature; sample_fix]))) _ H).
Defined.

(** ** Statistics by scope and by author *)

Lemma calculateStats_scopes (cs : list ParsedCommit) (st : CommitStats) :
  commitsByScope (fold_left statsStep cs st)
  = bumpAll countedScope (filter hasScope cs) (commitsByScope st).
Proof.
  unfold bumpAll. revert st. induction cs as [|c cs IH]; intros st; simpl.
  - reflexivity.
  - rewrite IH. cbn [statsStep commitsByScope filter].
    assert (Hs : hasScope c = truthy (scope c)) by reflexivity.
    assert (Hk : countedScope c
                 = match scope c with Some s => s | None => [] end)
      by reflexivity.
    destruct (scope c) as [[|x s]|]; rewrite Hs; cbn [truthy fold_left];
      rewrite ?Hk; reflexivity.
Qed.

Lemma countBy_filter_pos key k cs :
  0 < countBy key k cs <-> exists c, In c cs /\ key c = k.
Proof.
  unfold countBy. split.
  - destruct (filter (fun c => str_eqb (key c) k) cs) as [|c l] eqn:E;
      simpl; [lia|]. intros _.
    assert (H : In c (filter (fun c => str_eqb (key c) k) cs))
      by (rewrite E; left; reflexivity).
    apply filter_In in H. destruct H as [H1 H2].
    apply str_eqb_eq in H2. eauto.
  - intros [c [H1 H2]].
    assert (H : In c (filter (fun c => str_eqb (key c) k) cs))
      by (apply filter_In; split; [exact H1|apply str_eqb_eq; exact H2]).
    destruct (filter (fun c => str_eqb (key c) k) cs); [destruct H|].
    simpl. lia.
Qed.

Lemma bumpAll_keys key cs k :
  In k (keys (bumpAll key cs [])) <->
  k <> lit "__proto__" /\ exists c, In c cs /\ key c = k.
Proof.
  rewrite get_Some_key, get_bumpAll_empty, <- countBy_filter_pos.
  destruct (str_eqb k (lit "__proto__")) eqn:Ep.
  - apply str_eqb_eq in Ep. intuition congruence.
  - apply str_eqb_neq in Ep.
    destruct (countBy key k cs); split.
    + congruence.
    + intros [_ H]. lia.
    + intros _. split; [exact Ep|lia].
    + discriminate.
Qed.

Lemma bumpAll_value key cs k :
  In k (keys (bumpAll key cs [])) ->
  get k (bumpAll key cs [])
  = Some (if inherited k then NativeText k (countBy key k cs)
          else Num (countBy key k cs)).
Proof.
  rewrite get_Some_key, get_bumpAll_empty.
  destruct (str_eqb k (lit "__proto__")); [congruence|].
  destruct (countBy key k cs); [congruence|reflexivity].
Qed.

Lemma numericSum_bumpAll_empty key cs :
  numericSum (bumpAll key cs [])
  = length (filter (fun c => ordinary (key c)) cs).
Proof. rewrite numericSum_bumpAll; [reflexivity|]. discriminate. Qed.

(** X27.  The statistics by category have exactly the nine category
    keys, in the order of the union type; the value under each is the
    number of commits of that category; the values add up to the number
    of commits, which is the total count; and the count of breaking
    changes is the number of commits whose breaking flag is set. *)
Theorem stats_by_category (cs : list ParsedCommit) :
  keys (commitsByType (calculateStats cs)) = map type_name all_types
  /\ (forall t,
        get (type_name t) (commitsByType (calculateStats cs))
        = Some (length (filter (fun c => CommitType_eqb (type c) t) cs)))
  /\ sumValues (commitsByType (calculateStats cs)) = length cs
  /\ totalCommits (calculateStats cs) = length cs
  /\ breakingChanges (calculateStats cs) = length (filter breaking cs).
Proof.
  unfold calculateStats.
  destruct (calculateStats_fields cs (statsInit (length cs)))
    as [H1 [H2 [_ H4]]].
  rewrite H1, H2, H4.
  split; [|split; [|split; [|split]]].
  - rewrite keys_incrementAll_present.
    + unfold keys. simpl. reflexivity.
    + intros c _. destruct (type c); simpl; tauto.
  - intros t. rewrite get_incrementAll.
    assert (Hinit : get (type_name t) (commitsByType (statsInit (length cs)))
                    = Some 0) by (destruct t; reflexivity).
    rewrite Hinit. unfold countBy. simpl.
    f_equal. f_equal. apply filter_ext. intros c. apply type_name_inj.
  - rewrite sumValues_incrementAll. reflexivity.
  - reflexivity.
  - reflexivity.
Qed.

(** X11.  The statistics by scope count the commits that have a scope
    other than the empty string.  No key occurs twice, and the keys are
    the scopes that occur, except [__proto__], which never becomes a key.
    Under a scope that names no member of [Object.prototype] the value is
    the number of its commits.  Under a scope that names one
    ([constructor], [toString], ...) the value is no number: it is the
    text of that member followed by one [1] for each commit.  The values
    that are numbers add up to the number of commits with an ordinary
    scope. *)
Theorem stats_by_scope (cs : list ParsedCommit) :
  NoDup (keys (commitsByScope (calculateStats cs)))
  /\ (forall k,
        In k (keys (commitsByScope (calculateStats cs))) <->
        k <> [] /\ k <> lit "__proto__"
        /\ exists c, In c cs /\ scope c = Some k)
  /\ (forall k,
        In k (keys (commitsByScope (calculateStats cs))) ->
        ordinary k = true ->
        get k (commitsByScope (calculateStats cs))
        = Some (Num (countBy countedScope k (filter hasScope cs))))
  /\ (forall k,
        In k (keys (commitsByScope (calculateStats cs))) ->
        ordinary k = false ->
        get k (commitsByScope (calculateStats cs))
        = Some (NativeText k (countBy countedScope k (filter hasScope cs))))
  /\ numericSum (commitsByScope (calculateStats cs))
     = length (filter (fun c => ordinary (countedScope c))
                      (filter hasScope cs)).
Proof.
  unfold calculateStats. rewrite calculateStats_scopes. simpl.
  split; [apply keys_NoDup_bumpAll; constructor|].
  split.
  - intros k. rewrite bumpAll_keys. split.
    + intros [Hp [c [Hin Hk]]]. apply filter_In in Hin.
      destruct Hin as [Hin Hs]. unfold hasScope, countedScope in *.
      destruct (scope c) as [[|x s]|] eqn:Es; try discriminate.
      subst k. split; [discriminate|]. split; [exact Hp|eauto].
    + intros [Hne [Hp [c [Hin Hs]]]]. split; [exact Hp|].
      exists c. split.
      * apply filter_In. split; [exact Hin|]. unfold hasScope.
        rewrite Hs. destruct k; [congruence|reflexivity].
      * unfold countedScope. rewrite Hs. reflexivity.
  - split; [|split].
    + intros k Hk Ho. rewrite (bumpAll_value _ _ _ Hk).
      unfold ordinary in Ho. apply negb_true_iff in Ho. rewrite Ho.
      reflexivity.
    + intros k Hk Ho. rewrite (bumpAll_value _ _ _ Hk).
      unfold ordinary in Ho. apply negb_false_iff in Ho. rewrite Ho.
      reflexivity.
    + apply numericSum_bumpAll_empty.
Qed.

(** X12.  The statistics by author have one key for each author that
    occurs, except [__proto__], which never becomes a key, and no author
    is listed twice.  Under an author whose name is no member of
    [Object.prototype] the value is the number of commits of that
    author, at least one.  Under an author whose name is such a member
    the value is no number: it is the text of that member followed by
    one [1] for each commit.  The values that are numbers add up to the
    number of commits of ordinary authors, hence to the total count when
    every author is ordinary. *)
Theorem stats_by_author_keys (cs : list ParsedCommit) :
  NoDup (keys (commitsByAuthor (calculateStats cs)))
  /\ (forall a,
        In a (keys (commitsByAuthor (calculateStats cs))) <->
        a <> lit "__proto__" /\ In a (map author cs))
  /\ (forall a,
        In a (keys (commitsByAuthor (calculateStats cs))) ->
        ordinary a = true ->
        get a (commitsByAuthor (calculateStats cs))
        = Some (Num (countBy author a cs))
        /\ 1 <= countBy author a cs)
  /\ (forall a,
        In a (keys (commitsByAuthor (calculateStats cs))) ->
        ordinary a = false ->
        get a (commitsByAuthor (calculateStats cs))
        = Some (NativeText a (countBy author a cs)))
  /\ numericSum (commitsByAuthor (calculateStats cs))
     = length (filter (fun c => ordinary (author c)) cs)
  /\ (forallb (fun c => ordinary (author c)) cs = true ->
      numericSum (commitsByAuthor (calculateStats cs))
      = totalCommits (calculateStats cs)).
Proof.
  unfold calculateStats.
  destruct (calculateStats_fields cs (statsInit (length cs)))
    as [Ht [_ [-> _]]]. rewrite Ht. simpl.
  split; [apply keys_NoDup_bumpAll; constructor|].
  split.
  - intros a. rewrite bumpAll_keys, in_map_iff.
    split; intros [Hp [c Hc]]; (split; [exact Hp|exists c; tauto]).
  - split; [|split; [|split]].
    + intros a Hk Ho. rewrite (bumpAll_value _ _ _ Hk).
      unfold ordinary in Ho. apply negb_true_iff in Ho. rewrite Ho.
      split; [reflexivity|].
      apply bumpAll_keys in Hk. destruct Hk as [_ Hc].
      apply countBy_filter_pos in Hc. lia.
    + intros a Hk Ho. rewrite (bumpAll_value _ _ _ Hk).
      unfold ordinary in Ho. apply negb_false_iff in Ho. rewrite Ho.
      reflexivity.
    + apply numericSum_bumpAll_empty.
    + intros Hall. rewrite numericSum_bumpAll_empty.
      f_equal. clear Ht. induction cs as [|c cs IH]; [reflexivity|].
      simpl in *. apply andb_true_iff in Hall. destruct Hall as [H1 H2].
      rewrite H1. f_equal. apply IH. exact H2.
Qed.

(** ** The buckets of the grouping functions *)

Lemma get_pushAll key cs g k :
  get k (pushAll key cs g)
  = match get k g, filter (fun c => str_eqb (key c) k) cs with
    | None, [] => None
    | o, l => Some (match o with Some l0 => l0 | None => [] end ++ l)
    end.
Proof.
  unfold pushAll. revert g. induction cs as [|c cs IH]; intros g; simpl.
  - destruct (get k g); [rewrite app_nil_r|]; reflexivity.
  - rewrite IH, get_push.
    destruct (str_eqb (key c) k) eqn:E.
    + apply str_eqb_eq in E. rewrite E.
      destruct (get k g); rewrite <- app_assoc; reflexivity.
    + reflexivity.
Qed.

Lemma keys_NoDup_pushAll key cs g :
  NoDup (keys g) -> NoDup (keys (pushAll key cs g)).
Proof.
  unfold pushAll. revert g. induction cs as [|c cs IH]; intros g H; simpl.
  - exact H.
  - apply IH. unfold push. apply keys_NoDup_set. exact H.
Qed.

Lemma totalSize_set (k : jsstring) (l : list ParsedCommit)
  (g : obj (list ParsedCommit)) :
  totalSize (set k l g)
  + length (match get k g with Some l0 => l0 | None => [] end)
  = totalSize g + length l.
Proof.
  unfold totalSize. induction g as [|[k0 l0] g IH]; simpl; [lia|].
  destruct (str_eqb k0 k); simpl; lia.
Qed.

Lemma totalSize_pushAll key cs g :
  totalSize (pushAll key cs g) = totalSize g + length cs.
Proof.
  unfold pushAll. revert g. induction cs as [|c cs IH]; intros g; simpl.
  - lia.
  - rewrite IH. unfold push.
    pose proof (totalSize_set (key c)
                  (match get (key c) g with Some l => l | None => [] end
                   ++ [c]) g) as H.
    rewrite length_app in H. simpl in H. lia.
Qed.

Lemma emptyGroups_NoDup groupBy : NoDup (keys (emptyGroups groupBy)).
Proof.
  destruct groupBy; [|constructor|constructor].
  unfold keys. simpl.
  repeat (constructor; [simpl; intros H;
    repeat (destruct H as [H|H]; [discriminate|]); exact H|]).
  constructor.
Qed.

Lemma emptyGroups_get groupBy k :
  match get k (emptyGroups groupBy) with
  | Some l => l = []
  | None => True
  end.
Proof.
  destruct groupBy; simpl; auto.
  repeat match goal with
         | |- context [str_eqb ?a k] => destruct (str_eqb a k); auto
         end.
Qed.

(** X13.  A grouping returns if and only if no commit has a key that
    names a member of [Object.prototype]; grouping by category always
    does, and grouping by scope or by author throws a TypeError as soon
    as one commit has such a scope or author.  When the grouping returns,
    every commit is filed in exactly one bucket: the bucket of a key
    holds the commits with that key and no other, in input order; every
    commit has a bucket; no key occurs twice; and the buckets together
    hold as many commits as the input.  Grouping by category files a
    commit whose breaking flag is set under [breaking], whatever its
    category. *)
Theorem grouping_buckets (groupBy : GroupBy) (cs : list ParsedCommit) :
  ((exists grouped, groupCommits groupBy cs = Ok grouped) <->
   (forall c, In c cs -> ordinary (groupKey groupBy c) = true))
  /\ (exists grouped, groupCommits ByType cs = Ok grouped)
  /\ ((exists c, In c cs /\ ordinary (groupKey groupBy c) = false) ->
      groupCommits groupBy cs = Throw (groupingError groupBy))
  /\ (forall grouped,
        groupCommits groupBy cs = Ok grouped ->
        (forall k l,
           get k grouped = Some l -> l = filedUnder groupBy k cs)
        /\ (forall c, In c cs ->
              get (groupKey groupBy c) grouped
              = Some (filedUnder groupBy (groupKey groupBy c) cs))
        /\ NoDup (keys grouped)
        /\ totalSize grouped = length cs)
  /\ (forall c, breaking c = true ->
        groupKey ByType c = type_name Breaking).
Proof.
  assert (Hget : forall k,
            get k (pushAll (groupKey groupBy) cs (emptyGroups groupBy))
            = match get k (emptyGroups groupBy), filedUnder groupBy k cs with
              | None, [] => None
              | _, l => Some l
              end).
  { intros k. rewrite get_pushAll. unfold filedUnder.
    pose proof (emptyGroups_get groupBy k) as He.
    destruct (get k (emptyGroups groupBy)) as [l0|]; [subst l0|];
      reflexivity. }
  split; [|split; [|split; [|split]]].
  - rewrite groupCommits_pushAll. unfold fileable.
    rewrite <- forallb_forall.
    destruct (forallb (fun c => ordinary (groupKey groupBy c)) cs).
    + split; eauto.
    + split; [intros [g H]; discriminate|discriminate].
  - rewrite groupCommits_pushAll, fileable_ByType. eauto.
  - intros [c [Hin Hc]]. rewrite groupCommits_pushAll.
    destruct (fileable groupBy cs) eqn:Ef; [|reflexivity].
    unfold fileable in Ef. rewrite forallb_forall in Ef.
    rewrite (Ef c Hin) in Hc. discriminate.
  - intros grouped. rewrite groupCommits_pushAll.
    destruct (fileable groupBy cs); [|discriminate].
    intros H. injection H as <-.
    split; [|split; [|split]].
    + intros k l. rewrite Hget.
      destruct (get k (emptyGroups groupBy)), (filedUnder groupBy k cs);
        intros H; try discriminate; injection H as <-; reflexivity.
    + intros c Hin. rewrite Hget.
      assert (Hc : In c (filedUnder groupBy (groupKey groupBy c) cs)).
      { apply filter_In. split; [exact Hin|apply str_eqb_refl]. }
      destruct (get (groupKey groupBy c) (emptyGroups groupBy)),
        (filedUnder groupBy (groupKey groupBy c) cs);
        try reflexivity; destruct Hc.
    + apply keys_NoDup_pushAll, emptyGroups_NoDup.
    + rewrite totalSize_pushAll.
      destruct groupBy; reflexivity.
  - intros c Hb. simpl. unfold typeKey. rewrite Hb. reflexivity.
Qed.

(** ** The sections of the category mode *)

Lemma obj_of_keys {V} (o : obj V) (f : jsstring -> V) :
  NoDup (keys o) ->
  (forall k, In k (keys o) -> get k o = Some (f k)) ->
  o = map (fun k => (k, f k)) (keys o).
Proof.
  unfold keys. induction o as [|[k0 v0] o IH]; simpl; intros Hnd Hget.
  - reflexivity.
  - inversion Hnd as [|? ? Hnotin Hnd']. subst.
    assert (H0 : Some v0 = Some (f k0)).
    { rewrite <- (Hget k0 (or_introl eq_refl)).
      rewrite str_eqb_refl. reflexivity. }
    injection H0 as ->. f_equal. apply IH; [exact Hnd'|].
    intros k Hk. rewrite <- (Hget k (or_intror Hk)).
    destruct (str_eqb k0 k) eqn:E; [|reflexivity].
    apply str_eqb_eq in E. subst k. contradiction.
Qed.

Lemma keys_pushAll_present key cs g :
  (forall c, In c cs -> In (key c) (keys g)) ->
  keys (pushAll key cs g) = keys g.
Proof.
  unfold pushAll. revert g. induction cs as [|c cs IH]; intros g H; simpl.
  - reflexivity.
  - assert (Hk : keys (push (key c) c g) = keys g).
    { unfold push. rewrite keys_set.
      assert (Hin : In (key c) (keys g)) by (apply H; left; reflexivity).
      apply get_Some_key in Hin. destruct (get (key c) g); congruence. }
    rewrite IH; [exact Hk|].
    intros c' Hc'. rewrite Hk. apply H. right. exact Hc'.
Qed.

Lemma typeKey_is_type_name (c : ParsedCommit) :
  In (typeKey c) (map type_name all_types).
Proof.
  unfold typeKey. destruct (breaking c); [simpl; tauto|].
  apply in_map. destruct (type c); simpl; tauto.
Qed.

(** Grouping by category returns the nine buckets in the order of the
    union type. *)
Lemma groupCommitsByType_buckets (cs : list ParsedCommit) :
  groupCommitsByType cs
  = map (fun t => (type_name t, filedUnder ByType (type_name t) cs))
        all_types.
Proof.
  unfold groupCommitsByType. rewrite fold_typeKey.
  change (pushAll typeKey cs (map (fun t => (type_name t, [])) all_types))
    with (pushAll (groupKey ByType) cs (emptyGroups ByType)).
  assert (Hk : keys (pushAll (groupKey ByType) cs (emptyGroups ByType))
               = map type_name all_types).
  { rewrite keys_pushAll_present; [reflexivity|].
    intros c _. apply typeKey_is_type_name. }
  rewrite (obj_of_keys _ (fun k => filedUnder ByType k cs)).
  - rewrite Hk, map_map. reflexivity.
  - apply keys_NoDup_pushAll, emptyGroups_NoDup.
  - intros k Hin. rewrite get_pushAll. fold (filedUnder ByType k cs).
    rewrite Hk in Hin.
    assert (He : get k (emptyGroups ByType) = Some []).
    { simpl in Hin.
      repeat (destruct Hin as [<-|Hin]; [reflexivity|]). destruct Hin. }
    rewrite He. reflexivity.
Qed.

Lemma entries_no_index {V} (o : obj V) :
  forallb (fun e => negb (isIndexKey e)) o = true -> entries o = o.
Proof.
  intros H. unfold entries.
  assert (H1 : filter isIndexKey o = []).
  { clear -H. induction o as [|e o IH]; simpl in *; [reflexivity|].
    apply andb_true_iff in H. destruct H as [He H].
    apply negb_true_iff in He. rewrite He. auto. }
  assert (H2 : filter (fun e => negb (isIndexKey e)) o = o).
  { clear -H. induction o as [|e o IH]; simpl in *; [reflexivity|].
    apply andb_true_iff in H. destruct H as [He H].
    rewrite He. f_equal. auto. }
  rewrite H1, H2. reflexivity.
Qed.

Lemma filedUnder_not_breaking (t : CommitType) (cs : list ParsedCommit) :
  filedUnder ByType (type_name t) (filter (fun c => negb (breaking c)) cs)
  = filter (fun c => negb (breaking c) && CommitType_eqb (type c) t) cs.
Proof.
  unfold filedUnder, groupKey.
  induction cs as [|c cs IH]; simpl; [reflexivity|].
  destruct (breaking c) eqn:Eb; simpl; [exact IH|].
  rewrite IH. unfold typeKey. rewrite Eb, type_name_inj. reflexivity.
Qed.

(** X14.  In the category mode the grouped sections are those of
    [feature], [fix], [docs], [perf], [refactor], [test], [build] and
    [other], in this order; a section is emitted when it is not empty,
    and it lists the commits of its category whose breaking flag is not
    set, in input order. *)
Theorem category_sections (now : jsstring) (cs : list ParsedCommit)
  (options : Options) :
  renderedGroups ByType (buildNotes now cs options)
  = filter (fun e => negb (length (snd e) =? 0))
      (map (fun t =>
              (type_name t,
               filter (fun c => negb (breaking c)
                                && CommitType_eqb (type c) t) cs))
           section_types).
Proof.
  unfold renderedGroups. cbn [groupCommits buildNotes commits].
  rewrite groupCommitsByType_buckets.
  rewrite entries_no_index by reflexivity.
  unfold all_types, section_types. cbn [map filter].
  rewrite !filedUnder_not_breaking.
  assert (Hr : forall t l,
            t <> Breaking ->
            groupIsRendered (type_name t, l) = negb (length l =? 0)).
  { intros t l Ht. unfold groupIsRendered. simpl fst. simpl snd.
    destruct t; try congruence;
      (replace (str_eqb _ (lit "breaking")) with false by reflexivity);
      apply andb_true_r. }
  assert (Hb : forall l, groupIsRendered (type_name Breaking, l) = false).
  { intros l. unfold groupIsRendered. simpl fst.
    replace (str_eqb (type_name Breaking) (lit "breaking")) with true
      by reflexivity.
    apply andb_false_r. }
  rewrite Hb, !Hr by discriminate. reflexivity.
Qed.

(** X15.  In the category mode a commit of the collection whose category
    is [breaking] only if its breaking flag is set is listed exactly
    once: in the section of breaking changes when the flag is set, under
    its category otherwise.  A commit with category [breaking] and no
    flag is listed nowhere. *)
Theorem category_mode_lists_once (now : jsstring) (cs : list ParsedCommit)
  (options : Options) (c : ParsedCommit) :
  In c cs ->
  (breaking c = true ->
   listed_in_breaking (buildNotes now cs options) c
   /\ ~ listed_in_groups ByType (buildNotes now cs options) c)
  /\ (breaking c = false -> type c <> Breaking ->
      ~ listed_in_breaking (buildNotes now cs options) c
      /\ listed_under ByType (buildNotes now cs options)
           (type_name (type c)) c
      /\ forall k, listed_under ByType (buildNotes now cs options) k c ->
           k = type_name (type c))
  /\ (breaking c = false -> type c = Breaking ->
      ~ listed_in_breaking (buildNotes now cs options) c
      /\ ~ listed_in_groups ByType (buildNotes now cs options) c).
Proof.
  intros Hin.
  assert (Hkey : breaking c = false ->
                 groupKey ByType c = type_name (type c)).
  { intros Hb. simpl. unfold typeKey. rewrite Hb. reflexivity. }
  split; [|split].
  - intros Hb. split; [apply buildNotes_breaking; auto|].
    rewrite listed_in_groups_iff, buildNotes_commits.
    intros [_ [[_ H] _]]. congruence.
  - intros Hb Hty. split; [|split].
    + rewrite buildNotes_breaking. intros [_ H]. congruence.
    + apply listed_under_iff. rewrite buildNotes_commits, (Hkey Hb).
      split; [apply fileable_ByType|].
      repeat split; auto. destruct (type c); try discriminate. congruence.
    + intros k Hk. apply listed_under_iff in Hk.
      destruct Hk as [_ [_ [<- _]]]. apply Hkey. exact Hb.
  - intros Hb Hty. split.
    + rewrite buildNotes_breaking. intros [_ H]. congruence.
    + rewrite listed_in_groups_iff, (Hkey Hb), Hty. tauto.
Qed.

Lemma category_mode_lists_once_witness :
  In sample_feature [sample_breaking; sample_feature]
  /\ listed_under ByType
       (buildNotes sample_now [sample_breaking; sample_feature] no_options)
       (lit "feature") sample_feature.
Proof.
  assert (H : In sample_feature [sample_breaking; sample_feature])
    by (right; left; reflexivity).
  split; [exact H|].
  refine (proj1 (proj2 (proj1 (proj2
    (category_mode_lists_once sample_now _ no_options _ H)) eq_refl _))).
  discriminate.
Defined.

(** ** Decimal numerals *)

Lemma digits_acc_pos (d : Decimal.uint) (acc : positive) :
  fold_left (fun a c => (10 * a + (c - 48))%N)
            (lit (NilEmpty.string_of_uint d)) (Npos acc)
  = Npos (Pos.of_uint_acc d acc).
Proof.
  revert acc. induction d; intros acc; cbn [NilEmpty.string_of_uint lit
    list_ascii_of_string map fold_left Pos.of_uint_acc]; try reflexivity;
    rewrite <- IHd; f_equal; cbn [N_of_ascii N_of_digits]; lia.
Qed.

Lemma digits_acc_zero (d : Decimal.uint) :
  fold_left (fun a c => (10 * a + (c - 48))%N)
            (lit (NilEmpty.string_of_uint d)) 0%N
  = N.of_uint d.
Proof.
  induction d; cbn [NilEmpty.string_of_uint lit list_ascii_of_string map
    fold_left]; try reflexivity; try exact IHd;
    unfold N.of_uint; cbn [Pos.of_uint]; rewrite <- digits_acc_pos;
    reflexivity.
Qed.

Lemma digits_all (d : Decimal.uint) :
  forallb isDigit (lit (NilEmpty.string_of_uint d)) = true.
Proof. induction d; simpl; auto. Qed.

(** Printing a number and reading the digits back gives the number. *)
Lemma digitsValue_ofN (n : N) : digitsValue (ofN n) = n.
Proof.
  unfold digitsValue, ofN, NilZero.string_of_uint.
  rewrite <- (DecimalN.Unsigned.of_to n) at 2.
  destruct (N.to_uint n) eqn:E; try apply (digits_acc_zero (N.to_uint n));
    rewrite ?E; try reflexivity;
    rewrite <- E; rewrite <- digits_acc_zero; rewrite E; reflexivity.
Qed.

Lemma ofN_digits (n : N) : forallb isDigit (ofN n) = true /\ ofN n <> [].
Proof.
  unfold ofN, NilZero.string_of_uint.
  destruct (N.to_uint n) eqn:E;
    (split; [try reflexivity; rewrite <- E at 1; try apply digits_all
            |simpl; discriminate]).
  all: try (simpl; apply digits_all).
Qed.

(** ** The request number of a commit message *)

Lemma takeWhile_split (p : N -> bool) (s : jsstring) :
  s = takeWhile p s ++ skipn (length (takeWhile p s)) s
  /\ forallb p (takeWhile p s) = true
  /\ match skipn (length (takeWhile p s)) s with
     | x :: _ => p x = false
     | [] => True
     end.
Proof.
  induction s as [|c s IH]; simpl; [auto|].
  destruct (p c) eqn:E; simpl.
  - destruct IH as [H1 [H2 H3]]. rewrite E. repeat split; auto.
    f_equal. exact H1.
  - rewrite E. auto.
Qed.

Lemma many_hd (p : N -> bool) (w r : jsstring) :
  forallb p w = true ->
  match r with x :: _ => p x = false | [] => True end ->
  exists tl, many p (w ++ r) = r :: tl.
Proof.
  intros Hw Hr. induction w as [|c w IH]; simpl in *.
  - destruct r as [|x r]; simpl; [eauto|]. rewrite Hr. eauto.
  - apply andb_true_iff in Hw. destruct Hw as [-> Hw].
    destruct (IH Hw) as [tl ->]. simpl. eauto.
Qed.

(** Every way of leaving a repetition stops inside the run or at its end. *)
Lemma many_suffixes (p : N -> bool) (w r x : jsstring) :
  forallb p w = true ->
  match r with y :: _ => p y = false | [] => True end ->
  In x (many p (w ++ r)) ->
  x = r \/ exists c x', x = c :: x' /\ p c = true.
Proof.
  intros Hw Hr. induction w as [|c w IH]; simpl in *.
  - destruct r as [|y r]; simpl.
    + intros [<-|[]]. auto.
    + rewrite Hr. intros [<-|[]]. auto.
  - apply andb_true_iff in Hw. destruct Hw as [Hc Hw]. rewrite Hc.
    intros H. apply in_app_or in H. destruct H as [H|[<-|[]]].
    + apply IH; assumption.
    + right. eauto.
Qed.


Lemma run_Seq_Chr (p : N -> bool) (b : regex) (c : N) (s : jsstring)
  (cs : list (nat * jsstring)) :
  run (Seq (Chr p) b) (MState (c :: s) cs)
  = if p c then run b (MState s cs) else [].
Proof.
  simpl. destruct (p c); simpl; [apply app_nil_r|reflexivity].
Qed.

Lemma flat_map_nothing {A B} (f : A -> list B) (l : list A) :
  (forall x, In x l -> f x = []) -> flat_map f l = [].
Proof.
  induction l as [|x l IH]; simpl; intros H; [reflexivity|].
  rewrite (H x (or_introl eq_refl)), IH; [reflexivity|].
  intros y Hy. apply H. right. exact Hy.
Qed.

(** The first path of a sequence, a class, a repetition and a group. *)
Lemma hd_run_Seq (a b : regex) (st s1 m : mstate) :
  hd_error (run a st) = Some s1 -> hd_error (run b s1) = Some m ->
  hd_error (run (Seq a b) st) = Some m.
Proof.
  simpl. destruct (run a st) as [|x l]; simpl; [discriminate|].
  intros H. injection H as ->.
  destruct (run b s1); simpl; [discriminate|auto].
Qed.

Lemma hd_run_Chr (p : N -> bool) (c : N) (s : jsstring)
  (cs : list (nat * jsstring)) :
  p c = true -> hd_error (run (Chr p) (MState (c :: s) cs))
                = Some (MState s cs).
Proof. intros H. simpl. rewrite H. reflexivity. Qed.

Lemma hd_run_Many1 (p : N -> bool) (w r : jsstring)
  (cs : list (nat * jsstring)) :
  forallb p w = true -> w <> [] ->
  match r with x :: _ => p x = false | [] => True end ->
  hd_error (run (Many1 p) (MState (w ++ r) cs)) = Some (MState r cs).
Proof.
  intros Hw Hne Hr. destruct w as [|c w]; [congruence|].
  simpl in Hw. apply andb_true_iff in Hw. destruct Hw as [Hc Hw].
  destruct (many_hd p w r Hw Hr) as [tl Htl].
  simpl. rewrite Hc, Htl. reflexivity.
Qed.

Lemma hd_run_Grp (n : nat) (a : regex) (w r : jsstring)
  (cs cs' : list (nat * jsstring)) :
  hd_error (run a (MState (w ++ r) cs)) = Some (MState r cs') ->
  hd_error (run (Grp n a) (MState (w ++ r) cs))
  = Some (MState r ((n, w) :: cs')).
Proof.
  simpl. destruct (run a (MState (w ++ r) cs)) as [|x l]; simpl;
    [discriminate|].
  intros H. injection H as ->. simpl. rewrite consumed_app. reflexivity.
Qed.

(** The two alternatives of the pattern. *)
Lemma pr_regex_alternatives :
  pr_regex
  = Alt (Seq (Chr (N.eqb 40)) (Seq (Chr (N.eqb 35))
          (Seq (Grp 1 (Many1 isDigit)) (Chr (N.eqb 41)))))
        (Seq (Chr (N.eqb 10)) (Seq (Chr (N.eqb 10)) (Seq (Chr (N.eqb 35))
          (Grp 2 (Many1 isDigit))))).
Proof. reflexivity. Qed.

(** The parenthesised alternative starts with [(#]. *)
Lemma parenthesised_needs_prefix (s : jsstring) :
  startsWith s (lit "(#") = false ->
  run (Seq (Chr (N.eqb 40)) (Seq (Chr (N.eqb 35))
        (Seq (Grp 1 (Many1 isDigit)) (Chr (N.eqb 41))))) (MState s [])
  = [].
Proof.
  change (lit "(#") with [40; 35]%N.
  destruct s as [|a s]; [reflexivity|]. rewrite run_Seq_Chr.
  cbn [startsWith]. destruct (N.eqb 40 a); [|reflexivity].
  destruct s as [|b s]; [reflexivity|]. rewrite run_Seq_Chr.
  cbn [startsWith andb]. destruct (N.eqb 35 b); [|reflexivity].
  destruct s; discriminate.
Qed.

(** The other alternative starts with a blank line and [#]. *)
Lemma trailing_needs_prefix (s : jsstring) :
  startsWith s [10; 10; 35]%N = false ->
  run (Seq (Chr (N.eqb 10)) (Seq (Chr (N.eqb 10)) (Seq (Chr (N.eqb 35))
        (Grp 2 (Many1 isDigit))))) (MState s [])
  = [].
Proof.
  destruct s as [|a s]; [reflexivity|]. rewrite run_Seq_Chr.
  cbn [startsWith]. destruct (N.eqb 10 a); [|reflexivity].
  destruct s as [|b s]; [reflexivity|]. rewrite run_Seq_Chr.
  cbn [startsWith andb]. destruct (N.eqb 10 b); [|reflexivity].
  destruct s as [|c s]; [reflexivity|]. rewrite run_Seq_Chr.
  cbn [startsWith andb]. destruct (N.eqb 35 c); [|reflexivity].
  destruct s; discriminate.
Qed.

Lemma startsWith_split (s p : jsstring) :
  startsWith s p = true -> s = p ++ skipn (length p) s.
Proof.
  revert s. induction p as [|a p IH]; intros s; [reflexivity|].
  destruct s as [|b s]; simpl; [discriminate|].
  intros H. apply andb_true_iff in H. destruct H as [H1 H2].
  apply N.eqb_eq in H1. subst b. f_equal. apply IH. exact H2.
Qed.

(** At a place where [(#] stands, the parenthesised alternative matches
    exactly when a run of digits and [)] follow. *)
Lemma parenthesised_at (r : jsstring) :
  hd_error
    (run (Seq (Chr (N.eqb 40)) (Seq (Chr (N.eqb 35))
            (Seq (Grp 1 (Many1 isDigit)) (Chr (N.eqb 41)))))
         (MState ([40; 35]%N ++ r) []))
  = match takeWhile isDigit r, skipn (length (takeWhile isDigit r)) r with
    | _ :: _, c :: post =>
        if N.eqb 41 c
        then Some (MState post [(1, takeWhile isDigit r)])
        else None
    | _, _ => None
    end.
Proof.
  destruct (takeWhile_split isDigit r) as [Hr [Hd Hn]].
  set (ds := takeWhile isDigit r) in *.
  set (r' := skipn (length ds) r) in *.
  assert (Hfail : forall x, In x (run (Grp 1 (Many1 isDigit)) (MState r [])) ->
            (forall c post, r' = c :: post -> N.eqb 41 c = false) ->
            run (Chr (N.eqb 41)) x = []).
  { intros x Hx Hr'. cbn [run rest caps] in Hx.
    apply in_map_iff in Hx. destruct Hx as [st [<- Hst]]. cbn [run rest].
    destruct r as [|c r0]; [destruct Hst|].
    destruct (isDigit c) eqn:Ec; [|destruct Hst].
    apply in_map_iff in Hst. destruct Hst as [y [<- Hy]]. cbn [rest].
    assert (Hds : ds = c :: takeWhile isDigit r0)
      by (unfold ds; simpl; rewrite Ec; reflexivity).
    assert (Hr0 : r0 = takeWhile isDigit r0 ++ r').
    { unfold r'. rewrite Hds. simpl.
      apply (proj1 (takeWhile_split isDigit r0)). }
    rewrite Hr0 in Hy.
    apply many_suffixes in Hy;
      [|apply (proj1 (proj2 (takeWhile_split isDigit r0)))|exact Hn].
    destruct Hy as [->|[d [x' [-> Hdig]]]].
    - destruct r' as [|c' post]; [reflexivity|].
      rewrite (Hr' c' post eq_refl). reflexivity.
    - replace (N.eqb 41 d) with false; [reflexivity|].
      symmetry. apply N.eqb_neq. intros <-. discriminate. }
  cbn [app]. rewrite !run_Seq_Chr, !N.eqb_refl.
  destruct ds as [|d ds0] eqn:Eds.
  - cbn [run]. rewrite flat_map_nothing; [reflexivity|].
    intros x Hx. exfalso. cbn [run rest caps] in Hx.
    apply in_map_iff in Hx. destruct Hx as [st [_ Hst]].
    destruct r as [|c r0]; [destruct Hst|].
    unfold ds in Eds. simpl in Eds.
    destruct (isDigit c); [discriminate|destruct Hst].
  - destruct r' as [|c post] eqn:Er'.
    + cbn [run]. rewrite flat_map_nothing; [reflexivity|].
      intros x Hx. apply Hfail; [exact Hx|discriminate].
    + destruct (N.eqb 41 c) eqn:Ec.
      * apply N.eqb_eq in Ec. subst c.
        eapply hd_run_Seq.
        -- rewrite Hr. apply hd_run_Grp.
           apply hd_run_Many1; [exact Hd|discriminate|reflexivity].
        -- apply (hd_run_Chr (N.eqb 41) 41). reflexivity.
      * cbn [run]. rewrite flat_map_nothing; [reflexivity|].
        intros x Hx. apply Hfail; [exact Hx|].
        intros c0 post0 H. injection H as <- <-. exact Ec.
Qed.

(** At a place where a blank line and [#] stand, the other alternative
    matches exactly when a digit follows, and takes the run of digits. *)
Lemma trailing_at (r : jsstring) :
  hd_error
    (run (Seq (Chr (N.eqb 10)) (Seq (Chr (N.eqb 10)) (Seq (Chr (N.eqb 35))
            (Grp 2 (Many1 isDigit)))))
         (MState ([10; 10; 35]%N ++ r) []))
  = match takeWhile isDigit r with
    | _ :: _ =>
        Some (MState (skipn (length (takeWhile isDigit r)) r)
                     [(2, takeWhile isDigit r)])
    | [] => None
    end.
Proof.
  destruct (takeWhile_split isDigit r) as [Hr [Hd Hn]].
  cbn [app]. rewrite !run_Seq_Chr, !N.eqb_refl.
  destruct (takeWhile isDigit r) as [|d ds0] eqn:Eds.
  - cbn [run rest caps]. destruct r as [|c r0]; [reflexivity|].
    simpl in Eds. destruct (isDigit c); [discriminate|reflexivity].
  - rewrite Hr at 1. apply hd_run_Grp.
    apply hd_run_Many1; [exact Hd|discriminate|exact Hn].
Qed.

Lemma hd_error_app_nil {A} (l : list A) : hd_error (l ++ []) = hd_error l.
Proof. rewrite app_nil_r. reflexivity. Qed.

Lemma startsWith_found (s p : jsstring) :
  startsWith s p = true -> exists r, s = p ++ r.
Proof.
  intros H. exists (skipn (length p) s). apply startsWith_split. exact H.
Qed.

(** The pattern at a place and the digits that stand there. *)
Lemma pr_regex_at (s : jsstring) :
  match digitsAt s with
  | Some ds =>
      exists m,
        hd_error (run pr_regex (MState s [])) = Some m
        /\ (if truthy (cap 1 m) then cap 1 m else cap 2 m) = Some ds
  | None => hd_error (run pr_regex (MState s [])) = None
  end.
Proof.
  rewrite pr_regex_alternatives.
  change (run (Alt ?a ?b) ?st) with (run a st ++ run b st).
  unfold digitsAt.
  destruct (startsWith s (lit "(#")) eqn:E1.
  - destruct (startsWith_found _ _ E1) as [r ->].
    change (lit "(#" ++ r) with ([40; 35]%N ++ r).
    rewrite (trailing_needs_prefix ([40; 35]%N ++ r) eq_refl),
      hd_error_app_nil, parenthesised_at.
    change (skipn 2 ([40; 35]%N ++ r)) with r.
    change (skipn (2 + ?n) ([40; 35]%N ++ r)) with (skipn n r).
    destruct (takeWhile isDigit r) as [|d ds0] eqn:Ed; [reflexivity|].
    cbn [length Nat.eqb negb andb].
    destruct (skipn (S (length ds0)) r) as [|c post]; [reflexivity|].
    change (lit ")") with [41%N]. cbn [startsWith].
    destruct (N.eqb 41 c); [|reflexivity].
    destruct post; (eexists; split; [reflexivity|reflexivity]).
  - rewrite (parenthesised_needs_prefix s E1). cbn [app].
    destruct (startsWith s [10; 10; 35]%N) eqn:E2.
    + destruct (startsWith_found _ _ E2) as [r ->].
      rewrite trailing_at.
      change (skipn 3 ([10; 10; 35]%N ++ r)) with r.
      destruct (takeWhile isDigit r) as [|d ds0] eqn:Ed; [reflexivity|].
      cbn [length Nat.eqb negb].
      eexists; split; reflexivity.
    + rewrite (trailing_needs_prefix s E2). reflexivity.
Qed.

(** The search of the pattern reads the digits at the leftmost place. *)
Lemma extractPrNumber_firstDigits (msg : jsstring) :
  extractPrNumber msg = option_map parseInt (firstDigits msg).
Proof.
  unfold extractPrNumber.
  assert (Hhere : forall m ds,
            (if truthy (cap 1 m) then cap 1 m else cap 2 m) = Some ds ->
            (if truthy (cap 1 m) then option_map parseInt (cap 1 m)
             else option_map parseInt (cap 2 m))
            = Some (parseInt ds)).
  { intros m ds H. destruct (truthy (cap 1 m)); rewrite H; reflexivity. }
  induction msg as [|c s IH].
  - cbn [search firstDigits]. pose proof (pr_regex_at []) as H.
    destruct (digitsAt []) as [ds|].
    + destruct H as [m [-> Hm]]. apply (Hhere m ds Hm).
    + rewrite H. reflexivity.
  - cbn [search firstDigits]. pose proof (pr_regex_at (c :: s)) as H.
    destruct (digitsAt (c :: s)) as [ds|].
    + destruct H as [m [-> Hm]]. apply (Hhere m ds Hm).
    + rewrite H. exact IH.
Qed.

Lemma firstDigits_leftmost (pre rest ds : jsstring) :
  digitsAt rest = Some ds ->
  (forall a b, pre = a ++ b -> b <> [] -> digitsAt (b ++ rest) = None) ->
  firstDigits (pre ++ rest) = Some ds.
Proof.
  intros Hr. induction pre as [|c pre IH]; intros Hpre.
  - cbn [app]. destruct rest; cbn [firstDigits]; rewrite Hr; reflexivity.
  - cbn [app firstDigits].
    pose proof (Hpre [] (c :: pre) eq_refl ltac:(discriminate)) as H0.
    cbn [app] in H0. rewrite H0.
    apply IH. intros a b -> Hb. apply (Hpre (c :: a) b eq_refl Hb).
Qed.

Lemma firstDigits_found (msg ds : jsstring) :
  firstDigits msg = Some ds ->
  exists pre rest,
    msg = pre ++ rest /\ digitsAt rest = Some ds
    /\ forall a b, pre = a ++ b -> b <> [] -> digitsAt (b ++ rest) = None.
Proof.
  induction msg as [|c s IH]; cbn [firstDigits].
  - destruct (digitsAt []) as [d|] eqn:E; [|discriminate].
    intros H. injection H as ->. exists [], [].
    split; [reflexivity|]. split; [exact E|].
    intros a b H Hb. destruct a, b; try discriminate; congruence.
  - destruct (digitsAt (c :: s)) as [d|] eqn:E.
    + intros H. injection H as ->. exists [], (c :: s).
      split; [reflexivity|]. split; [exact E|].
      intros a b H Hb. destruct a, b; try discriminate; congruence.
    + intros H. destruct (IH H) as [pre [rest [-> [Hr Hpre]]]].
      exists (c :: pre), rest. split; [reflexivity|]. split; [exact Hr|].
      intros a b Hab Hb. destruct a as [|x a].
      * simpl in Hab. subst b. exact E.
      * injection Hab as <- ->. apply (Hpre a b eq_refl Hb).
Qed.

Lemma firstDigits_none (msg : jsstring) :
  (forall a b, msg = a ++ b -> digitsAt b = None) ->
  firstDigits msg = None.
Proof.
  induction msg as [|c s IH]; intros H; cbn [firstDigits].
  - rewrite (H [] [] eq_refl). reflexivity.
  - rewrite (H [] (c :: s) eq_refl). apply IH.
    intros a b ->. apply (H (c :: a) b eq_refl).
Qed.

Lemma startsWith_app (p r : jsstring) : startsWith (p ++ r) p = true.
Proof.
  induction p as [|a p IH]; [destruct r; reflexivity|].
  simpl. rewrite N.eqb_refl. exact IH.
Qed.

Lemma digitsAt_parenthesised (ds post : jsstring) :
  forallb isDigit ds = true -> ds <> [] ->
  digitsAt (lit "(#" ++ ds ++ lit ")" ++ post) = Some ds.
Proof.
  intros Hd Hne. unfold digitsAt.
  rewrite startsWith_app.
  change (skipn 2 (lit "(#" ++ ds ++ lit ")" ++ post))
    with (ds ++ lit ")" ++ post).
  rewrite (takeWhile_app isDigit ds (lit ")" ++ post) Hd) by reflexivity.
  change (skipn (2 + length ds) (lit "(#" ++ ds ++ lit ")" ++ post))
    with (skipn (length ds) (ds ++ lit ")" ++ post)).
  rewrite skipn_app, skipn_all, Nat.sub_diag. cbn [skipn app].
  rewrite startsWith_app.
  destruct ds; [congruence|]. reflexivity.
Qed.

Lemma digitsAt_trailing (ds post : jsstring) :
  forallb isDigit ds = true -> ds <> [] ->
  match post with x :: _ => isDigit x = false | [] => True end ->
  digitsAt (nl ++ nl ++ lit "#" ++ ds ++ post) = Some ds.
Proof.
  intros Hd Hne Hp. unfold digitsAt.
  change (startsWith (nl ++ nl ++ lit "#" ++ ds ++ post) (lit "(#"))
    with false. cbv iota.
  change (nl ++ nl ++ lit "#" ++ ds ++ post)
    with ([10; 10; 35]%N ++ ds ++ post).
  rewrite startsWith_app.
  change (skipn 3 ([10; 10; 35]%N ++ ds ++ post)) with (ds ++ post).
  rewrite (takeWhile_app isDigit ds post Hd Hp).
  destruct ds; [congruence|]. reflexivity.
Qed.

(** What stands at a place where digits are read. *)
Lemma digitsAt_shape (s ds : jsstring) :
  digitsAt s = Some ds ->
  forallb isDigit ds = true /\ ds <> []
  /\ ((exists post, s = lit "(#" ++ ds ++ lit ")" ++ post)
      \/ (exists post,
            s = nl ++ nl ++ lit "#" ++ ds ++ post
            /\ match post with x :: _ => isDigit x = false | [] => True end)).
Proof.
  unfold digitsAt.
  destruct (startsWith s (lit "(#")) eqn:E1.
  - destruct (startsWith_found _ _ E1) as [r ->]. clear E1.
    change (skipn 2 (lit "(#" ++ r)) with r.
    change (skipn (2 + ?n) (lit "(#" ++ r)) with (skipn n r).
    destruct (takeWhile_split isDigit r) as [Hr [Hd Hn]].
    destruct (takeWhile isDigit r) as [|d ds0] eqn:Ed; [discriminate|].
    cbn [length Nat.eqb negb andb].
    destruct (startsWith (skipn (S (length ds0)) r) (lit ")")) eqn:E3;
      [|discriminate].
    intros H. injection H as <-.
    split; [exact Hd|]. split; [discriminate|]. left.
    destruct (startsWith_found _ _ E3) as [post Hpost].
    exists post. cbn [length] in Hr. rewrite Hpost in Hr.
    rewrite Hr at 1. reflexivity.
  - destruct (startsWith s [10; 10; 35]%N) eqn:E2; [|discriminate].
    destruct (startsWith_found _ _ E2) as [r ->]. clear E1 E2.
    change (skipn 3 ([10; 10; 35]%N ++ r)) with r.
    destruct (takeWhile_split isDigit r) as [Hr [Hd Hn]].
    destruct (takeWhile isDigit r) as [|d ds0] eqn:Ed; [discriminate|].
    cbn [length Nat.eqb negb].
    intros H. injection H as <-.
    split; [exact Hd|]. split; [discriminate|]. right.
    exists (skipn (S (length ds0)) r). split; [|exact Hn].
    cbn [length] in Hr. rewrite Hr at 1. reflexivity.
Qed.

(** ** Request numbers as doubles *)

Lemma jsnumber_eqb_eq (a b : jsnumber) : jsnumber_eqb a b = true -> a = b.
Proof.
  destruct a, b; simpl; try discriminate; [|reflexivity].
  intros H. apply N.eqb_eq in H. congruence.
Qed.

Lemma toDouble_exact (v : N) : (v <= two53)%N -> toDouble v = Finite v.
Proof.
  intros H. unfold toDouble.
  destruct (v <? two53)%N eqn:E; [reflexivity|].
  apply N.ltb_ge in E. assert (Hv : v = two53) by lia.
  subst v. vm_compute. reflexivity.
Qed.

Lemma shortestWith_roundTrips (v scale w : N) :
  shortestWith v scale = Some w -> toDouble w = Finite v.
Proof.
  unfold shortestWith, roundTrips.
  destruct (jsnumber_eqb (toDouble (v / scale * scale)) (Finite v)) eqn:E1,
    (jsnumber_eqb (toDouble (v / scale * scale + scale)) (Finite v)) eqn:E2;
    try discriminate;
    repeat match goal with
           | |- context [if ?b then _ else _] => destruct b
           end;
    intros H; injection H as <-; apply jsnumber_eqb_eq; assumption.
Qed.

Lemma shortest_roundTrips (v : N) (scales : list N) :
  toDouble v = Finite v -> toDouble (shortest v scales) = Finite v.
Proof.
  intros Hv. induction scales as [|s scales IH]; simpl; [exact Hv|].
  destruct (shortestWith v s) as [w|] eqn:E; [|exact IH].
  apply (shortestWith_roundTrips v s w E).
Qed.

Lemma exponentForm_digits (w : N) :
  forallb isDigit (exponentForm w) = true -> exponentForm w = ofN w.
Proof.
  unfold exponentForm.
  destruct (rev (dropZeros (rev (ofN w)))) as [|d [|d' more]];
    [reflexivity| |].
  - cbn [app forallb]. change (isDigit 101) with false.
    rewrite andb_false_r. discriminate.
  - cbn [app forallb]. change (isDigit 46) with false.
    rewrite andb_false_r. discriminate.
Qed.

(** A request number printed as a run of digits reads back as itself. *)
Lemma numberText_read_back (v : N) :
  toDouble v = Finite v ->
  forallb isDigit (numberText (Finite v)) = true ->
  parseInt (numberText (Finite v)) = Finite v.
Proof.
  intros Hv. unfold numberText, parseInt.
  destruct (v <=? two53)%N; [intros _; rewrite digitsValue_ofN; exact Hv|].
  destruct (shortest v (scalesOf v) <? 10 ^ 21)%N.
  - intros _. rewrite digitsValue_ofN. apply shortest_roundTrips. exact Hv.
  - intros H. rewrite (exponentForm_digits _ H), digitsValue_ofN.
    apply shortest_roundTrips. exact Hv.
Qed.

(** X16.  The request number of a message is the number spelled by the
    digits at the leftmost place where [(#digits)] or a blank line
    followed by [#digits] stands, read as a double; a message with no
    such place has no request number.  At such a place the digits are
    the whole run of digits; in the parenthesised form the closing
    parenthesis follows them.  A request number up to 2^53 is printed as
    its decimal numeral, and a number printed as a run of digits reads
    back as itself. *)
Theorem request_number_leftmost (msg : jsstring) :
  extractPrNumber msg = option_map parseInt (firstDigits msg)
  /\ (forall pre rest ds,
        msg = pre ++ rest -> digitsAt rest = Some ds ->
        (forall a b, pre = a ++ b -> b <> [] ->
           digitsAt (b ++ rest) = None) ->
        extractPrNumber msg = Some (parseInt ds))
  /\ (forall n,
        extractPrNumber msg = Some n ->
        exists pre rest ds,
          msg = pre ++ rest /\ digitsAt rest = Some ds /\ n = parseInt ds
          /\ forall a b, pre = a ++ b -> b <> [] ->
               digitsAt (b ++ rest) = None)
  /\ ((forall a b, msg = a ++ b -> digitsAt b = None) ->
      extractPrNumber msg = None)
  /\ (forall ds,
        digitsAt msg = Some ds <->
        forallb isDigit ds = true /\ ds <> []
        /\ ((exists post, msg = lit "(#" ++ ds ++ lit ")" ++ post)
            \/ (exists post,
                  msg = nl ++ nl ++ lit "#" ++ ds ++ post
                  /\ match post with
                     | x :: _ => isDigit x = false
                     | [] => True
                     end)))
  /\ (forall v,
        (v <= two53)%N ->
        numberText (Finite v) = ofN v
        /\ forallb isDigit (numberText (Finite v)) = true
        /\ parseInt (numberText (Finite v)) = Finite v)
  /\ (forall v,
        toDouble v = Finite v ->
        forallb isDigit (numberText (Finite v)) = true ->
        parseInt (numberText (Finite v)) = Finite v).
Proof.
  split; [apply extractPrNumber_firstDigits|].
  split.
  { intros pre rest ds -> Hr Hpre. rewrite extractPrNumber_firstDigits.
    rewrite (firstDigits_leftmost pre rest ds Hr Hpre). reflexivity. }
  split.
  { intros n. rewrite extractPrNumber_firstDigits.
    destruct (firstDigits msg) as [ds|] eqn:E; [|discriminate].
    intros H. injection H as <-.
    destruct (firstDigits_found msg ds E) as [pre [rest [H1 [H2 H3]]]].
    exists pre, rest, ds. auto. }
  split.
  { intros H. rewrite extractPrNumber_firstDigits.
    rewrite (firstDigits_none msg H). reflexivity. }
  split.
  { intros ds. split; [apply digitsAt_shape|].
    intros [Hd [Hne [[post ->]|[post [-> Hp]]]]].
    - apply digitsAt_parenthesised; assumption.
    - apply digitsAt_trailing; assumption. }
  split.
  { intros v Hv.
    assert (Ht : numberText (Finite v) = ofN v).
    { unfold numberText.
      replace (v <=? two53)%N with true
        by (symmetry; apply N.leb_le; exact Hv).
      reflexivity. }
    split; [exact Ht|]. rewrite Ht.
    split; [apply ofN_digits|].
    unfold parseInt. rewrite digitsValue_ofN.
    apply toDouble_exact. exact Hv. }
  apply numberText_read_back.
Qed.

Lemma request_number_leftmost_witness :
  extractPrNumber (lit "feat(api): add search (#12) again (#4)")
  = Some (Finite 12)
  /\ extractPrNumber (lit "add search" ++ nl ++ nl ++ lit "#5 follows (#7)")
     = Some (Finite 5)
  /\ extractPrNumber (lit "Merge pull request #12 from x/y") = None.
Proof.
  split; [|split].
  - rewrite (proj1 (request_number_leftmost
                      (lit "feat(api): add search (#12) again (#4)"))).
    vm_compute. reflexivity.
  - rewrite (proj1 (request_number_leftmost
                      (lit "add search" ++ nl ++ nl
                       ++ lit "#5 follows (#7)"))).
    vm_compute. reflexivity.
  - rewrite (proj1 (request_number_leftmost
                      (lit "Merge pull request #12 from x/y"))).
    vm_compute. reflexivity.
Defined.

(** ** From fetched commits to the rendered document *)

Lemma toParsedCommit_ok (g : GitHubCommit) :
  exists p,
    parseConventionalCommit (g_message g) = Ok p
    /\ toParsedCommit g
       = Ok (mkCommit (g_sha g) (p_type p) (p_scope p) (p_message p)
                      (p_description p) (p_breaking p) (g_author_name g)
                      (g_author_date g) (extractPrNumber (g_message g))
                      (html_url g)).
Proof.
  destruct (parse_total (g_message g)) as [p Hp]. exists p.
  split; [exact Hp|]. unfold toParsedCommit. rewrite Hp. reflexivity.
Qed.

Lemma parse_scope_inv (msg : jsstring) (p : Parsed) (s : jsstring) :
  parseConventionalCommit msg = Ok p -> p_scope p = Some s ->
  s <> [] /\ forallb not_rparen s = true.
Proof.
  intros Hp Hs.
  destruct (parse_cases msg) as [[m [sh [E [Hw [Hm Hq]]]]]|[E Hq]];
    rewrite Hq in Hp; injection Hp as <-; simpl in Hs; [|discriminate].
  destruct Hw as [_ [Hv _]]. rewrite Hs in Hv. exact Hv.
Qed.

Lemma mergePR_scope (pr : PullRequest) (c : ParsedCommit) :
  scope (mergePR pr c) = scope c.
Proof.
  pose proof (applyLabels_frame pr c) as F.
  unfold mergePR, applyBody, applyTitle.
  repeat match goal with
         | |- context [if ?b then _ else _] => destruct b
         end; simpl; tauto.
Qed.

(** X17.  Every fetched commit is turned into a record.  The parser
    returns on its message, and the category, scope, title, description
    and breaking flag of the record are those that the parser returns;
    the identifier, author, date and permalink are copied from the
    commit, and the request number is the one read from the message.  In
    the record the category [breaking] comes with the breaking flag, the
    marker in the message sets the flag, a scope is never empty, and the
    title holds no line feed. *)
Theorem fetched_commit_record (g : GitHubCommit) :
  exists p c,
    parseConventionalCommit (g_message g) = Ok p
    /\ toParsedCommit g = Ok c
    /\ type c = p_type p /\ scope c = p_scope p
    /\ message c = p_message p /\ description c = p_description p
    /\ breaking c = p_breaking p
    /\ sha c = g_sha g /\ author c = g_author_name g
    /\ date c = g_author_date g /\ commitUrl c = html_url g
    /\ prNumber c = extractPrNumber (g_message g)
    /\ flagged_if_breaking c /\ scope_well_formed c
    /\ (includes (g_message g) BREAKING_MARKER = true -> breaking c = true)
    /\ ~ In 10%N (message c).
Proof.
  destruct (toParsedCommit_ok g) as [p [Hp Hc]].
  exists p. eexists. split; [exact Hp|]. split; [exact Hc|]. simpl.
  repeat (split; [reflexivity|]).
  split; [|split; [|split]].
  - intros Hty. simpl in Hty. simpl.
    apply (parse_breaking_inv _ _ Hp Hty).
  - intros s Hs. simpl in Hs. exact (parse_scope_inv _ _ _ Hp Hs).
  - intros Hm.
    destruct (parse_cases (g_message g))
      as [[m [sh [E [Hw [Hs Hq]]]]]|[E Hq]];
      rewrite Hq in Hp; injection Hp as <-; simpl.
    + rewrite Hm. apply orb_true_r.
    + exact Hm.
  - destruct (parse_cases (g_message g))
      as [[m [sh [E [Hw [Hs Hq]]]]]|[E Hq]];
      rewrite Hq in Hp; injection Hp as <-; simpl.
    + destruct Hw as [_ [_ [_ [Ht _]]]].
      intros H. apply in_trim in H. exact (dot_no_feed _ Ht H).
    + intros H. apply in_trim in H. exact (first_line_no_feed _ H).
Qed.

Lemma fetched_commit_inv (g : GitHubCommit) (c : ParsedCommit) :
  toParsedCommit g = Ok c ->
  sha c = g_sha g /\ flagged_if_breaking c /\ scope_well_formed c.
Proof.
  destruct (toParsedCommit_ok g) as [p [Hp Hc]]. rewrite Hc.
  intros H. injection H as <-. simpl. split; [reflexivity|]. split.
  - intros Hty. simpl in *. apply (parse_breaking_inv _ _ Hp Hty).
  - intros s Hs. simpl in Hs. exact (parse_scope_inv _ _ _ Hp Hs).
Qed.

Lemma mergePR_sha (pr : PullRequest) (c : ParsedCommit) :
  sha (mergePR pr c) = sha c.
Proof.
  pose proof (applyLabels_frame pr c) as F.
  unfold mergePR, applyBody, applyTitle.
  repeat match goal with
         | |- context [if ?b then _ else _] => destruct b
         end; simpl; tauto.
Qed.

Lemma toParsedCommits_inv (raw : list GitHubCommit)
  (cs : list ParsedCommit) :
  toParsedCommits raw = Ok cs ->
  Forall2 (fun g c => toParsedCommit g = Ok c) raw cs.
Proof.
  revert cs. induction raw as [|g raw IH]; intros cs; simpl.
  - intros H. injection H as <-. constructor.
  - destruct (toParsedCommit g) as [c|e] eqn:E; simpl; [|discriminate].
    destruct (toParsedCommits raw) as [cs1|e]; simpl; [|discriminate].
    intros H. injection H as <-. constructor; auto.
Qed.

Lemma toParsedCommits_total (raw : list GitHubCommit) :
  exists cs, toParsedCommits raw = Ok cs.
Proof.
  induction raw as [|g raw [cs IH]]; simpl; [eauto|].
  destruct (toParsedCommit_ok g) as [p [_ ->]]. simpl. rewrite IH.
  simpl. eauto.
Qed.

(** X18.  The conversion of the fetched commits never fails, and after
    conversion and a successful enrichment pass there is one record for
    each fetched commit, in the order of the answer and with its
    identifier; in every record the category [breaking] comes with the
    breaking flag and a scope is never empty. *)
Theorem pipeline_records (fetch : jsnumber -> result (option PullRequest))
  (raw : list GitHubCommit) :
  exists cs,
    toParsedCommits raw = Ok cs
    /\ forall cs',
         enrichCommitsWithPRData fetch cs = Ok cs' ->
         map sha cs' = map g_sha raw
         /\ Forall flagged_if_breaking cs'
         /\ Forall scope_well_formed cs'.
Proof.
  destruct (toParsedCommits_total raw) as [cs Hcs]. exists cs.
  split; [exact Hcs|]. intros cs' He.
  apply toParsedCommits_inv in Hcs.
  pose proof (enrich_relates fetch cs cs' He) as Hrel. clear He.
  revert cs' Hrel. induction Hcs as [|g c raw cs Hg _ IH]; intros cs' Hrel.
  - inversion Hrel. subst. repeat split; constructor.
  - inversion Hrel as [|? c' ? cs1 Hc Hrest]. subst.
    destruct (IH _ Hrest) as [I1 [I2 I3]].
    destruct (fetched_commit_inv g c Hg) as [Hsha [Hflag Hscope]].
    assert (Hc' : sha c' = g_sha g /\ flagged_if_breaking c'
                  /\ scope_well_formed c').
    { destruct Hc as [Hnone [Hmiss [Hfound Hans]]].
      destruct (prNumber_truthy c) as [n|] eqn:En;
        [|rewrite (Hnone eq_refl); auto].
      destruct (Hans n eq_refl) as [[pr|] Ha];
        [|rewrite (Hmiss n eq_refl Ha); auto].
      rewrite (Hfound n pr eq_refl Ha).
      split; [|split].
      - rewrite <- Hsha. apply mergePR_sha.
      - intros Hty. apply mergePR_flag_kept, Hflag.
        apply (mergePR_no_new_breaking pr). exact Hty.
      - intros s. rewrite mergePR_scope. apply Hscope. }
    destruct Hc' as [H1 [H2 H3]].
    simpl. rewrite I1, H1. repeat split; auto.
Qed.

(** ** The rows of the statistics *)

Lemma insertAsc_perm {V} (e : jsstring * V) (l : obj V) :
  Permutation (insertAsc e l) (e :: l).
Proof.
  induction l as [|x l IH]; simpl; [reflexivity|].
  destruct (indexValue e <=? indexValue x)%N; [reflexivity|].
  rewrite IH. apply perm_swap.
Qed.

Lemma sortAsc_perm {V} (l : obj V) : Permutation (sortAsc l) l.
Proof.
  unfold sortAsc. induction l as [|x l IH]; simpl; [reflexivity|].
  rewrite insertAsc_perm, IH. reflexivity.
Qed.

Lemma filter_split_perm {A} (f : A -> bool) (l : list A) :
  Permutation (filter f l ++ filter (fun x => negb (f x)) l) l.
Proof.
  induction l as [|x l IH]; simpl; [reflexivity|].
  destruct (f x); simpl.
  - constructor. exact IH.
  - rewrite <- Permutation_middle. constructor. exact IH.
Qed.

Lemma entries_perm {V} (o : obj V) : Permutation (entries o) o.
Proof.
  unfold entries. rewrite sortAsc_perm. apply filter_split_perm.
Qed.

Lemma insertDesc_perm (e : jsstring * counter)
  (l : list (jsstring * counter)) :
  Permutation (insertDesc e l) (e :: l).
Proof.
  induction l as [|x l IH]; simpl; [reflexivity|].
  destruct (lessCount (snd e) (snd x)); [|reflexivity].
  rewrite IH. apply perm_swap.
Qed.

Lemma sortDesc_perm (l : list (jsstring * counter)) :
  Permutation (sortDesc l) l.
Proof.
  unfold sortDesc. induction l as [|x l IH]; simpl; [reflexivity|].
  rewrite insertDesc_perm, IH. reflexivity.
Qed.

Lemma lessCount_numbers (a b : counter) :
  lessCount a b = true -> countOf a < countOf b.
Proof.
  destruct a, b; simpl; try discriminate. apply Nat.ltb_lt.
Qed.

Lemma lessCount_not (m n : nat) :
  lessCount (Num m) (Num n) = false -> n <= m.
Proof. simpl. apply Nat.ltb_ge. Qed.

(** Among numbers the sort orders by descending count. *)
Lemma insertDesc_sorted (e : jsstring * counter)
  (l : list (jsstring * counter)) :
  (forall x, In x (e :: l) -> exists n, snd x = Num n) ->
  StronglySorted (fun a b => countOf (snd b) <= countOf (snd a)) l ->
  StronglySorted (fun a b => countOf (snd b) <= countOf (snd a))
                 (insertDesc e l).
Proof.
  induction l as [|x l IH]; simpl; intros Hnum H.
  - repeat constructor.
  - inversion H as [|? ? Hl Hx]. subst.
    destruct (lessCount (snd e) (snd x)) eqn:E.
    + apply lessCount_numbers in E. constructor.
      * apply IH; [|exact Hl].
        intros y [<-|Hy]; apply Hnum; simpl; auto.
      * rewrite Forall_forall in *. intros y Hy.
        apply (Permutation_in _ (insertDesc_perm e l)) in Hy.
        destruct Hy as [<-|Hy]; [lia|auto].
    + destruct (Hnum e (or_introl eq_refl)) as [m Hm].
      destruct (Hnum x (or_intror (or_introl eq_refl))) as [n Hn].
      rewrite Hm, Hn in E. apply lessCount_not in E.
      constructor; [exact H|].
      constructor; [rewrite Hm, Hn; exact E|].
      rewrite Forall_forall in *. intros y Hy. specialize (Hx y Hy).
      rewrite Hm. rewrite Hn in Hx. simpl in *. lia.
Qed.

Lemma sortDesc_sorted (l : list (jsstring * counter)) :
  (forall x, In x l -> exists n, snd x = Num n) ->
  StronglySorted (fun a b => countOf (snd b) <= countOf (snd a))
                 (sortDesc l).
Proof.
  unfold sortDesc. induction l as [|x l IH]; simpl; intros Hnum;
    [constructor|].
  apply insertDesc_sorted.
  - intros y [<-|Hy]; [apply Hnum; left; reflexivity|].
    apply Hnum. right.
    apply (Permutation_in _ (sortDesc_perm l)). exact Hy.
  - apply IH. intros y Hy. apply Hnum. right. exact Hy.
Qed.

(** The sort never swaps two rows of the same count. *)
Lemma insertDesc_stable (n : nat) (e : jsstring * counter)
  (l : list (jsstring * counter)) :
  rowsWithCount n (insertDesc e l) = rowsWithCount n (e :: l).
Proof.
  unfold rowsWithCount. induction l as [|x l IH]; simpl; [reflexivity|].
  destruct (lessCount (snd e) (snd x)) eqn:E; [|reflexivity].
  simpl. rewrite IH. simpl.
  destruct (counter_eqb (snd e) (Num n)) eqn:E1,
    (counter_eqb (snd x) (Num n)) eqn:E2; try reflexivity.
  destruct (snd e) as [m|], (snd x) as [k|]; simpl in *; try discriminate.
  apply Nat.eqb_eq in E1, E2. apply Nat.ltb_lt in E. lia.
Qed.

Lemma sortDesc_stable (n : nat) (l : list (jsstring * counter)) :
  rowsWithCount n (sortDesc l) = rowsWithCount n l.
Proof.
  unfold sortDesc. induction l as [|x l IH]; simpl; [reflexivity|].
  rewrite insertDesc_stable. unfold rowsWithCount in *. simpl.
  rewrite IH. reflexivity.
Qed.

Lemma numericSum_perm (a b : obj counter) :
  Permutation a b -> numericSum a = numericSum b.
Proof.
  unfold numericSum. intros H. induction H; simpl; lia.
Qed.

Lemma In_get {V} (k : jsstring) (v : V) (o : obj V) :
  NoDup (keys o) -> In (k, v) o -> get k o = Some v.
Proof.
  unfold keys. induction o as [|[k0 v0] o IH]; simpl; intros Hnd Hin;
    [destruct Hin|].
  inversion Hnd as [|? ? Hfresh Hnd']. subst.
  destruct Hin as [H|H].
  - injection H as -> ->. rewrite str_eqb_refl. reflexivity.
  - destruct (str_eqb k0 k) eqn:E; [|exact (IH Hnd' H)].
    apply str_eqb_eq in E. subst k0. exfalso. apply Hfresh.
    apply in_map_iff. exists (k, v). auto.
Qed.

(** X19.  The statistics section ends with one row per key of the
    author dictionary: the rows are the entries of the dictionary, each
    exactly once.  When no author names a member of [Object.prototype],
    every row holds the number of commits of its author, the rows are
    sorted by descending number, two rows with the same number keep the
    order of the dictionary, and the numbers add up to the number of
    commits. *)
Theorem author_rows_sorted (cs : list ParsedCommit) :
  (exists pre,
     statsLines (calculateStats cs)
     = pre ++ map authorLine (authorRows (calculateStats cs)))
  /\ Permutation (authorRows (calculateStats cs))
                 (commitsByAuthor (calculateStats cs))
  /\ NoDup (map fst (authorRows (calculateStats cs)))
  /\ (forallb (fun c => ordinary (author c)) cs = true ->
      Forall (fun e => snd e = Num (countBy author (fst e) cs))
             (authorRows (calculateStats cs))
      /\ StronglySorted (fun a b => countOf (snd b) <= countOf (snd a))
                        (authorRows (calculateStats cs))
      /\ (forall n,
            rowsWithCount n (authorRows (calculateStats cs))
            = rowsWithCount n
                (entries (commitsByAuthor (calculateStats cs))))
      /\ numericSum (authorRows (calculateStats cs)) = length cs).
Proof.
  assert (Hp : Permutation (authorRows (calculateStats cs))
                           (commitsByAuthor (calculateStats cs))).
  { unfold authorRows. rewrite sortDesc_perm. apply entries_perm. }
  assert (Hd : commitsByAuthor (calculateStats cs) = bumpAll author cs []).
  { unfold calculateStats.
    destruct (calculateStats_fields cs (statsInit (length cs)))
      as [_ [_ [-> _]]]. reflexivity. }
  assert (Hnd : NoDup (keys (commitsByAuthor (calculateStats cs)))).
  { rewrite Hd. apply keys_NoDup_bumpAll. constructor. }
  split; [|split; [exact Hp|split]].
  - unfold statsLines, authorRows, authorLine.
    eexists. rewrite !app_assoc. reflexivity.
  - apply (Permutation_NoDup (l := keys (commitsByAuthor (calculateStats cs)))).
    + unfold keys. apply Permutation_map. symmetry. exact Hp.
    + exact Hnd.
  - intros Hall.
    assert (Hrows : forall e, In e (authorRows (calculateStats cs)) ->
              snd e = Num (countBy author (fst e) cs)).
    { intros [a v] He. simpl.
      apply (Permutation_in _ Hp) in He.
      pose proof (In_get a v _ Hnd He) as Hg.
      assert (Hk : In a (keys (bumpAll author cs []))).
      { rewrite <- Hd. apply get_Some_key. congruence. }
      rewrite Hd, (bumpAll_value _ _ _ Hk) in Hg.
      apply bumpAll_keys in Hk. destruct Hk as [_ [c [Hc <-]]].
      rewrite forallb_forall in Hall. specialize (Hall c Hc).
      unfold ordinary in Hall. apply negb_true_iff in Hall.
      rewrite Hall in Hg. congruence. }
    split; [apply Forall_forall; exact Hrows|]. split.
    + unfold authorRows. apply sortDesc_sorted.
      intros x Hx. exists (countBy author (fst x) cs). apply Hrows.
      unfold authorRows. apply (Permutation_in _ (Permutation_sym
        (sortDesc_perm _))). exact Hx.
    + split; [intros n; apply sortDesc_stable|].
      rewrite (numericSum_perm _ _ Hp), Hd, numericSum_bumpAll_empty.
      f_equal. clear -Hall. induction cs as [|c cs IH]; [reflexivity|].
      simpl in *. apply andb_true_iff in Hall. destruct Hall as [H1 H2].
      rewrite H1. f_equal. apply IH. exact H2.
Qed.

(** ** Plain text and the empty collection *)

Lemma subseq_refl (s : jsstring) : subseq s s.
Proof. induction s; constructor; auto. Qed.

Lemma subseq_trans (a b c : jsstring) :
  subseq a b -> subseq b c -> subseq a c.
Proof.
  intros Hab Hbc. revert a Hab.
  induction Hbc as [|x b c Hbc IH|x b c Hbc IH]; intros a Hab.
  - exact Hab.
  - inversion Hab; subst; constructor; auto.
  - constructor. auto.
Qed.

Lemma subseq_app_r (a b c : jsstring) : subseq a b -> subseq a (b ++ c).
Proof.
  intros H. induction H; simpl; try (constructor; assumption).
  induction c; constructor; auto.
Qed.

Lemma subseq_app_l (a b c : jsstring) : subseq a b -> subseq a (c ++ b).
Proof. intros H. induction c; simpl; [exact H|constructor; auto]. Qed.

Lemma deleteAtLineStart_subseq (len : jsstring -> nat) (skip : nat)
  (prev : option N) (s : jsstring) :
  subseq (deleteAtLineStart len skip prev s) s.
Proof.
  revert skip prev. induction s as [|c s IH]; intros skip prev; simpl.
  - constructor.
  - destruct skip; [|constructor; apply IH].
    destruct (if match prev with
                 | Some p => isLineTerminator p
                 | None => true
                 end then len (c :: s) else 0);
      constructor; apply IH.
Qed.

Lemma trimStart_subseq (s : jsstring) : subseq (trimStart s) s.
Proof.
  induction s as [|c s IH]; simpl; [constructor|].
  destruct (isWhiteSpace c); [constructor; exact IH|apply subseq_refl].
Qed.

Lemma subseq_rev (a b : jsstring) : subseq a b -> subseq (rev a) (rev b).
Proof.
  intros H. induction H; simpl.
  - constructor.
  - clear H. revert IHsubseq. generalize (rev a), (rev b).
    intros x y Hxy. induction Hxy; simpl; repeat constructor; auto.
  - apply subseq_app_r. exact IHsubseq.
Qed.

Lemma trim_subseq (s : jsstring) : subseq (trim s) s.
Proof.
  unfold trim, trimEnd.
  apply subseq_trans with (trimStart s); [|apply trimStart_subseq].
  rewrite <- (rev_involutive (trimStart s)) at 2.
  apply subseq_rev, trimStart_subseq.
Qed.

Lemma trimStart_app (x y : jsstring) :
  trimStart (x ++ y)
  = match trimStart x with
    | [] => trimStart y
    | _ :: _ => trimStart x ++ y
    end.
Proof.
  induction x as [|c x IH]; simpl; [destruct (trimStart y); reflexivity|].
  destruct (isWhiteSpace c); [exact IH|reflexivity].
Qed.

(** Trimming keeps a prefix that starts and ends with code units that
    are not white space. *)
Lemma trim_keeps_prefix (a z : jsstring) (c d : N) (a' : jsstring) :
  a = c :: a' -> isWhiteSpace c = false ->
  (exists a'', a = a'' ++ [d]) -> isWhiteSpace d = false ->
  exists w, trim (a ++ z) = a ++ w.
Proof.
  intros Ha Hc [a'' Hd] Hdw. unfold trim, trimEnd.
  assert (Hs : trimStart (a ++ z) = a ++ z).
  { subst a. simpl. rewrite Hc. reflexivity. }
  rewrite Hs, rev_app_distr, trimStart_app.
  assert (Hra : trimStart (rev a) = rev a).
  { rewrite Hd, rev_app_distr. simpl. rewrite Hdw. reflexivity. }
  destruct (trimStart (rev z)) as [|x t] eqn:Ez.
  - exists []. rewrite Hra, rev_involutive, app_nil_r. reflexivity.
  - exists (rev (x :: t)). rewrite rev_app_distr, rev_involutive.
    reflexivity.
Qed.

Lemma markdown_head (formatDate : jsstring -> jsstring) (rn : ReleaseNotes)
  (groupBy : GroupBy) (markdown : jsstring) :
  generateMarkdown formatDate rn groupBy = Ok markdown ->
  exists X, markdown = lit "# Release Notes" ++ X.
Proof.
  unfold generateMarkdown, markdownLines, headerLines.
  destruct (groupCommits groupBy (commits rn)); [|discriminate].
  cbn [bind app join]. intros H. injection H as <-.
  eexists. reflexivity.
Qed.

Lemma heading_pass (X : jsstring) :
  deleteAtLineStart lenHeading 0 None (lit "# Release Notes" ++ X)
  = lit "Release Notes" ++ deleteAtLineStart lenHeading 0 (Some 115%N) X.
Proof. reflexivity. Qed.

Lemma bullet_pass (Y : jsstring) :
  deleteAtLineStart lenBullet 0 None (lit "Release Notes" ++ Y)
  = lit "Release Notes" ++ deleteAtLineStart lenBullet 0 (Some 115%N) Y.
Proof. reflexivity. Qed.

(** X20.  The plain-text rendering throws when the markdown rendering
    does, with the same error.  When the markdown rendering returns, so
    does the plain-text rendering, and its text only deletes code units
    of the markdown text: it adds nothing and reorders nothing.  It always
    begins with [Release Notes], the marker of the heading removed. *)
Theorem plain_text_of_markdown (formatDate : jsstring -> jsstring)
  (rn : ReleaseNotes) (groupBy : GroupBy) :
  (forall markdown,
     generateMarkdown formatDate rn groupBy = Ok markdown ->
     exists text,
       generatePlainText formatDate rn groupBy = Ok text
       /\ subseq text markdown
       /\ exists rest, text = lit "Release Notes" ++ rest)
  /\ (forall e,
        generateMarkdown formatDate rn groupBy = Throw e ->
        generatePlainText formatDate rn groupBy = Throw e).
Proof.
  split.
  - intros markdown Hm. unfold generatePlainText. rewrite Hm. cbn [bind].
    eexists. split; [reflexivity|]. split.
    + eapply subseq_trans; [apply trim_subseq|].
      eapply subseq_trans; apply deleteAtLineStart_subseq.
    + destruct (markdown_head formatDate rn groupBy markdown Hm) as [X ->].
      rewrite heading_pass, bullet_pass.
      apply (trim_keeps_prefix (lit "Release Notes") _ 82 115
               (lit "elease Notes")); try reflexivity.
      exists (lit "Release Note"). reflexivity.
  - intros e He. unfold generatePlainText. rewrite He. reflexivity.
Qed.

(** X21.  For the empty collection the markdown document is the header
    alone, in every grouping mode: the title line, the line of the date
    and an empty line; with statistics, the header line of the totals
    shows zero commits and zero breaking changes, and the statistics
    section holds its three headings and no row. *)
Theorem empty_collection_document (formatDate : jsstring -> jsstring)
  (now : jsstring) (options : Options) (groupBy : GroupBy) :
  (orDefault (o_includeStats options) false = false ->
   markdownLines formatDate (buildNotes now [] options) groupBy
   = Ok
     [ lit "# Release Notes"
         ++ (if truthy (o_version options)
             then lit " (" ++ orDefault (o_version options) [] ++ lit ")"
             else []);
       lit "> Generated on " ++ formatDate now;
       [] ])
  /\ (orDefault (o_includeStats options) false = true ->
      markdownLines formatDate (buildNotes now [] options) groupBy
      = Ok
        [ lit "# Release Notes"
            ++ (if truthy (o_version options)
                then lit " (" ++ orDefault (o_version options) [] ++ lit ")"
                else []);
          lit "> Generated on " ++ formatDate now;
          lit "> Total Commits: 0 | Breaking Changes: 0" ++ nl;
          lit "## " ++ EMOJI_STATS ++ lit " Detailed Statistics" ++ nl;
          lit "### Commits by Type";
          nl ++ lit "### Commits by Author" ]).
Proof.
  unfold markdownLines, headerLines, buildNotes.
  cbn [version rn_date stats commits rn_breakingChanges filter breakingLines].
  split; intros ->; destruct groupBy; reflexivity.
Qed.

Lemma empty_collection_document_witness :
  markdownLines sample_formatDate
    (buildNotes sample_now []
       (mkOptions (Some (lit "1.2.0")) None None None None)) ByAuthor
  = Ok [ lit "# Release Notes (1.2.0)"; lit "> Generated on 2024-05-03";
         [] ].
Proof.
  exact (proj1 (empty_collection_document sample_formatDate sample_now
                  (mkOptions (Some (lit "1.2.0")) None None None None)
                  ByAuthor) eq_refl).
Defined.

(** ** The outcome of a request *)

Lemma fileable_notes (groupBy : GroupBy) (now : jsstring)
  (cs : list ParsedCommit) (options : Options) :
  fileable groupBy (commits (buildNotes now cs options)) = true <->
  (forall c, In c cs -> breaking c = false ->
     ordinary (groupKey groupBy c) = true).
Proof.
  unfold fileable. rewrite forallb_forall. split.
  - intros H c Hin Hb. apply H. apply buildNotes_commits. auto.
  - intros H c Hc. apply buildNotes_commits in Hc. apply H; tauto.
Qed.

Lemma generateMarkdown_outcome (formatDate : jsstring -> jsstring)
  (rn : ReleaseNotes) (groupBy : GroupBy) :
  if fileable groupBy (commits rn)
  then exists markdown, generateMarkdown formatDate rn groupBy = Ok markdown
  else generateMarkdown formatDate rn groupBy
       = Throw (groupingError groupBy).
Proof.
  unfold generateMarkdown, markdownLines. rewrite groupCommits_pushAll.
  destruct (fileable groupBy (commits rn)); cbn [bind]; eauto.
Qed.

Lemma generatePlainText_outcome (formatDate : jsstring -> jsstring)
  (rn : ReleaseNotes) (groupBy : GroupBy) :
  if fileable groupBy (commits rn)
  then exists text, generatePlainText formatDate rn groupBy = Ok text
  else generatePlainText formatDate rn groupBy
       = Throw (groupingError groupBy).
Proof.
  pose proof (generateMarkdown_outcome formatDate rn groupBy) as H.
  unfold generatePlainText.
  destruct (fileable groupBy (commits rn)).
  - destruct H as [markdown ->]. cbn [bind]. eauto.
  - rewrite H. reflexivity.
Qed.

(** X28.  A request for a format other than [markdown], [json] and
    [text] throws the error [Unsupported format: <format>] and returns
    no text.  A request for [json] returns the serialized document.  A
    request for [markdown] or [text] (no format means [markdown]) returns
    a text if and only if no commit that is not breaking has a grouping
    key that names a member of [Object.prototype]; otherwise it throws
    the TypeError of the grouping.  Under category grouping it always
    returns a text. *)
Theorem format_outcomes
  (formatDate : jsstring -> jsstring) (now : jsstring)
  (JSON_stringify : ReleaseNotes -> jsstring)
  (cs : list ParsedCommit) (options : Options) :
  let format := orDefault (o_format options) (lit "markdown") in
  let groupBy := orDefault (o_groupBy options) ByType in
  let run := generateReleaseNotes formatDate now JSON_stringify cs options in
  (~ In format [lit "markdown"; lit "json"; lit "text"] ->
   run = Throw (lit "Unsupported format: " ++ format)
   /\ forall text, run <> Ok text)
  /\ (format = lit "json" ->
      run = Ok (JSON_stringify (buildNotes now cs options)))
  /\ (In format [lit "markdown"; lit "text"] ->
      ((exists text, run = Ok text) <->
       (forall c, In c cs -> breaking c = false ->
          ordinary (groupKey groupBy c) = true))
      /\ ((exists c, In c cs /\ breaking c = false
                     /\ ordinary (groupKey groupBy c) = false) ->
          run = Throw (groupingError groupBy))
      /\ (groupBy = ByType -> exists text, run = Ok text)).
Proof.
  intros format groupBy run.
  assert (Hrun : In format [lit "markdown"; lit "text"] ->
            if fileable groupBy (commits (buildNotes now cs options))
            then exists text, run = Ok text
            else run = Throw (groupingError groupBy)).
  { intros Hin. subst run. unfold generateReleaseNotes.
    fold format. fold groupBy.
    destruct Hin as [<-|[<-|[]]].
    - apply generateMarkdown_outcome.
    - apply generatePlainText_outcome. }
  split; [|split].
  - intros Hn. subst run. unfold generateReleaseNotes. fold format.
    destruct (str_eqb format (lit "markdown")) eqn:E1;
      [apply str_eqb_eq in E1; exfalso; apply Hn; simpl; auto|].
    destruct (str_eqb format (lit "json")) eqn:E2;
      [apply str_eqb_eq in E2; exfalso; apply Hn; simpl; auto|].
    destruct (str_eqb format (lit "text")) eqn:E3;
      [apply str_eqb_eq in E3; exfalso; apply Hn; simpl; auto|].
    split; [reflexivity|discriminate].
  - intros Hj. subst run. unfold generateReleaseNotes. fold format.
    rewrite Hj. reflexivity.
  - intros Hin. specialize (Hrun Hin).
    pose proof (fileable_notes groupBy now cs options) as Hf.
    split; [|split].
    + rewrite <- Hf.
      destruct (fileable groupBy (commits (buildNotes now cs options)));
        split; auto; try discriminate.
      intros [text Ht]. congruence.
    + intros [c [Hc [Hb Ho]]].
      destruct (fileable groupBy (commits (buildNotes now cs options)));
        [|exact Hrun].
      rewrite (proj1 Hf eq_refl c Hc Hb) in Ho. discriminate.
    + intros Hg. rewrite Hg in *. rewrite fileable_ByType in Hrun.
      exact Hrun.
Qed.

(** Scenario E of the specification. *)
Lemma format_outcomes_witness :
  ~ In (lit "yaml") [lit "markdown"; lit "json"; lit "text"]
  /\ generateReleaseNotes sample_formatDate sample_now sample_stringify
       [sample_breaking; sample_feature] yaml_options
     = Throw (lit "Unsupported format: yaml").
Proof.
  assert (H : ~ In (orDefault (o_format yaml_options) (lit "markdown"))
                   [lit "markdown"; lit "json"; lit "text"]).
  { simpl. intros [H|[H|[H|[]]]]; discriminate. }
  split; [exact H|].
  exact (proj1 (proj1 (format_outcomes sample_formatDate sample_now
                         sample_stringify [sample_breaking; sample_feature]
                         yaml_options) H)).
Defined.

(** ** Sections in every grouping mode *)

Lemma keys_filter_NoDup {V} (p : jsstring * V -> bool) (o : obj V) :
  NoDup (keys o) -> NoDup (keys (filter p o)).
Proof.
  unfold keys. induction o as [|e o IH]; intros Hnd; [exact Hnd|].
  apply NoDup_cons_iff in Hnd. destruct Hnd as [Hfresh Hnd]. simpl.
  destruct (p e); [|exact (IH Hnd)].
  simpl. apply NoDup_cons; [|exact (IH Hnd)].
  intros Hin. apply Hfresh. apply in_map_iff in Hin.
  destruct Hin as [e' [He' Hin]]. apply filter_In in Hin.
  apply in_map_iff. exists e'. tauto.
Qed.

(** X22.  In every grouping mode no section heading is emitted twice,
    no emitted section is empty, and a commit that is listed stands
    under one heading only, the one of its own key, at one place of the
    document for each time it occurs in the collection. *)
Theorem sections_are_distinct (groupBy : GroupBy) (rn : ReleaseNotes) :
  NoDup (map fst (renderedGroups groupBy rn))
  /\ (forall k l, In (k, l) (renderedGroups groupBy rn) ->
        l <> [] /\ l = filedUnder groupBy k (commits rn))
  /\ (forall k c, listed_under groupBy rn k c -> k = groupKey groupBy c).
Proof.
  assert (Hnd : NoDup (keys (pushAll (groupKey groupBy) (commits rn)
                                     (emptyGroups groupBy))))
    by (apply keys_NoDup_pushAll, emptyGroups_NoDup).
  split; [|split].
  - rewrite renderedGroups_pushAll.
    destruct (fileable groupBy (commits rn)); [|constructor].
    apply keys_filter_NoDup.
    apply (Permutation_NoDup
             (l := keys (pushAll (groupKey groupBy) (commits rn)
                                 (emptyGroups groupBy)))).
    + unfold keys. apply Permutation_map. symmetry. apply entries_perm.
    + exact Hnd.
  - intros k l H. apply renderedGroups_inv in H.
    destruct H as [_ [Hin [Hne _]]]. split; [exact Hne|].
    pose proof (In_get k l _ Hnd Hin) as Hget.
    rewrite get_pushAll in Hget.
    fold (filedUnder groupBy k (commits rn)) in Hget.
    pose proof (emptyGroups_get groupBy k) as He.
    destruct (get k (emptyGroups groupBy)) as [l0|]; [subst l0|];
      destruct (filedUnder groupBy k (commits rn));
      try discriminate; injection Hget as <-; reflexivity.
  - intros k c H. apply listed_under_iff in H.
    destruct H as [_ [_ [<- _]]]. reflexivity.
Qed.

Lemma groupCommits_returns (groupBy : GroupBy) (cs : list ParsedCommit) :
  (exists grouped, groupCommits groupBy cs = Ok grouped) <->
  fileable groupBy cs = true.
Proof.
  rewrite groupCommits_pushAll.
  destruct (fileable groupBy cs); split; eauto; try discriminate.
  intros [g H]. discriminate.
Qed.

(** X23.  Under scope grouping a commit without a scope, or with the
    empty scope, is filed under [other], in the same section as the
    commits whose scope is the word [other]: when the grouping returns, a
    commit that is not breaking is listed under [other] exactly in these
    two cases; when the grouping throws, nothing is listed. *)
Theorem scope_mode_other_section (now : jsstring) (cs : list ParsedCommit)
  (options : Options) (c : ParsedCommit) :
  In c cs -> breaking c = false ->
  (listed_under ByScope (buildNotes now cs options) (lit "other") c
   <-> (exists grouped,
          groupCommitsByScope (commits (buildNotes now cs options))
          = Ok grouped)
       /\ (truthy (scope c) = false \/ scope c = Some (lit "other"))).
Proof.
  intros Hin Hb.
  rewrite listed_under_iff, buildNotes_commits.
  rewrite (groupCommits_returns ByScope).
  simpl. unfold scopeKey. split.
  - intros [Hf [_ [Hk _]]]. split; [exact Hf|].
    destruct (scope c) as [[|x s]|]; simpl; auto.
    right. rewrite Hk. reflexivity.
  - intros [Hf [Ht|Hs]]; (split; [exact Hf|]).
    + split; [auto|]. split; [|discriminate].
      destruct (scope c) as [[|x s]|]; simpl in *; auto. discriminate.
    + rewrite Hs. simpl. repeat split; auto. discriminate.
Qed.

Lemma scope_mode_other_section_witness :
  listed_under ByScope
    (buildNotes sample_now [sample_fix; sample_feature] no_options)
    (lit "other") sample_fix.
Proof.
  apply (scope_mode_other_section sample_now [sample_fix; sample_feature]
           no_options sample_fix).
  - left. reflexivity.
  - reflexivity.
  - split; [eexists; vm_compute; reflexivity|]. left. reflexivity.
Defined.

(** ** The document and its statistics *)

Lemma totalSize_perm (a b : obj (list ParsedCommit)) :
  Permutation a b -> totalSize a = totalSize b.
Proof.
  unfold totalSize. intros H. induction H; simpl; lia.
Qed.

Lemma totalSize_filter (p : jsstring * list ParsedCommit -> bool)
  (l : obj (list ParsedCommit)) :
  totalSize (filter p l) + totalSize (filter (fun e => negb (p e)) l)
  = totalSize l.
Proof.
  unfold totalSize. induction l as [|e l IH]; simpl; [reflexivity|].
  destruct (p e); simpl; lia.
Qed.

(** The groups that the loop skips hold the commits of the group named
    [breaking] and no other. *)
Lemma totalSize_skipped (l : obj (list ParsedCommit)) :
  NoDup (keys l) ->
  totalSize (filter (fun e => negb (groupIsRendered e)) l)
  = match get (lit "breaking") l with
    | Some b => length b
    | None => 0
    end.
Proof.
  unfold keys, totalSize. induction l as [|[k b] l IH]; simpl; intros Hnd;
    [reflexivity|].
  inversion Hnd as [|? ? Hfresh Hnd']. subst.
  unfold groupIsRendered at 1. simpl fst. simpl snd.
  destruct (str_eqb k (lit "breaking")) eqn:E.
  - apply str_eqb_eq in E. subst k.
    rewrite andb_false_r. simpl. rewrite (IH Hnd').
    destruct (get (lit "breaking") l) eqn:G; [|lia].
    exfalso. apply Hfresh. apply (get_Some_key (lit "breaking") l).
    congruence.
  - rewrite andb_true_r, negb_involutive.
    destruct (length b =? 0) eqn:E0; simpl; [|apply IH; exact Hnd'].
    apply Nat.eqb_eq in E0. rewrite E0, (IH Hnd'). reflexivity.
Qed.

Lemma get_entries {V} (k : jsstring) (o : obj V) :
  NoDup (keys o) -> get k (entries o) = get k o.
Proof.
  intros Hnd.
  assert (Hnd' : NoDup (keys (entries o))).
  { apply (Permutation_NoDup (l := keys o)); [|exact Hnd].
    unfold keys. apply Permutation_map. symmetry. apply entries_perm. }
  destruct (get k o) as [v|] eqn:G.
  - apply In_get; [exact Hnd'|]. apply in_entries, get_In. exact G.
  - destruct (get k (entries o)) as [v|] eqn:G'; [|reflexivity].
    apply get_In in G'. apply (proj1 (in_entries _ _)) in G'.
    apply (In_get k v o Hnd) in G'. congruence.
Qed.

(** The commits of the emitted sections and those of the group named
    [breaking] are the commits handed to the grouping. *)
Lemma renderedGroups_size (groupBy : GroupBy) (rn : ReleaseNotes) :
  fileable groupBy (commits rn) = true ->
  totalSize (renderedGroups groupBy rn)
  + length (filedUnder groupBy (lit "breaking") (commits rn))
  = length (commits rn).
Proof.
  intros Hf. rewrite renderedGroups_pushAll, Hf.
  set (g := pushAll (groupKey groupBy) (commits rn) (emptyGroups groupBy)).
  assert (Hnd : NoDup (keys g))
    by (apply keys_NoDup_pushAll, emptyGroups_NoDup).
  assert (Hnd' : NoDup (keys (entries g))).
  { apply (Permutation_NoDup (l := keys g)); [|exact Hnd].
    unfold keys. apply Permutation_map. symmetry. apply entries_perm. }
  pose proof (totalSize_filter groupIsRendered (entries g)) as Hsplit.
  rewrite (totalSize_perm _ _ (entries_perm g)) in Hsplit.
  rewrite (totalSize_skipped _ Hnd'), (get_entries _ _ Hnd) in Hsplit.
  assert (Hall : totalSize g = length (commits rn)).
  { unfold g. rewrite totalSize_pushAll. destruct groupBy; reflexivity. }
  assert (Hb : match get (lit "breaking") g with
               | Some b => length b
               | None => 0
               end
               = length (filedUnder groupBy (lit "breaking") (commits rn))).
  { unfold g. rewrite get_pushAll.
    fold (filedUnder groupBy (lit "breaking") (commits rn)).
    pose proof (emptyGroups_get groupBy (lit "breaking")) as He.
    destruct (get (lit "breaking") (emptyGroups groupBy)) as [l0|];
      [subst l0|];
      destruct (filedUnder groupBy (lit "breaking") (commits rn));
      reflexivity. }
  lia.
Qed.

(** X24.  When statistics are requested, the header shows the number of
    commits of the collection as the total and the number of commits of
    the section of breaking changes as the count of breaking changes.
    When the grouping returns, the total is the number of commits of the
    section of breaking changes, plus the number of commits of the
    emitted sections, plus the number of commits that are not breaking
    and whose group is named [breaking]: these are counted and not
    shown.  Without the request there are no statistics. *)
Theorem header_totals_agree (now : jsstring) (cs : list ParsedCommit)
  (options : Options) (groupBy : GroupBy) :
  (orDefault (o_includeStats options) false = true ->
   exists st,
     stats (buildNotes now cs options) = Some st
     /\ totalCommits st = length cs
     /\ breakingChanges st
        = length (rn_breakingChanges (buildNotes now cs options))
     /\ (forall grouped,
           groupCommits groupBy (commits (buildNotes now cs options))
           = Ok grouped ->
           totalCommits st
           = length (rn_breakingChanges (buildNotes now cs options))
             + totalSize (renderedGroups groupBy (buildNotes now cs options))
             + length (filter (fun c => negb (breaking c)
                                        && str_eqb (groupKey groupBy c)
                                                   (lit "breaking")) cs)))
  /\ (orDefault (o_includeStats options) false = false ->
      stats (buildNotes now cs options) = None).
Proof.
  split; [|unfold buildNotes; cbn [stats]; intros ->; reflexivity].
  intros Hs. exists (calculateStats cs).
  split; [unfold buildNotes; cbn [stats]; rewrite Hs; reflexivity|].
  assert (Ht : totalCommits (calculateStats cs) = length cs).
  { unfold calculateStats.
    destruct (calculateStats_fields cs (statsInit (length cs)))
      as [-> _]. reflexivity. }
  assert (Hparts : length cs
                   = length (rn_breakingChanges (buildNotes now cs options))
                     + length (commits (buildNotes now cs options))).
  { unfold buildNotes. cbn [rn_breakingChanges commits].
    clear. induction cs as [|c cs IH]; simpl; [reflexivity|].
    destruct (breaking c); simpl; lia. }
  split; [exact Ht|]. split.
  - unfold calculateStats.
    destruct (calculateStats_fields cs (statsInit (length cs)))
      as [_ [_ [_ ->]]]. reflexivity.
  - intros grouped Hg.
    assert (Hf : fileable groupBy (commits (buildNotes now cs options))
                 = true)
      by (apply groupCommits_returns; eauto).
    pose proof (renderedGroups_size groupBy _ Hf) as Hsize.
    assert (Hskip : filedUnder groupBy (lit "breaking")
                      (commits (buildNotes now cs options))
                    = filter (fun c => negb (breaking c)
                                       && str_eqb (groupKey groupBy c)
                                                  (lit "breaking")) cs).
    { unfold filedUnder, buildNotes. cbn [commits].
      clear. induction cs as [|c cs IH]; simpl; [reflexivity|].
      destruct (breaking c); simpl; [exact IH|].
      destruct (str_eqb (groupKey groupBy c) (lit "breaking"));
        rewrite IH; reflexivity. }
    rewrite Hskip in Hsize. lia.
Qed.

(** Three commits that are not breaking, one of them with the scope
    [breaking]: the header counts three, and the sections show two. *)
Lemma header_totals_agree_witness :
  exists st,
    stats (buildNotes sample_now
             [sample_fix; sample_scoped_breaking; sample_feature]
             (mkOptions None None None (Some true) None)) = Some st
    /\ totalCommits st = 3
    /\ totalSize (renderedGroups ByScope
                    (buildNotes sample_now
                       [sample_fix; sample_scoped_breaking; sample_feature]
                       (mkOptions None None None (Some true) None))) = 2.
Proof.
  destruct (proj1 (header_totals_agree sample_now
                     [sample_fix; sample_scoped_breaking; sample_feature]
                     (mkOptions None None None (Some true) None) ByScope)
                  eq_refl) as [st [H1 [H2 _]]].
  exists st. split; [exact H1|]. split; [exact H2|].
  vm_compute. reflexivity.
Defined.

Lemma commitsByType_rows (cs : list ParsedCommit) :
  commitsByType (calculateStats cs)
  = map (fun t =>
           (type_name t,
            length (filter (fun c => CommitType_eqb (type c) t) cs)))
        all_types.
Proof.
  unfold calculateStats.
  destruct (calculateStats_fields cs (statsInit (length cs)))
    as [_ [-> _]].
  set (o := incrementAll (fun c => type_name (type c)) cs
              (commitsByType (statsInit (length cs)))).
  assert (Hk : keys o = map type_name all_types).
  { unfold o. rewrite keys_incrementAll_present; [reflexivity|].
    intros c _. destruct (type c); simpl; tauto. }
  assert (Hinj : forall t k, In k (map type_name all_types) ->
            str_eqb (type_name t) k = true -> k = type_name t).
  { intros t k _ H. apply str_eqb_eq in H. congruence. }
  rewrite (obj_of_keys o
             (fun k => length (filter
                (fun c => str_eqb (type_name (type c)) k) cs))).
  - rewrite Hk, map_map. apply map_ext. intros t. f_equal. f_equal.
    apply filter_ext. intros c. apply type_name_inj.
  - unfold o. apply keys_NoDup_incrementAll. unfold keys. simpl.
    repeat (constructor; [simpl; intros H;
      repeat (destruct H as [H|H]; [discriminate|]); exact H|]).
    constructor.
  - intros k Hin. unfold o. rewrite get_incrementAll. rewrite Hk in Hin.
    assert (He : get k (commitsByType (statsInit (length cs))) = Some 0).
    { simpl in Hin.
      repeat (destruct Hin as [<-|Hin]; [reflexivity|]). destruct Hin. }
    rewrite He. reflexivity.
Qed.

(** X25.  The statistics section lists the categories in the order of
    the union type ([breaking] first, [other] last), each with the
    number of commits of that category, breaking or not, and leaves out
    the categories without a commit. *)
Theorem type_rows_in_order (cs : list ParsedCommit) :
  (exists pre post,
     statsLines (calculateStats cs)
     = pre ++ map typeLine (typeRows (calculateStats cs)) ++ post)
  /\ typeRows (calculateStats cs)
     = filter (fun e => 0 <? snd e)
         (map (fun t =>
                 (type_name t,
                  length (filter (fun c => CommitType_eqb (type c) t) cs)))
              all_types).
Proof.
  split.
  - exists [lit "## " ++ EMOJI_STATS ++ lit " Detailed Statistics" ++ nl;
             lit "### Commits by Type"].
    unfold statsLines. eexists. reflexivity.
  - unfold typeRows. rewrite commitsByType_rows.
    rewrite entries_no_index by reflexivity. reflexivity.
Qed.

(** ** The body of a commit in the document *)

Lemma split_lines_nl (s : jsstring) :
  split_lines (10%N :: s) = ([], allLines s).
Proof.
  unfold allLines. simpl. destruct (split_lines s); reflexivity.
Qed.

Lemma split_lines_unit (c : N) (s : jsstring) :
  (c =? 10)%N = false ->
  split_lines (c :: s) = (c :: fst (split_lines s), snd (split_lines s)).
Proof.
  intros E. simpl. rewrite E. destruct (split_lines s); reflexivity.
Qed.

Lemma allLines_prefix (p s : jsstring) :
  ~ In 10%N p ->
  allLines (p ++ s)
  = (p ++ fst (split_lines s)) :: snd (split_lines s).
Proof.
  induction p as [|c p IH]; intros Hp.
  - reflexivity.
  - assert (E : (c =? 10)%N = false)
      by (apply N.eqb_neq; intros ->; apply Hp; left; reflexivity).
    assert (Hp' : ~ In 10%N p) by (intros H; apply Hp; right; exact H).
    specialize (IH Hp'). unfold allLines in *.
    change ((c :: p) ++ s) with (c :: (p ++ s)).
    rewrite (split_lines_unit _ _ E). cbn [fst snd].
    injection IH as -> ->. reflexivity.
Qed.

Lemma reindent_lines (p d : jsstring) :
  ~ In 10%N p ->
  allLines (p ++ reindent d)
  = (p ++ fst (split_lines d))
    :: map (fun l => lit "  - " ++ l) (snd (split_lines d)).
Proof.
  revert p. induction d as [|c d IH]; intros p Hp.
  - cbn [reindent flat_map]. rewrite allLines_prefix by exact Hp.
    reflexivity.
  - unfold reindent. cbn [flat_map]. fold (reindent d).
    destruct (c =? 10)%N eqn:E.
    + apply N.eqb_eq in E. subst c.
      change ((nl ++ lit "  - ") ++ reindent d)
        with (10%N :: (lit "  - " ++ reindent d)).
      rewrite allLines_prefix by exact Hp.
      rewrite !split_lines_nl. cbn [fst snd].
      rewrite IH.
      * reflexivity.
      * simpl. intros H. repeat (destruct H as [H|H]; [discriminate|]).
        exact H.
    + change ([c] ++ reindent d) with (c :: reindent d).
      change (p ++ c :: reindent d) with (p ++ [c] ++ reindent d).
      rewrite app_assoc, IH.
      * rewrite (split_lines_unit _ _ E). cbn [fst snd].
        rewrite <- app_assoc. reflexivity.
      * intros H. apply in_app_or in H. destruct H as [H|[H|[]]];
          [tauto|]. apply N.eqb_neq in E. congruence.
Qed.

(** X26.  The body of a commit is printed line by line under the commit:
    each line of the description becomes one line of the document that
    starts with two spaces, a hyphen and a space and then holds the line
    as it is, so the block has as many lines as the description. *)
Theorem body_is_reindented (includeScope : bool) (c : ParsedCommit)
  (d : jsstring) :
  description c = Some d -> d <> [] ->
  exists block,
    commitLines includeScope c
    = [lit "- " ++ formatCommit c includeScope; block]
    /\ allLines block = map (fun l => lit "  - " ++ l) (allLines d)
    /\ length (allLines block) = length (allLines d).
Proof.
  intros Hd Hne. destruct d as [|x d]; [congruence|].
  exists (lit "  - " ++ reindent (x :: d)).
  unfold commitLines. rewrite Hd. split; [reflexivity|].
  assert (H : allLines (lit "  - " ++ reindent (x :: d))
              = map (fun l => lit "  - " ++ l) (allLines (x :: d))).
  { rewrite reindent_lines; [reflexivity|].
    simpl. intros H. repeat (destruct H as [H|H]; [discriminate|]).
    exact H. }
  split; [exact H|]. rewrite H, length_map. reflexivity.
Qed.

Lemma body_is_reindented_witness :
  allLines (lit "  - " ++ reindent (lit "first" ++ nl ++ lit "second"))
  = [lit "  - first"; lit "  - second"].
Proof.
  destruct (body_is_reindented true
              (mkCommit (lit "c0ffee4") Docs None (lit "explain")
                 (Some (lit "first" ++ nl ++ lit "second")) false
                 (lit "ann") (lit "2024-05-01T09:00:00Z") None
                 (lit "https://example.org/c/c0ffee4"))
              (lit "first" ++ nl ++ lit "second") eq_refl
              ltac:(discriminate)) as [block [Hb [Hl _]]].
  injection Hb as <-. exact Hl.
Defined.
